(** * BrainfuckLLVM: the parser and the LLVM code generator of codegen.cpp

    The development follows the source file top to bottom:
    - [Ast]: the node classes and [debug_print];
    - [Parser]: [Node::try_parse], [ConditionalGroupNode::try_parse] and
      [ProgramNode::try_parse] over a character stream;
    - [IR]: the fragment of LLVM IR the generator emits, and the builder
      state kept in the globals [TheModule], [Builder] and [NamedValues];
    - [Codegen]: the [codegen] methods, as a state-and-failure monad over
      the builder state;
    - [Exec]: a small-step reading of the emitted IR (loads, stores,
      wrapping arithmetic, conditional branches, [putchar]/[getchar]);
    - [Props]: the notions the statements are written with;
    - [Brackets]: the nesting of brackets in a source text;
    - [Driver]: [main];
    - [Shape]: what a finished module looks like;
    - [Reference]: what the instructions mean, as an interpreter.
    Then come the facts about the parser, about what code generation does
    to the blocks of the module, and about running the emitted code, and at
    the end the properties C1 to C10 and X1 to X13. *)

From Stdlib Require Import ZArith Ascii String List Lia DecimalString DecimalNat.
From stdpp Require Import base option list gmap strings.

Local Open Scope Z_scope.

(* ===================================================================== *)
(** ** The abstract syntax tree (namespace [Ast]) *)
(* ===================================================================== *)

Module Ast.

(** One constructor per concrete class deriving from [Ast::Node]; the two
    [ScopeNode] subclasses carry the [children] vector. *)
#[warnings="-register-all"]
Inductive Node : Type :=
  | IncrementNode
  | DecrementNode
  | MoveLeftNode
  | MoveRightNode
  | PutCharNode
  | GetCharNode
  | ConditionalGroupNode (children : list Node)
  | ProgramNode (children : list Node).

(** Induction principle that descends into the [children] vectors. *)
Section NodeInd.
Variable P : Node -> Prop.
Hypothesis HInc : P IncrementNode.
Hypothesis HDec : P DecrementNode.
Hypothesis HLeft : P MoveLeftNode.
Hypothesis HRight : P MoveRightNode.
Hypothesis HPut : P PutCharNode.
Hypothesis HGet : P GetCharNode.
Hypothesis HGroup : forall children, Forall P children -> P (ConditionalGroupNode children).
Hypothesis HProg : forall children, Forall P children -> P (ProgramNode children).

Fixpoint Node_ind_nested (n : Node) : P n :=
  match n with
  | IncrementNode => HInc
  | DecrementNode => HDec
  | MoveLeftNode => HLeft
  | MoveRightNode => HRight
  | PutCharNode => HPut
  | GetCharNode => HGet
  | ConditionalGroupNode children =>
      HGroup children
        ((fix go (l : list Node) : Forall P l :=
            match l with
            | [] => @List.Forall_nil _ P
            | x :: l' => @List.Forall_cons _ P x l' (Node_ind_nested x) (go l')
            end) children)
  | ProgramNode children =>
      HProg children
        ((fix go (l : list Node) : Forall P l :=
            match l with
            | [] => @List.Forall_nil _ P
            | x :: l' => @List.Forall_cons _ P x l' (Node_ind_nested x) (go l')
            end) children)
  end.
End NodeInd.

(** [debug_print]: the characters written to [std::cout], in order. *)
Fixpoint debug_print (n : Node) : list ascii :=
  match n with
  | IncrementNode => ["+"%char]
  | DecrementNode => ["-"%char]
  | MoveLeftNode => ["<"%char]
  | MoveRightNode => [">"%char]
  | PutCharNode => ["."%char]
  | GetCharNode => [","%char]
  | ConditionalGroupNode children =>
      "["%char :: flat_map debug_print children ++ ["]"%char]
  | ProgramNode children => flat_map debug_print children
  end.

(** The [for (auto child: children) child->debug_print();] loop. *)
Definition debug_print_children (children : list Node) : list ascii :=
  flat_map debug_print children.

End Ast.
Export Ast.

(* ===================================================================== *)
(** ** The parser *)
(* ===================================================================== *)

Module Parser.

(** The unread part of the [std::fstream]. *)
Definition stream := list ascii.

(** [std::isspace] in the classic locale: space, and \t \n \v \f \r. *)
Definition isspace (c : ascii) : bool :=
  let n := nat_of_ascii c in
  ((n =? 32) || ((9 <=? n) && (n <=? 13)))%nat.

(** [in >> c] for [char c]: the [skipws] flag is set on a fresh stream, so
    leading whitespace is discarded and the next character extracted.  On
    end of file the extraction fails and the stream stays failed: [None]. *)
Fixpoint istream_get (s : stream) : option (ascii * stream) :=
  match s with
  | [] => None
  | c :: rest => if isspace c then istream_get rest else Some (c, rest)
  end.

(** The three parsing functions call each other; [fuel] bounds the depth of
    that recursion.  The outer [option] is [None] only when the fuel runs
    out; the inner [option Node] of [Node_try_parse] is the returned
    pointer, [None] for [NULL].  Once an extraction has failed the stream
    is in its failed state and every later extraction fails too: the
    stream that is left is then the empty one.

    [parse_children] is the loop
    [while ((node = Ast::Node::try_parse(in))) children.push_back(node);]
    which both [ProgramNode::try_parse] and
    [ConditionalGroupNode::try_parse] run on [children = {}]. *)
Fixpoint Node_try_parse (fuel : nat) (s : stream) {struct fuel}
    : option (option Node * stream) :=
  match fuel with
  | O => None
  | S fuel' =>
      match istream_get s with
      | None => Some (None, [])
      | Some (c, rest) =>
          if (c =? "+")%char then Some (Some IncrementNode, rest)
          else if (c =? "-")%char then Some (Some DecrementNode, rest)
          else if (c =? "<")%char then Some (Some MoveLeftNode, rest)
          else if (c =? ">")%char then Some (Some MoveRightNode, rest)
          else if (c =? ".")%char then Some (Some PutCharNode, rest)
          else if (c =? ",")%char then Some (Some GetCharNode, rest)
          else if (c =? "[")%char then
            match ConditionalGroupNode_try_parse fuel' rest with
            | Some (node, rest') => Some (Some node, rest')
            | None => None
            end
          else if (c =? "]")%char then Some (None, rest)
          else Node_try_parse fuel' rest
      end
  end
with ConditionalGroupNode_try_parse (fuel : nat) (s : stream) {struct fuel}
    : option (Node * stream) :=
  match fuel with
  | O => None
  | S fuel' =>
      match parse_children fuel' s [] with
      | Some (children, rest) => Some (ConditionalGroupNode children, rest)
      | None => None
      end
  end
with parse_children (fuel : nat) (s : stream) (children : list Node) {struct fuel}
    : option (list Node * stream) :=
  match fuel with
  | O => None
  | S fuel' =>
      match Node_try_parse fuel' s with
      | Some (Some node, rest) => parse_children fuel' rest (children ++ [node])
      | Some (None, rest) => Some (children, rest)
      | None => None
      end
  end.

Definition ProgramNode_try_parse (fuel : nat) (s : stream) : option (Node * stream) :=
  match parse_children fuel s [] with
  | Some (children, rest) => Some (ProgramNode children, rest)
  | None => None
  end.

(** Recursion depth that is enough for a stream of the given length. *)
Definition parse_fuel (s : stream) : nat := (3 * length s + 2)%nat.

(** What [main] does with the opened file: [ProgramNode::try_parse(in)]. *)
Definition parse (s : stream) : option Node :=
  fst <$> ProgramNode_try_parse (parse_fuel s) s.

Definition parse_string (s : string) : option Node :=
  parse (list_ascii_of_string s).

End Parser.
Export Parser.

(* ===================================================================== *)
(** ** The emitted IR and the builder state *)
(* ===================================================================== *)

Module IR.

(** [const unsigned int TAPE_SIZE = 0x4000;] *)
Definition TAPE_SIZE : Z := 0x4000.

(** The LLVM types the generator asks the context for. *)
Inductive Ty : Type :=
  | IntTy (bits : Z)                (* Type::getInt8Ty, getInt32Ty, getInt64Ty; i1 of icmp *)
  | VoidTy                          (* Builder->getVoidTy() *)
  | PtrTy                           (* the type of an alloca or a GEP *)
  | ArrayTy (elt : Ty) (n : Z).     (* ArrayType::get(elt, n) *)

Definition Int1Ty := IntTy 1.
Definition Int8Ty := IntTy 8.
Definition Int32Ty := IntTy 32.
Definition Int64Ty := IntTy 64.

#[global] Instance Ty_eq_dec : EqDecision Ty.
Proof. intros x y. unfold Decision. decide equality; apply Z.eq_dec. Defined.

(** [FunctionType::get(result, params, isVarArg)] *)
Record FunctionType : Type := mkFunctionType {
  ft_ret : Ty;
  ft_params : list Ty;
  ft_vararg : bool
}.

(** Operands.  An instruction is named by the number the builder gave it
    when it was created; LLVM's textual names are only hints and are kept
    as such in the instructions. *)
Inductive Value : Type :=
  | ConstantInt (t : Ty) (v : Z)        (* ConstantInt::get(t, v) *)
  | ConstantAggregateZero (t : Ty)      (* ConstantAggregateZero::get(t) *)
  | Inst (id : nat)                     (* the result of instruction [id] *)
  | Func (name : string).               (* FunctionCallee::getCallee() *)

Inductive Instruction : Type :=
  | Alloca (id : nat) (t : Ty) (name : string)
  | Load (id : nat) (t : Ty) (ptr : Value) (name : string)
  | Store (val ptr : Value)
  | GetElementPtr (id : nat) (t : Ty) (ptr : Value) (idx : list Value) (name : string)
  | Add (id : nat) (lhs rhs : Value) (name : string)
  | Sub (id : nat) (lhs rhs : Value) (name : string)
  | ICmpNE (id : nat) (lhs rhs : Value)
  | Trunc (id : nat) (v : Value) (t : Ty)
  | SExt (id : nat) (v : Value) (t : Ty)
  | ZExt (id : nat) (v : Value) (t : Ty)
  | Call (id : nat) (ft : FunctionType) (callee : Value) (args : list Value) (name : string)
  | CondBr (cond : Value) (if_true if_false : nat)
  | Ret (v : option Value).

(** A basic block: its name hint, the function it was created in and its
    instructions in program order.  A block is referred to by its position
    in [bs_blocks]. *)
Record BasicBlock : Type := mkBasicBlock {
  bb_name : string;
  bb_parent : string;
  bb_insts : list Instruction
}.

(** What [NamedValues] stores: the alloca instruction and its allocated type. *)
Record AllocaInst : Type := mkAllocaInst {
  alloca_id : nat;
  alloca_ty : Ty
}.

(** The globals [TheModule], [Builder] and [NamedValues].
    - [bs_functions]: the functions of the module, declared or defined;
    - [bs_blocks]: every basic block created so far, in creation order;
    - [bs_insert]: the builder's insertion block (new instructions go to its
      end), [None] before the first [SetInsertPoint];
    - [bs_next]: the number given to the next instruction;
    - [bs_named]: [NamedValues]; a key that is absent stands for the null
      pointer that [operator[]] would return;
    - [bs_last_unique]: the counter of the module's symbol table, from
      which a name that clashes is made unique. *)
Record BuilderState : Type := mkBuilderState {
  bs_functions : list (string * FunctionType);
  bs_blocks : list BasicBlock;
  bs_insert : option nat;
  bs_next : nat;
  bs_named : gmap string AllocaInst;
  bs_last_unique : nat
}.

(** The state after [llvm_init]: an empty module and a builder without an
    insertion point.  The pass manager set up there runs after code
    generation and is not part of the generator. *)
Definition llvm_init : BuilderState :=
  {| bs_functions := []; bs_blocks := []; bs_insert := None;
     bs_next := O; bs_named := ∅; bs_last_unique := O |}.

(** Code generation reads and updates the globals and dereferences pointers
    that may be null: a state monad with failure. *)
Definition M (A : Type) : Type := BuilderState -> option (A * BuilderState).

Definition ret {A} (a : A) : M A := fun st => Some (a, st).

Definition bind {A B} (m : M A) (k : A -> M B) : M B :=
  fun st => match m st with
            | Some (a, st') => k a st'
            | None => None
            end.

(** Dereferencing a pointer that may be null. *)
Definition deref {A} (p : option A) : M A :=
  fun st => match p with
            | Some a => Some (a, st)
            | None => None
            end.

Declare Scope cg_scope.
Delimit Scope cg_scope with cg.
Notation "'let*' x ':=' m 'in' k" := (bind m (fun x => k))
  (at level 10, x name, m at level 100, k at level 200) : cg_scope.
Notation "m ';;' k" := (bind m (fun _ => k))
  (at level 100, k at level 200, right associativity) : cg_scope.

Local Open Scope cg_scope.

(** [for (auto child: children) child->codegen();] *)
Fixpoint for_each {A} (f : A -> M unit) (l : list A) : M unit :=
  match l with
  | [] => ret tt
  | x :: l' => f x ;; for_each f l'
  end.

(** [NamedValues[key]] *)
Definition NamedValues_at (key : string) : M (option AllocaInst) :=
  fun st => Some (bs_named st !! key, st).

(** [NamedValues[key] = a;] *)
Definition set_named (key : string) (a : AllocaInst) (st : BuilderState) : BuilderState :=
  {| bs_functions := bs_functions st; bs_blocks := bs_blocks st;
     bs_insert := bs_insert st; bs_next := bs_next st;
     bs_named := <[key := a]> (bs_named st);
     bs_last_unique := bs_last_unique st |}.

Definition NamedValues_set (key : string) (a : AllocaInst) : M unit :=
  fun st => Some (tt, set_named key a st).

(** Appending at the insertion point.  Without an insertion point the
    instruction is created but belongs to no block; loads, stores and
    allocas are not created at all then (see [getDataLayout] below). *)
Definition append_inst (i : Instruction) (b : BasicBlock) : BasicBlock :=
  {| bb_name := bb_name b; bb_parent := bb_parent b; bb_insts := bb_insts b ++ [i] |}.

Definition insert_inst (i : Instruction) (st : BuilderState) : BuilderState :=
  {| bs_functions := bs_functions st;
     bs_blocks := match bs_insert st with
                  | Some b => alter (append_inst i) b (bs_blocks st)
                  | None => bs_blocks st
                  end;
     bs_insert := bs_insert st;
     bs_next := S (bs_next st);
     bs_named := bs_named st;
     bs_last_unique := bs_last_unique st |}.

(** An instruction with a result: it takes the next number. *)
Definition emit_value (mk : nat -> Instruction) : M Value :=
  fun st => Some (Inst (bs_next st), insert_inst (mk (bs_next st)) st).

(** An instruction without a result ([store], [br], [ret]). *)
Definition emit_void (i : Instruction) : M unit :=
  fun st => Some (tt, insert_inst i st).

(** [Builder->GetInsertBlock()] *)
Definition GetInsertBlock : M (option nat) :=
  fun st => Some (bs_insert st, st).

(** [block->getParent()] *)
Definition getParent (b : nat) : M string :=
  fun st => match bs_blocks st !! b with
            | Some bb => Some (bb_parent bb, st)
            | None => None
            end.

(** [BB->getModule()->getDataLayout()], [BB] being the insertion block.
    [CreateAlloca], [CreateLoad] and [CreateStore] ask for it, for the
    address space and the alignment they were not given, and so
    dereference the insertion block, which is null before the first
    [SetInsertPoint]. *)
Definition getDataLayout : M unit :=
  let* BB := bind GetInsertBlock deref in
  let* _ := getParent BB in
  ret tt.

Definition CreateAlloca (t : Ty) (name : string) : M AllocaInst :=
  getDataLayout ;;
  fun st => Some ({| alloca_id := bs_next st; alloca_ty := t |},
                  insert_inst (Alloca (bs_next st) t name) st).

Definition CreateLoad (t : Ty) (ptr : Value) (name : string) : M Value :=
  getDataLayout ;;
  emit_value (fun id => Load id t ptr name).

Definition CreateStore (val ptr : Value) : M unit :=
  getDataLayout ;;
  emit_void (Store val ptr).

Definition CreateGEP (t : Ty) (ptr : Value) (idx : list Value) (name : string) : M Value :=
  emit_value (fun id => GetElementPtr id t ptr idx name).

Definition CreateAdd (lhs rhs : Value) (name : string) : M Value :=
  emit_value (fun id => Add id lhs rhs name).

Definition CreateSub (lhs rhs : Value) (name : string) : M Value :=
  emit_value (fun id => Sub id lhs rhs name).

Definition CreateICmpNE (lhs rhs : Value) : M Value :=
  emit_value (fun id => ICmpNE id lhs rhs).

Definition CreateCall (ft : FunctionType) (callee : Value) (args : list Value)
    (name : string) : M Value :=
  emit_value (fun id => Call id ft callee args name).

Definition int_bits (t : Ty) : Z :=
  match t with
  | IntTy b => b
  | _ => 0
  end.

(** [CreateIntCast(V, DestTy, isSigned)]; [src] is [V->getType()].  Equal
    types give [V] back; otherwise the cast is a [trunc] when the source is
    wider, and a [sext] or [zext] when it is narrower. *)
Definition CreateIntCast (src : Ty) (v : Value) (dest : Ty) (isSigned : bool) : M Value :=
  if decide (src = dest) then ret v
  else if int_bits dest <? int_bits src then emit_value (fun id => Trunc id v dest)
  else if isSigned then emit_value (fun id => SExt id v dest)
  else emit_value (fun id => ZExt id v dest).

Definition CreateCondBr (cond : Value) (if_true if_false : nat) : M unit :=
  emit_void (CondBr cond if_true if_false).

Definition CreateRet (v : option Value) : M unit :=
  emit_void (Ret v).

(** A function is added to the module under a name the module does not
    have yet. *)
Definition add_function (name : string) (ft : FunctionType) (st : BuilderState)
    : BuilderState :=
  {| bs_functions := bs_functions st ++ [(name, ft)];
     bs_blocks := bs_blocks st; bs_insert := bs_insert st;
     bs_next := bs_next st; bs_named := bs_named st;
     bs_last_unique := bs_last_unique st |}.

(** The decimal digits of [k]. *)
Definition decimal (k : nat) : string := NilZero.string_of_uint (Nat.to_uint k).

(** [ValueSymbolTable::makeUniqueName] for a global value: the name, a dot
    and the next value of the counter, and again until the module has no
    such name; the result is the name with the value the counter then has.
    [fuel] is the number of names of the module: no more candidates than
    that can be taken. *)
Fixpoint makeUniqueName (fuel : nat) (names : list string) (base : string) (last : nat)
    : string * nat :=
  let candidate := (base +:+ "." +:+ decimal (S last))%string in
  match fuel with
  | O => (candidate, S last)
  | S fuel' =>
      if bool_decide (candidate ∈ names) then makeUniqueName fuel' names base (S last)
      else (candidate, S last)
  end.

(** The name a new function called [name] gets in the module, and the
    counter afterwards. *)
Definition module_name (name : string) (st : BuilderState) : string * nat :=
  let names := fst <$> bs_functions st in
  if bool_decide (name ∈ names)
  then makeUniqueName (length names) names name (bs_last_unique st)
  else (name, bs_last_unique st).

(** [Function::Create(type, ExternalLinkage, name, module)]: the function
    is added to the module whether or not the name is taken; it is the new
    function that is renamed when it is. *)
Definition create_function (name : string) (ft : FunctionType) (st : BuilderState)
    : BuilderState :=
  {| bs_functions := bs_functions st ++ [(fst (module_name name st), ft)];
     bs_blocks := bs_blocks st; bs_insert := bs_insert st;
     bs_next := bs_next st; bs_named := bs_named st;
     bs_last_unique := snd (module_name name st) |}.

Definition Function_Create (ft : FunctionType) (name : string) : M string :=
  fun st => Some (fst (module_name name st), create_function name ft st).

(** [TheModule->getOrInsertFunction(name, type)]: declares the function
    unless the module already has one of that name. *)
Definition declare_function (name : string) (ft : FunctionType) (st : BuilderState)
    : BuilderState :=
  if bool_decide (name ∈ (fst <$> bs_functions st)) then st
  else add_function name ft st.

Definition getOrInsertFunction (name : string) (ft : FunctionType) : M Value :=
  fun st => Some (Func name, declare_function name ft st).

(** [BasicBlock::Create(ctx, name, parent)]: a new empty block at the end
    of the parent function. *)
Definition add_block (name : string) (parent : string) (st : BuilderState)
    : BuilderState :=
  {| bs_functions := bs_functions st;
     bs_blocks := bs_blocks st ++
       [{| bb_name := name; bb_parent := parent; bb_insts := [] |}];
     bs_insert := bs_insert st; bs_next := bs_next st;
     bs_named := bs_named st; bs_last_unique := bs_last_unique st |}.

Definition BasicBlock_Create (name : string) (parent : string) : M nat :=
  fun st => Some (length (bs_blocks st), add_block name parent st).

Definition set_insert (b : nat) (st : BuilderState) : BuilderState :=
  {| bs_functions := bs_functions st; bs_blocks := bs_blocks st;
     bs_insert := Some b; bs_next := bs_next st;
     bs_named := bs_named st; bs_last_unique := bs_last_unique st |}.

Definition SetInsertPoint (b : nat) : M unit :=
  fun st => Some (tt, set_insert b st).

End IR.
Export IR.

(* ===================================================================== *)
(** ** Code generation *)
(* ===================================================================== *)

Module Codegen.

Local Open Scope cg_scope.

Definition get_current_position : M Value :=
  let* position_var := bind (NamedValues_at "position") deref in
  CreateLoad (alloca_ty position_var) (Inst (alloca_id position_var)) "position".

(** The arguments of [CreateGEP] dereference [tape] and call
    [get_current_position()]; the load of the position is emitted before
    the GEP whatever the order in which they are evaluated. *)
Definition get_current_tape_cell_ptr : M Value :=
  let* tape := bind (NamedValues_at "tape") deref in
  (* Get the address of the cell value at the current position *)
  let* position := get_current_position in
  CreateGEP (alloca_ty tape) (Inst (alloca_id tape))
    [ConstantInt Int8Ty 0; position] "tape cell ptr".

Definition get_current_tape_value : M Value :=
  let* ptr := get_current_tape_cell_ptr in
  CreateLoad Int8Ty ptr "".

Definition putchar_type : FunctionType :=
  {| ft_ret := Int32Ty; ft_params := [Int8Ty]; ft_vararg := false |}.

Definition getchar_type : FunctionType :=
  {| ft_ret := Int32Ty; ft_params := []; ft_vararg := false |}.

Definition main_type : FunctionType :=
  {| ft_ret := VoidTy; ft_params := []; ft_vararg := false |}.

Fixpoint codegen (n : Node) : M unit :=
  match n with
  | IncrementNode =>
      (* Load the current value in the cell *)
      let* tape_cell_ptr := get_current_tape_cell_ptr in
      let* tape_cell := CreateLoad Int8Ty tape_cell_ptr "tape cell" in
      (* Increment the value *)
      let to_add := ConstantInt Int8Ty 1 in
      let* new_value := CreateAdd tape_cell to_add "new tape value" in
      (* Write back *)
      CreateStore new_value tape_cell_ptr
  | DecrementNode =>
      let* tape_cell_ptr := get_current_tape_cell_ptr in
      let* tape_cell := CreateLoad Int8Ty tape_cell_ptr "tape cell" in
      let to_sub := ConstantInt Int8Ty 1 in
      let* new_value := CreateSub tape_cell to_sub "new tape value" in
      CreateStore new_value tape_cell_ptr
  | MoveLeftNode =>
      let* var := bind (NamedValues_at "position") deref in
      let to_sub := ConstantInt Int64Ty 1 in
      let* current_value := CreateLoad (alloca_ty var) (Inst (alloca_id var)) "position" in
      let* new_value := CreateSub current_value to_sub "next position" in
      CreateStore new_value (Inst (alloca_id var))
  | MoveRightNode =>
      let* var := bind (NamedValues_at "position") deref in
      let to_add := ConstantInt Int64Ty 1 in
      let* current_value := CreateLoad (alloca_ty var) (Inst (alloca_id var)) "position" in
      let* new_value := CreateAdd current_value to_add "next position" in
      CreateStore new_value (Inst (alloca_id var))
  | PutCharNode =>
      (* declare putchar() function *)
      let* putchar := getOrInsertFunction "putchar" putchar_type in
      (* Read the cell value at the current position *)
      let* tape_cell := get_current_tape_value in
      (* Call putchar *)
      let* _ := CreateCall putchar_type putchar [tape_cell] "putchar()" in
      ret tt
  | GetCharNode =>
      (* declare getchar() function *)
      let* getchar := getOrInsertFunction "getchar" getchar_type in
      (* Call getchar *)
      let* c := CreateCall getchar_type getchar [] "getchar()" in
      (* Truncate the value to an i8, so we can store it in the tape cell *)
      let* truncated_char := CreateIntCast (ft_ret getchar_type) c Int8Ty true in
      let* _ := NamedValues_at "tape" in
      let* tape_cell_ptr := get_current_tape_cell_ptr in
      CreateStore truncated_char tape_cell_ptr
  | ConditionalGroupNode children =>
      let* _ := NamedValues_at "position" in
      let* _ := NamedValues_at "tape" in
      let* base_block := bind GetInsertBlock deref in
      let* TheFunction := getParent base_block in
      (* Entry Condition: check if the current tape cell is zero, if so,
         jump past the end of the group *)
      let* entry_value := get_current_tape_value in
      let* start_condition := CreateICmpNE entry_value (ConstantInt Int8Ty 0) in
      let* group_content := BasicBlock_Create "group content" TheFunction in
      let* merge := BasicBlock_Create "merge" TheFunction in
      CreateCondBr start_condition group_content merge ;;
      (* If the value is not zero, we simply emit all the child IR *)
      SetInsertPoint group_content ;;
      for_each codegen children ;;
      (* At the end of the block, check the current cell again and jump back
         to the start of the group unless it is zero *)
      let* exit_value := get_current_tape_value in
      let* end_condition := CreateICmpNE exit_value (ConstantInt Int8Ty 0) in
      CreateCondBr end_condition group_content merge ;;
      (* The merge block is where the code after the group goes *)
      SetInsertPoint merge
  | ProgramNode children =>
      (* Setup main function *)
      let* main := Function_Create main_type "main" in
      (* Point the builder to the start of the main function *)
      let* main_block := BasicBlock_Create "entry" main in
      SetInsertPoint main_block ;;
      (* Allocate the position of the write head *)
      let* position := CreateAlloca Int64Ty "position" in
      let initial_value := ConstantInt Int64Ty 0 in
      CreateStore initial_value (Inst (alloca_id position)) ;;
      NamedValues_set "position" position ;;
      (* Allocate the tape storage *)
      let tape_type := ArrayTy Int8Ty TAPE_SIZE in
      let* tape := CreateAlloca tape_type "tape" in
      let initial_tape := ConstantAggregateZero tape_type in
      CreateStore initial_tape (Inst (alloca_id tape)) ;;
      NamedValues_set "tape" tape ;;
      (* Emit IR for each child *)
      for_each codegen children ;;
      CreateRet None
  end.

(** [root->codegen()] in [main], on the state [llvm_init] leaves. *)
Definition compile (root : Node) : option BuilderState :=
  snd <$> codegen root llvm_init.

End Codegen.
Export Codegen.

(* ===================================================================== *)
(** ** Executing the emitted IR *)
(* ===================================================================== *)

Module Exec.

(** Run-time values: a [bits]-wide integer kept as its unsigned
    representative in [0, 2^bits), or a pointer into an allocation. *)
Inductive RVal : Type :=
  | RInt (bits : Z) (v : Z)
  | RPtr (blk : nat) (off : Z).

(** Wrap-around to [bits] bits, and the two's-complement reading. *)
Definition wrap (bits : Z) (v : Z) : Z := v mod 2 ^ bits.

Definition signed (bits : Z) (v : Z) : Z :=
  if v <? 2 ^ (bits - 1) then v else v - 2 ^ bits.

(** One allocation: the type of its elements and its cells.  A scalar
    alloca has one cell, an array alloca one cell per element.  A cell is
    [None] until it is first stored to. *)
Record MemBlock : Type := mkMemBlock {
  mb_elt : Ty;
  mb_cells : list (option Z)
}.

(** The calls made to the two C library functions, oldest first. *)
Inductive Event : Type :=
  | EvGetchar (result : Z)      (* getchar() returned [result], an i32 *)
  | EvPutchar (arg : Z).        (* putchar(arg), [arg] an i8 *)

(** The state of the running [main]:
    - [m_regs]: the value of every instruction executed so far;
    - [m_mem]: the allocations, in the order the allocas ran;
    - [m_input]: what the coming [getchar()] calls return, as C ints; once
      it is used up [getchar()] returns EOF (-1);
    - [m_trace]: the library calls made so far;
    - [m_block], [m_pc]: the next instruction. *)
Record Machine : Type := mkMachine {
  m_regs : gmap nat RVal;
  m_mem : list MemBlock;
  m_input : list Z;
  m_trace : list Event;
  m_block : nat;
  m_pc : nat
}.

Inductive Fault : Type :=
  | OutOfBounds          (* an access outside its allocation *)
  | UndefinedLoad        (* a load of a cell never stored to *)
  | IllFormed.           (* ill-typed operands, a missing terminator, ... *)

Inductive Outcome : Type :=
  | Running (m : Machine)
  | Returned (m : Machine)
  | Faulted (f : Fault).

Definition eval (m : Machine) (v : Value) : option RVal :=
  match v with
  | ConstantInt (IntTy b) z => Some (RInt b (wrap b z))
  | Inst id => m_regs m !! id
  | _ => None
  end.

(** Continue with the next instruction, [r] being the result of this one. *)
Definition next_with (m : Machine) (id : nat) (r : RVal) : Machine :=
  {| m_regs := <[id := r]> (m_regs m); m_mem := m_mem m; m_input := m_input m;
     m_trace := m_trace m; m_block := m_block m; m_pc := S (m_pc m) |}.

Definition next_mem (m : Machine) (mem : list MemBlock) : Machine :=
  {| m_regs := m_regs m; m_mem := mem; m_input := m_input m;
     m_trace := m_trace m; m_block := m_block m; m_pc := S (m_pc m) |}.

Definition jump (m : Machine) (b : nat) : Machine :=
  {| m_regs := m_regs m; m_mem := m_mem m; m_input := m_input m;
     m_trace := m_trace m; m_block := b; m_pc := O |}.

(** The cells a fresh alloca of type [t] has. *)
Definition alloca_block (t : Ty) : MemBlock :=
  match t with
  | ArrayTy elt n => {| mb_elt := elt; mb_cells := replicate (Z.to_nat n) None |}
  | _ => {| mb_elt := t; mb_cells := [None] |}
  end.

(** Is [off] the index of a cell of the allocation? *)
Definition in_bounds (off : Z) (blk : MemBlock) : bool :=
  (0 <=? off) && (off <? Z.of_nat (length (mb_cells blk))).

Definition load (m : Machine) (id : nat) (t : Ty) (ptr : Value) : Outcome :=
  match eval m ptr with
  | Some (RPtr b off) =>
      match m_mem m !! b with
      | Some blk =>
          if negb (in_bounds off blk) then Faulted OutOfBounds
          else if negb (bool_decide (mb_elt blk = t)) then Faulted IllFormed
          else match mb_cells blk !! Z.to_nat off with
               | Some (Some v) => Running (next_with m id (RInt (int_bits t) v))
               | _ => Faulted UndefinedLoad
               end
      | None => Faulted IllFormed
      end
  | _ => Faulted IllFormed
  end.

Definition set_cells (blk : MemBlock) (cells : list (option Z)) : MemBlock :=
  {| mb_elt := mb_elt blk; mb_cells := cells |}.

Definition store (m : Machine) (val ptr : Value) : Outcome :=
  match eval m ptr with
  | Some (RPtr b off) =>
      match m_mem m !! b with
      | Some blk =>
          match val with
          | ConstantAggregateZero (ArrayTy elt n) =>
              (* the whole array at once *)
              if negb ((off =? 0) && (Z.of_nat (length (mb_cells blk)) =? n))
              then Faulted OutOfBounds
              else if negb (bool_decide (mb_elt blk = elt)) then Faulted IllFormed
              else Running (next_mem m
                     (<[b := set_cells blk (replicate (Z.to_nat n) (Some 0))]> (m_mem m)))
          | _ =>
              match eval m val with
              | Some (RInt w v) =>
                  if negb (in_bounds off blk) then Faulted OutOfBounds
                  else if negb (bool_decide (mb_elt blk = IntTy w)) then Faulted IllFormed
                  else Running (next_mem m
                         (<[b := set_cells blk (<[Z.to_nat off := Some v]> (mb_cells blk))]>
                            (m_mem m)))
              | _ => Faulted IllFormed
              end
          end
      | None => Faulted IllFormed
      end
  | _ => Faulted IllFormed
  end.

(** [getelementptr [n x elt], ptr, i0, i1]: the address of element
    [i0 * n + i1], the indices read as signed.  No [inbounds]: the address
    is computed whatever the index is. *)
Definition gep (m : Machine) (id : nat) (t : Ty) (ptr : Value) (idx : list Value) : Outcome :=
  match t, eval m ptr, idx with
  | ArrayTy _ n, Some (RPtr b off), [i0; i1] =>
      match eval m i0, eval m i1 with
      | Some (RInt w0 v0), Some (RInt w1 v1) =>
          Running (next_with m id (RPtr b (off + signed w0 v0 * n + signed w1 v1)))
      | _, _ => Faulted IllFormed
      end
  | _, _, _ => Faulted IllFormed
  end.

Definition binop (f : Z -> Z -> Z) (m : Machine) (id : nat) (lhs rhs : Value) : Outcome :=
  match eval m lhs, eval m rhs with
  | Some (RInt w a), Some (RInt w' b) =>
      if bool_decide (w = w') then Running (next_with m id (RInt w (wrap w (f a b))))
      else Faulted IllFormed
  | _, _ => Faulted IllFormed
  end.

Definition icmp_ne (m : Machine) (id : nat) (lhs rhs : Value) : Outcome :=
  match eval m lhs, eval m rhs with
  | Some (RInt w a), Some (RInt w' b) =>
      if bool_decide (w = w')
      then Running (next_with m id (RInt 1 (if bool_decide (a = b) then 0 else 1)))
      else Faulted IllFormed
  | _, _ => Faulted IllFormed
  end.

Definition cast (conv : Z -> Z -> Z) (m : Machine) (id : nat) (v : Value) (t : Ty) : Outcome :=
  match eval m v with
  | Some (RInt w a) => Running (next_with m id (RInt (int_bits t) (wrap (int_bits t) (conv w a))))
  | _ => Faulted IllFormed
  end.

(** What [getchar()] returns, as an i32: the next character of the input,
    EOF (-1) once it is used up. *)
Definition getchar_result (input : list Z) : Z :=
  wrap 32 (match input with [] => -1 | c :: _ => c end).

(** The C library's [getchar] and [putchar].  [putchar] returns the
    character written. *)
Definition call (m : Machine) (id : nat) (callee : Value) (args : list Value) : Outcome :=
  match callee, args with
  | Func "getchar", [] =>
      let r := getchar_result (m_input m) in
      Running {| m_regs := <[id := RInt 32 r]> (m_regs m); m_mem := m_mem m;
                 m_input := tail (m_input m);
                 m_trace := m_trace m ++ [EvGetchar r];
                 m_block := m_block m; m_pc := S (m_pc m) |}
  | Func "putchar", [a] =>
      match eval m a with
      | Some (RInt 8 v) =>
          Running {| m_regs := <[id := RInt 32 v]> (m_regs m); m_mem := m_mem m;
                     m_input := m_input m;
                     m_trace := m_trace m ++ [EvPutchar v];
                     m_block := m_block m; m_pc := S (m_pc m) |}
      | _ => Faulted IllFormed
      end
  | _, _ => Faulted IllFormed
  end.

Definition exec (i : Instruction) (m : Machine) : Outcome :=
  match i with
  | Alloca id t _ =>
      Running {| m_regs := <[id := RPtr (length (m_mem m)) 0]> (m_regs m);
                 m_mem := m_mem m ++ [alloca_block t];
                 m_input := m_input m; m_trace := m_trace m;
                 m_block := m_block m; m_pc := S (m_pc m) |}
  | Load id t ptr _ => load m id t ptr
  | Store val ptr => store m val ptr
  | GetElementPtr id t ptr idx _ => gep m id t ptr idx
  | Add id lhs rhs _ => binop Z.add m id lhs rhs
  | Sub id lhs rhs _ => binop Z.sub m id lhs rhs
  | ICmpNE id lhs rhs => icmp_ne m id lhs rhs
  | Trunc id v t => cast (fun _ a => a) m id v t
  | SExt id v t => cast signed m id v t
  | ZExt id v t => cast (fun _ a => a) m id v t
  | Call id _ callee args _ => call m id callee args
  | CondBr cond if_true if_false =>
      match eval m cond with
      | Some (RInt 1 c) => Running (jump m (if bool_decide (c = 0) then if_false else if_true))
      | _ => Faulted IllFormed
      end
  | Ret _ => Returned m
  end.

(** The instruction the machine is at. *)
Definition fetch (blocks : list BasicBlock) (m : Machine) : option Instruction :=
  match blocks !! m_block m with
  | Some bb => bb_insts bb !! m_pc m
  | None => None
  end.

Definition step (blocks : list BasicBlock) (m : Machine) : Outcome :=
  match fetch blocks m with
  | Some i => exec i m
  | None => Faulted IllFormed
  end.

(** At most [fuel] steps; [Running] when they are used up. *)
Fixpoint run (blocks : list BasicBlock) (fuel : nat) (m : Machine) : Outcome :=
  match fuel with
  | O => Running m
  | S fuel' =>
      match step blocks m with
      | Running m' => run blocks fuel' m'
      | o => o
      end
  end.

(** Entering [main]: nothing allocated, at the first instruction of the
    entry block (the first block created). *)
Definition start (input : list Z) : Machine :=
  {| m_regs := ∅; m_mem := []; m_input := input; m_trace := [];
     m_block := O; m_pc := O |}.

(** Compile [root] and run the result on [input]. *)
Definition execute (root : Node) (input : list Z) (fuel : nat) : option Outcome :=
  match compile root with
  | Some st => Some (run (bs_blocks st) fuel (start input))
  | None => None
  end.

(** What is seen of a run that has returned: the library calls. *)
Definition returned_trace (o : option Outcome) : option (list Event) :=
  match o with
  | Some (Returned m) => Some (m_trace m)
  | _ => None
  end.

End Exec.
Export Exec.

(* ===================================================================== *)
(** ** Notions used to state the properties *)
(* ===================================================================== *)

Module Props.

(** The eight characters the [switch] of [Node::try_parse] has a case for. *)
Definition is_command (c : ascii) : bool :=
  ((c =? "+") || (c =? "-") || (c =? "<") || (c =? ">") ||
   (c =? ".") || (c =? ",") || (c =? "[") || (c =? "]"))%char.

(** [inserted s s']: [s'] is [s] with characters outside [+-<>.,[]]
    inserted at some positions. *)
Inductive inserted : stream -> stream -> Prop :=
  | inserted_nil : inserted [] []
  | inserted_keep c s s' : inserted s s' -> inserted (c :: s) (c :: s')
  | inserted_filler c s s' : is_command c = false -> inserted s s' -> inserted s (c :: s').

(** The nodes that stand for instructions: everything but [ProgramNode],
    at every depth.  These are the nodes the parser puts below the root. *)
Fixpoint instruction (n : Node) : bool :=
  match n with
  | ConditionalGroupNode children => forallb instruction children
  | ProgramNode _ => false
  | _ => true
  end.

Definition instructions (l : list Node) : bool := forallb instruction l.

(** *** The builder state as code generation needs it *)

(** The part of [ProgramNode::codegen] that comes before the loop over the
    children: [main], its entry block, and the two allocas with their
    initial stores. *)
Definition program_prologue : M unit :=
  (let* main := Function_Create main_type "main" in
   let* main_block := BasicBlock_Create "entry" main in
   SetInsertPoint main_block ;;
   let* position := CreateAlloca Int64Ty "position" in
   CreateStore (ConstantInt Int64Ty 0) (Inst (alloca_id position)) ;;
   NamedValues_set "position" position ;;
   let* tape := CreateAlloca (ArrayTy Int8Ty TAPE_SIZE) "tape" in
   CreateStore (ConstantAggregateZero (ArrayTy Int8Ty TAPE_SIZE)) (Inst (alloca_id tape)) ;;
   NamedValues_set "tape" tape)%cg.

(** A node's [codegen] can run: the builder has a valid insertion block
    and [NamedValues] knows the two allocas. *)
Definition ready (st : BuilderState) : bool :=
  match bs_insert st with
  | Some b => bool_decide (is_Some (bs_blocks st !! b))
  | None => false
  end
  && bool_decide (is_Some (bs_named st !! "position"))
  && bool_decide (is_Some (bs_named st !! "tape")).

(** The builder has an insertion block: what [CreateAlloca], [CreateLoad]
    and [CreateStore] need. *)
Definition has_block (st : BuilderState) : bool :=
  match bs_insert st with
  | Some b => bool_decide (is_Some (bs_blocks st !! b))
  | None => false
  end.

(** Several instructions appended at the insertion point, one after the other. *)
Definition insert_insts (code : list Instruction) (st : BuilderState) : BuilderState :=
  fold_left (fun s i => insert_inst i s) code st.

(** The block [bb] with [code] added at its end. *)
Definition append_insts (code : list Instruction) (bb : BasicBlock) : BasicBlock :=
  {| bb_name := bb_name bb; bb_parent := bb_parent bb; bb_insts := bb_insts bb ++ code |}.

(** [frame st st']: going from [st] to [st'], blocks were only added, only
    the insertion block of [st] got longer (at its end), the insertion
    point stayed or moved to a block that did not exist in [st], and
    functions were only added to the module. *)
Definition frame (st st' : BuilderState) : Prop :=
  (length (bs_blocks st) <= length (bs_blocks st'))%nat /\
  (bs_next st <= bs_next st')%nat /\
  (forall j bb, bs_blocks st !! j = Some bb ->
     exists code,
       bs_blocks st' !! j = Some (append_insts code bb) /\
       (bs_insert st <> Some j -> code = [])) /\
  (bs_insert st' = bs_insert st \/
   exists i, bs_insert st' = Some i /\ (length (bs_blocks st) <= i)%nat) /\
  bs_functions st `prefix_of` bs_functions st'.

(** Every instruction of [B] is at the same place in [B']. *)
Definition extends (B B' : list BasicBlock) : Prop :=
  forall j bb, B !! j = Some bb ->
    exists bb', B' !! j = Some bb' /\ bb_insts bb `prefix_of` bb_insts bb'.

(** *** The instruction sequences of the generator, numbered from [k] *)

(** [get_current_tape_cell_ptr] *)
Definition cell_ptr_code (k : nat) (pa ta : AllocaInst) : list Instruction :=
  [Load k (alloca_ty pa) (Inst (alloca_id pa)) "position";
   GetElementPtr (1 + k) (alloca_ty ta) (Inst (alloca_id ta))
     [ConstantInt Int8Ty 0; Inst k] "tape cell ptr"].

(** [CreateICmpNE(get_current_tape_value(), 0)]: the test of both ends of a group *)
Definition cell_test_code (k : nat) (pa ta : AllocaInst) : list Instruction :=
  cell_ptr_code k pa ta ++
  [Load (2 + k) Int8Ty (Inst (1 + k)) "";
   ICmpNE (3 + k) (Inst (2 + k)) (ConstantInt Int8Ty 0)].

Definition increment_code (k : nat) (pa ta : AllocaInst) : list Instruction :=
  cell_ptr_code k pa ta ++
  [Load (2 + k) Int8Ty (Inst (1 + k)) "tape cell";
   Add (3 + k) (Inst (2 + k)) (ConstantInt Int8Ty 1) "new tape value";
   Store (Inst (3 + k)) (Inst (1 + k))].

Definition decrement_code (k : nat) (pa ta : AllocaInst) : list Instruction :=
  cell_ptr_code k pa ta ++
  [Load (2 + k) Int8Ty (Inst (1 + k)) "tape cell";
   Sub (3 + k) (Inst (2 + k)) (ConstantInt Int8Ty 1) "new tape value";
   Store (Inst (3 + k)) (Inst (1 + k))].

Definition move_left_code (k : nat) (pa : AllocaInst) : list Instruction :=
  [Load k (alloca_ty pa) (Inst (alloca_id pa)) "position";
   Sub (1 + k) (Inst k) (ConstantInt Int64Ty 1) "next position";
   Store (Inst (1 + k)) (Inst (alloca_id pa))].

Definition move_right_code (k : nat) (pa : AllocaInst) : list Instruction :=
  [Load k (alloca_ty pa) (Inst (alloca_id pa)) "position";
   Add (1 + k) (Inst k) (ConstantInt Int64Ty 1) "next position";
   Store (Inst (1 + k)) (Inst (alloca_id pa))].

Definition putchar_code (k : nat) (pa ta : AllocaInst) : list Instruction :=
  cell_ptr_code k pa ta ++
  [Load (2 + k) Int8Ty (Inst (1 + k)) "";
   Call (3 + k) putchar_type (Func "putchar") [Inst (2 + k)] "putchar()"].

Definition getchar_code (k : nat) (pa ta : AllocaInst) : list Instruction :=
  [Call k getchar_type (Func "getchar") [] "getchar()";
   Trunc (1 + k) (Inst k) Int8Ty] ++
  cell_ptr_code (2 + k) pa ta ++
  [Store (Inst (1 + k)) (Inst (3 + k))].

Definition prologue_code : list Instruction :=
  [Alloca 0 Int64Ty "position";
   Store (ConstantInt Int64Ty 0) (Inst 0%nat);
   Alloca 2 (ArrayTy Int8Ty TAPE_SIZE) "tape";
   Store (ConstantAggregateZero (ArrayTy Int8Ty TAPE_SIZE)) (Inst 2%nat)].

(** The state in which the children of a group are compiled: the test of
    the current cell at the end of the insertion block [bb], two new blocks,
    the branch on the test, and the insertion point at the first of the two. *)
Definition group_body_state (st : BuilderState) (bb : BasicBlock) (pa ta : AllocaInst)
    : BuilderState :=
  let k := bs_next st in
  let group_content := length (bs_blocks st) in
  let merge := S group_content in
  set_insert group_content
    (insert_inst (CondBr (Inst (3 + k)) group_content merge)
       (add_block "merge" (bb_parent bb)
          (add_block "group content" (bb_parent bb)
             (insert_insts (cell_test_code k pa ta) st)))).

(** The state a group leaves, [st] being the state it started in and
    [st_c] the state after its children: the test again, the branch back to
    the first new block or on to the second, and the insertion point at
    the second. *)
Definition group_exit_state (st st_c : BuilderState) (pa ta : AllocaInst) : BuilderState :=
  let k := bs_next st_c in
  let group_content := length (bs_blocks st) in
  let merge := S group_content in
  set_insert merge
    (insert_inst (CondBr (Inst (3 + k)) group_content merge)
       (insert_insts (cell_test_code k pa ta) st_c)).

(** The state in which the children of the root are compiled. *)
Definition program_entry_state (st : BuilderState) : BuilderState :=
  let k := bs_next st in
  let position := {| alloca_id := k; alloca_ty := Int64Ty |} in
  let tape := {| alloca_id := 2 + k; alloca_ty := ArrayTy Int8Ty TAPE_SIZE |} in
  set_named "tape" tape
    (insert_insts [Alloca (2 + k) (ArrayTy Int8Ty TAPE_SIZE) "tape";
                   Store (ConstantAggregateZero (ArrayTy Int8Ty TAPE_SIZE)) (Inst (2 + k))]
       (set_named "position" position
          (insert_insts [Alloca k Int64Ty "position";
                         Store (ConstantInt Int64Ty 0) (Inst k)]
             (set_insert (length (bs_blocks st))
                (add_block "entry" (fst (module_name "main" st))
                   (create_function "main" main_type st)))))).

(** *** The running program as the generated code sees it *)

Definition is_terminator (i : Instruction) : bool :=
  match i with
  | CondBr _ _ _ | Ret _ => true
  | _ => false
  end.

Definition straight (code : list Instruction) : bool :=
  forallb (fun i => negb (is_terminator i)) code.

(** Executing a sequence of instructions one after the other. *)
Fixpoint exec_seq (code : list Instruction) (m : Machine) : Outcome :=
  match code with
  | [] => Running m
  | i :: code' =>
      match exec i m with
      | Running m' => exec_seq code' m'
      | o => o
      end
  end.

(** The machine is about to execute what the builder emits next: it stands
    at the end of the insertion block. *)
Definition at_cursor (st : BuilderState) (m : Machine) : bool :=
  match bs_insert st with
  | Some b =>
      match bs_blocks st !! b with
      | Some bb => bool_decide (m_block m = b /\ m_pc m = length (bb_insts bb))
      | None => false
      end
  | None => false
  end.

(** The pointer (read as a signed 64-bit integer) and the cells of the tape,
    found through [NamedValues]: the allocas are those of the prologue,
    their results are the addresses of two allocations of the machine, and
    these hold an i64 and [TAPE_SIZE] i8 cells. *)
Definition view (st : BuilderState) (m : Machine) : option (Z * list (option Z)) :=
  match bs_named st !! "position", bs_named st !! "tape" with
  | Some pa, Some ta =>
      match m_regs m !! alloca_id pa, m_regs m !! alloca_id ta with
      | Some (RPtr bp op), Some (RPtr bt ot) =>
          match m_mem m !! bp, m_mem m !! bt with
          | Some pblk, Some tblk =>
              match mb_cells pblk with
              | [Some v] =>
                  if bool_decide
                       (alloca_ty pa = Int64Ty /\ alloca_ty ta = ArrayTy Int8Ty TAPE_SIZE /\
                        (alloca_id pa < bs_next st)%nat /\ (alloca_id ta < bs_next st)%nat /\
                        op = 0 /\ ot = 0 /\
                        mb_elt pblk = Int64Ty /\ mb_elt tblk = Int8Ty /\
                        0 <= v < 2 ^ 64 /\
                        Z.of_nat (length (mb_cells tblk)) = TAPE_SIZE)
                  then Some (signed 64 v, mb_cells tblk)
                  else None
              | _ => None
              end
          | _, _ => None
          end
      | _, _ => None
      end
  | _, _ => None
  end.

(** [node_runs n st m steps st' m']: the node compiles in [st] to [st'],
    and the machine [m], which stands where the new code begins, runs it in
    [steps] steps and stands at its end in [m']. *)
Definition node_runs (n : Node) (st : BuilderState) (m : Machine) (steps : nat)
    (st' : BuilderState) (m' : Machine) : Prop :=
  codegen n st = Some (tt, st') /\ run (bs_blocks st') steps m = Running m' /\
  at_cursor st' m' = true.

(** The nodes whose code reads or writes the current cell. *)
Definition accesses_cell (n : Node) : bool :=
  match n with
  | IncrementNode | DecrementNode | PutCharNode | GetCharNode
  | ConditionalGroupNode _ => true
  | MoveLeftNode | MoveRightNode | ProgramNode _ => false
  end.

(** The cell under the pointer. *)
Definition cell_at (p : Z) (cells : list (option Z)) : option Z :=
  if 0 <=? p then mjoin (cells !! Z.to_nat p) else None.

(** The state in which the first child of the root is compiled, and the
    machine that has just executed the prologue. *)
Definition entry_state : BuilderState :=
  {| bs_functions := [("main", main_type)];
     bs_blocks := [{| bb_name := "entry"; bb_parent := "main"; bb_insts := prologue_code |}];
     bs_insert := Some O;
     bs_next := 4;
     bs_named := <["tape" := {| alloca_id := 2; alloca_ty := ArrayTy Int8Ty TAPE_SIZE |}]>
                 (<["position" := {| alloca_id := 0; alloca_ty := Int64Ty |}]> ∅);
     bs_last_unique := O |}.

Definition entry_machine (input : list Z) : Machine :=
  {| m_regs := <[2%nat := RPtr 1 0]> (<[0%nat := RPtr 0 0]> ∅);
     m_mem := [{| mb_elt := Int64Ty; mb_cells := [Some 0] |};
               {| mb_elt := Int8Ty; mb_cells := replicate (Z.to_nat TAPE_SIZE) (Some 0) |}];
     m_input := input; m_trace := [];
     m_block := O; m_pc := 4 |}.

(** *** Compiling one node after the other *)

(** The six nodes without children. *)
Definition is_leaf (n : Node) : bool :=
  match n with
  | ConditionalGroupNode _ | ProgramNode _ => false
  | _ => true
  end.

(** What a leaf declares in the module and what it emits, numbered from [k]. *)
Definition leaf_decl (n : Node) (st : BuilderState) : BuilderState :=
  match n with
  | PutCharNode => declare_function "putchar" putchar_type st
  | GetCharNode => declare_function "getchar" getchar_type st
  | _ => st
  end.

Definition leaf_code (n : Node) (k : nat) (pa ta : AllocaInst) : list Instruction :=
  match n with
  | IncrementNode => increment_code k pa ta
  | DecrementNode => decrement_code k pa ta
  | MoveLeftNode => move_left_code k pa
  | MoveRightNode => move_right_code k pa
  | PutCharNode => putchar_code k pa ta
  | GetCharNode => getchar_code k pa ta
  | _ => []
  end.

(** The code of a list of leaves, numbered from [k]. *)
Fixpoint leaves_code (l : list Node) (k : nat) (pa ta : AllocaInst) : list Instruction :=
  match l with
  | [] => []
  | n :: l' =>
      leaf_code n k pa ta ++ leaves_code l' (length (leaf_code n k pa ta) + k) pa ta
  end.

(** [compiled_in_order l st st']: the nodes of [l] are compiled one after
    the other, the first in the state [st], each next one in the state the
    one before it left, and the last one leaves [st']. *)
Inductive compiled_in_order : list Node -> BuilderState -> BuilderState -> Prop :=
  | compiled_nil st : compiled_in_order [] st st
  | compiled_cons n l st st1 st2 :
      codegen n st = Some (tt, st1) -> compiled_in_order l st1 st2 ->
      compiled_in_order (n :: l) st st2.

(** The number of blocks the code of a node creates: two for a group, one
    for a root, and those of the nodes inside. *)
Fixpoint blocks_of (n : Node) : nat :=
  match n with
  | ConditionalGroupNode children => 2 + list_sum (map blocks_of children)
  | ProgramNode children => 1 + list_sum (map blocks_of children)
  | _ => 0
  end.

(** *** The lowering of a group *)

(** Both tests of a group behave the same: from the machine [m] standing at
    the test, five steps lead to the first instruction of [merge] when the
    current cell [c] is zero and to the first instruction of [group_content]
    when it is not; memory, input and output are as before. *)
Definition test_branches (st' : BuilderState) (m : Machine) (c : Z)
    (group_content merge : nat) : Prop :=
  exists m',
    run (bs_blocks st') 5 m = Running m' /\
    m_block m' = (if bool_decide (c = 0) then merge else group_content) /\
    m_pc m' = O /\
    m_mem m' = m_mem m /\ m_trace m' = m_trace m /\ m_input m' = m_input m.

(** What [codegen] does for a group with the given children, started in
    the state [st] whose insertion block is [b], with contents [bb]. *)
Definition group_lowered (children : list Node) (st : BuilderState) (b : nat)
    (bb : BasicBlock) (pa ta : AllocaInst) : Prop :=
  let group_content := length (bs_blocks st) in
  let merge := S (length (bs_blocks st)) in
  let st_b := group_body_state st bb pa ta in
  exists st_c st' pa' ta' last bbl,
    codegen (ConditionalGroupNode children) st = Some (tt, st') /\
    (* the entry test, at the end of the block the builder was in *)
    bs_blocks st' !! b =
      Some (append_insts
              (cell_test_code (bs_next st) pa ta ++
               [CondBr (Inst (3 + bs_next st)) group_content merge]) bb) /\
    (* the blocks of the result: those there were, two for the group, and
       those of the groups inside it *)
    length (bs_blocks st') =
      (length (bs_blocks st) + 2 + list_sum (map blocks_of children))%nat /\
    (* the body: every child, one after the other, from the start of a
       new block *)
    bs_insert st_b = Some group_content /\
    bs_blocks st_b !! group_content =
      Some {| bb_name := "group content"; bb_parent := bb_parent bb; bb_insts := [] |} /\
    compiled_in_order children st_b st_c /\
    (* what they emitted stays where it is *)
    extends (bs_blocks st_c) (bs_blocks st') /\
    (* so that a body without groups is one block: the code of the
       children in their order, then the test and the branch *)
    (forallb is_leaf children = true ->
     let body := leaves_code children (5 + bs_next st) pa ta in
     let k := (length body + (5 + bs_next st))%nat in
     bs_blocks st' !! group_content =
       Some {| bb_name := "group content"; bb_parent := bb_parent bb;
               bb_insts :=
                 body ++ cell_test_code k pa ta ++
                 [CondBr (Inst (3 + k)) group_content merge] |}) /\
    (* then the test again, where the children left the builder *)
    bs_insert st_c = Some last /\ bs_blocks st_c !! last = Some bbl /\
    bs_named st_c !! "position" = Some pa' /\ bs_named st_c !! "tape" = Some ta' /\
    (instructions children = true -> pa' = pa /\ ta' = ta) /\
    bs_blocks st' !! last =
      Some (append_insts
              (cell_test_code (bs_next st_c) pa' ta' ++
               [CondBr (Inst (3 + bs_next st_c)) group_content merge]) bbl) /\
    (* the merge block: empty, and the new insertion point *)
    bs_blocks st' !! merge =
      Some {| bb_name := "merge"; bb_parent := bb_parent bb; bb_insts := [] |} /\
    bs_insert st' = Some merge /\
    (* what the two tests do *)
    (forall m p cells c,
       view st m = Some (p, cells) -> at_cursor st m = true -> cell_at p cells = Some c ->
       test_branches st' m c group_content merge) /\
    (forall m p cells c,
       view st_c m = Some (p, cells) -> at_cursor st_c m = true -> cell_at p cells = Some c ->
       test_branches st' m c group_content merge).

(** The tape of a program that has just started. *)
Definition blank_tape : list (option Z) := replicate (Z.to_nat TAPE_SIZE) (Some 0).

(** *** Notions used in the proofs *)

(** What is shown of [codegen] by induction on the node: in a state that
    is ready it succeeds, only appends, leaves the state ready, and (for
    an instruction) leaves [NamedValues] alone. *)
Definition codegen_spec (n : Node) : Prop :=
  forall st, ready st = true ->
    exists st', codegen n st = Some (tt, st') /\ frame st st' /\ ready st' = true /\
                (instruction n = true -> bs_named st' = bs_named st).

(** [st0] is [st] up to the functions declared in the module. *)
Definition same_code (st st0 : BuilderState) : Prop :=
  bs_blocks st0 = bs_blocks st /\ bs_insert st0 = bs_insert st /\
  bs_named st0 = bs_named st /\ bs_next st0 = bs_next st.

(** [linked m pa ta bp bt v cells]: the results of the allocas [pa] and [ta]
    are the addresses of the allocations [bp] and [bt], which hold the i64
    [v] and the i8 cells [cells]. *)
Record linked (m : Machine) (pa ta : AllocaInst) (bp bt : nat) (v : Z)
    (cells : list (option Z)) : Prop := mkLinked {
  linked_pty : alloca_ty pa = Int64Ty;
  linked_tty : alloca_ty ta = ArrayTy Int8Ty TAPE_SIZE;
  linked_preg : m_regs m !! alloca_id pa = Some (RPtr bp 0);
  linked_treg : m_regs m !! alloca_id ta = Some (RPtr bt 0);
  linked_pmem : m_mem m !! bp = Some {| mb_elt := Int64Ty; mb_cells := [Some v] |};
  linked_tmem : m_mem m !! bt = Some {| mb_elt := Int8Ty; mb_cells := cells |};
  linked_range : 0 <= v < 2 ^ 64;
  linked_length : Z.of_nat (length cells) = TAPE_SIZE
}.

(** The machine after [get_current_tape_cell_ptr], numbered from [k]: the
    pointer [v] in [k], the address of the current cell in [1 + k]. *)
Definition with_cell_ptr (m : Machine) (bt : nat) (v : Z) (k : nat) : Machine :=
  next_with (next_with m k (RInt 64 v)) (1 + k) (RPtr bt (signed 64 v)).

(** And after the load of the current cell, which holds [c]. *)
Definition with_cell (m : Machine) (bt : nat) (v : Z) (k : nat) (c : Z) : Machine :=
  next_with (with_cell_ptr m bt v k) (2 + k) (RInt 8 c).

End Props.
Export Props.

(* ===================================================================== *)
(** ** Brackets in the source text *)
(* ===================================================================== *)

Module Brackets.

(** Reading [s] with [d] groups open: the number of groups open at its
    end, or [None] when a closing bracket comes with no group open. *)
Fixpoint open_groups (d : nat) (s : stream) : option nat :=
  match s with
  | [] => Some d
  | c :: s' =>
      if (c =? "[")%char then open_groups (S d) s'
      else if (c =? "]")%char then
        match d with
        | O => None
        | S d' => open_groups d' s'
        end
      else open_groups d s'
  end.

(** Where a scope ends that was entered at the start of [s]: at the end
    of the stream, whatever is still open, or right after the first
    closing bracket that closes none of the groups opened in [s]. *)
Definition scope_ends (s rest : stream) : Prop :=
  (rest = [] /\ is_Some (open_groups 0 s)) \/
  (exists pre, s = pre ++ "]"%char :: rest /\ open_groups 0 pre = Some O).

(** Characters that are neither bracket leave the count alone. *)
Definition neutral (q : stream) : Prop := forall d, open_groups d q = Some d.

End Brackets.
Export Brackets.

(* ===================================================================== *)
(** ** The driver, and the shape of a finished module *)
(* ===================================================================== *)

Module Driver.

(** How [main] ends.  The passes of [TheFPM] and the printing of the module
    belong to LLVM and come after everything modelled here: [Emitted st]
    stands for the run that hands the module [st] to them and returns 0. *)
Inductive MainResult : Type :=
  | Exit (code : Z) (message : string)   (* the message on [std::cout], then [return code] *)
  | NullDereference                      (* a [codegen] method used a null pointer *)
  | Emitted (st : BuilderState).

(** [main], given the contents of [program.bf], or [None] when the file
    cannot be opened. *)
Definition main (file : option stream) : MainResult :=
  match file with
  | None => Exit (-1) "Failed to open input file"
  | Some in_ =>
      (* build the AST *)
      match parse in_ with
      | None => Exit (-1) "Failed to parse AST"
      | Some root =>
          (* Setup LLVM data structures, emit LLVM IR code *)
          match compile root with
          | None => NullDereference
          | Some st =>
              (* TheModule->getFunction("main") *)
              if bool_decide ("main" ∈ (fst <$> bs_functions st)) then Emitted st
              else Exit (-1) "main() was not defined"
          end
      end
  end.

End Driver.
Export Driver.

Module Shape.

(** A block as the verifier wants it: one terminator, at the end. *)
Fixpoint terminated (l : list Instruction) : bool :=
  match l with
  | [] => false
  | i :: l' =>
      match l' with
      | [] => is_terminator i
      | _ => negb (is_terminator i) && terminated l'
      end
  end.

(** The targets of a branch are blocks of the module ([n] is their number). *)
Definition targets_ok (n : nat) (i : Instruction) : bool :=
  match i with
  | CondBr _ if_true if_false => (if_true <? n)%nat && (if_false <? n)%nat
  | _ => true
  end.

Definition block_wf (n : nat) (fn : string) (bb : BasicBlock) : bool :=
  terminated (bb_insts bb) && forallb (targets_ok n) (bb_insts bb)
  && bool_decide (bb_parent bb = fn).

(** Every block of the module belongs to [main], ends with its only
    terminator, and branches to blocks that exist. *)
Definition module_wf (st : BuilderState) : bool :=
  forallb (block_wf (length (bs_blocks st)) "main") (bs_blocks st).

(** What holds of the blocks while code is generated: [b] is the insertion
    block and [pend] the merge blocks of the groups being compiled.  These
    are still without a terminator; every other block has its own. *)
Definition block_inv (st : BuilderState) (pend : list nat) (fn : string) : Prop :=
  exists b,
    bs_insert st = Some b /\ (b ∉ pend) /\ NoDup pend /\
    (forall j, j ∈ pend -> (j < length (bs_blocks st))%nat) /\
    forall j bb, bs_blocks st !! j = Some bb ->
      bb_parent bb = fn /\
      forallb (targets_ok (length (bs_blocks st))) (bb_insts bb) = true /\
      (if bool_decide (j = b \/ (j ∈ pend)) then straight (bb_insts bb)
       else terminated (bb_insts bb)) = true.

(** The nodes whose code reads [NamedValues["tape"]] and dereferences it. *)
Definition reads_tape (n : Node) : bool :=
  match n with
  | MoveLeftNode | MoveRightNode | ProgramNode _ => false
  | _ => true
  end.

(** Does the tree contain an Output, an Input? *)
Fixpoint uses_putchar (n : Node) : bool :=
  match n with
  | PutCharNode => true
  | ConditionalGroupNode children | ProgramNode children => existsb uses_putchar children
  | _ => false
  end.

Fixpoint uses_getchar (n : Node) : bool :=
  match n with
  | GetCharNode => true
  | ConditionalGroupNode children | ProgramNode children => existsb uses_getchar children
  | _ => false
  end.

(** The functions of the module are declared once each, and the two
    library functions with the types the generator gives them. *)
Definition functions_inv (st : BuilderState) : Prop :=
  NoDup (fst <$> bs_functions st) /\
  forall ft, (("putchar", ft) ∈ bs_functions st -> ft = putchar_type) /\
             (("getchar", ft) ∈ bs_functions st -> ft = getchar_type).

(** What compiling a piece of the tree does to the functions of the module:
    [p] and [g] tell whether the piece has an Output, an Input. *)
Definition functions_step (p g : bool) (st st' : BuilderState) : Prop :=
  functions_inv st ->
  functions_inv st' /\
  forall x, x ∈ bs_functions st' <->
            x ∈ bs_functions st \/
            (x = ("putchar", putchar_type) /\ p = true) \/
            (x = ("getchar", getchar_type) /\ g = true).

End Shape.
Export Shape.

(* ===================================================================== *)
(** ** What the instructions mean *)
(* ===================================================================== *)

Module Reference.

(** A Brainfuck machine, in the terms of the generated code: the position
    (a signed 64-bit integer), the [TAPE_SIZE] cells (bytes), the input
    that is left, and the library calls made so far. *)
Record BFState : Type := mkBFState {
  bf_ptr : Z;
  bf_tape : list Z;
  bf_input : list Z;
  bf_trace : list Event
}.

(** How a run ends: normally, with an access outside the tape, or without
    a result (the fuel is used up, or the tree has a root inside). *)
Inductive BFResult : Type :=
  | BFDone (s : BFState)
  | BFOutOfBounds
  | BFNoResult.

(** The current cell, when the position is on the tape. *)
Definition bf_cell (s : BFState) : option Z :=
  if 0 <=? bf_ptr s then bf_tape s !! Z.to_nat (bf_ptr s) else None.

Definition bf_store (x : Z) (s : BFState) : BFState :=
  {| bf_ptr := bf_ptr s; bf_tape := <[Z.to_nat (bf_ptr s) := x]> (bf_tape s);
     bf_input := bf_input s; bf_trace := bf_trace s |}.

Definition bf_move (p : Z) (s : BFState) : BFState :=
  {| bf_ptr := signed 64 (wrap 64 p); bf_tape := bf_tape s;
     bf_input := bf_input s; bf_trace := bf_trace s |}.

Definition bf_putchar (c : Z) (s : BFState) : BFState :=
  {| bf_ptr := bf_ptr s; bf_tape := bf_tape s;
     bf_input := bf_input s; bf_trace := bf_trace s ++ [EvPutchar c] |}.

Definition bf_getchar (s : BFState) : BFState :=
  let r := getchar_result (bf_input s) in
  {| bf_ptr := bf_ptr s; bf_tape := <[Z.to_nat (bf_ptr s) := wrap 8 r]> (bf_tape s);
     bf_input := tail (bf_input s); bf_trace := bf_trace s ++ [EvGetchar r] |}.

(** One node after the other, until one does not end normally. *)
Fixpoint bf_seq (f : Node -> BFState -> BFResult) (l : list Node) (s : BFState)
    : BFResult :=
  match l with
  | [] => BFDone s
  | n :: l' =>
      match f n s with
      | BFDone s' => bf_seq f l' s'
      | r => r
      end
  end.

(** One instruction.  A group is a while loop on the current cell; [fuel]
    bounds how many times in a row a body is entered, and how deep the
    groups entered are nested. *)
Fixpoint bf_node (fuel : nat) (n : Node) (s : BFState) {struct fuel} : BFResult :=
  match n with
  | IncrementNode =>
      match bf_cell s with
      | Some c => BFDone (bf_store (wrap 8 (c + 1)) s)
      | None => BFOutOfBounds
      end
  | DecrementNode =>
      match bf_cell s with
      | Some c => BFDone (bf_store (wrap 8 (c - 1)) s)
      | None => BFOutOfBounds
      end
  | MoveLeftNode => BFDone (bf_move (bf_ptr s - 1) s)
  | MoveRightNode => BFDone (bf_move (bf_ptr s + 1) s)
  | PutCharNode =>
      match bf_cell s with
      | Some c => BFDone (bf_putchar c s)
      | None => BFOutOfBounds
      end
  | GetCharNode =>
      match bf_cell s with
      | Some _ => BFDone (bf_getchar s)
      | None => BFOutOfBounds
      end
  | ConditionalGroupNode children =>
      match bf_cell s with
      | Some c =>
          if bool_decide (c = 0) then BFDone s
          else
            match fuel with
            | O => BFNoResult
            | S fuel' =>
                match bf_seq (bf_node fuel') children s with
                | BFDone s' => bf_node fuel' (ConditionalGroupNode children) s'
                | r => r
                end
            end
      | None => BFOutOfBounds
      end
  | ProgramNode _ => BFNoResult
  end.

(** The children of the root, from the state in which [main] starts them. *)
Definition bf_run (fuel : nat) (children : list Node) (s : BFState) : BFResult :=
  bf_seq (bf_node fuel) children s.

Definition bf_start (input : list Z) : BFState :=
  {| bf_ptr := 0; bf_tape := replicate (Z.to_nat TAPE_SIZE) 0;
     bf_input := input; bf_trace := [] |}.

(** The machine [m], standing where the builder [st] emits next, is in the
    state [s]. *)
Definition represents (st : BuilderState) (m : Machine) (s : BFState) : Prop :=
  view st m = Some (bf_ptr s, Some <$> bf_tape s) /\ at_cursor st m = true /\
  m_input m = bf_input s /\ m_trace m = bf_trace s.

(** The code of [st'], run from [m], ends as [r] says. *)
Definition agrees (st' : BuilderState) (m : Machine) (r : BFResult) : Prop :=
  match r with
  | BFDone s' =>
      exists k m', run (bs_blocks st') k m = Running m' /\ represents st' m' s'
  | BFOutOfBounds => exists k, run (bs_blocks st') k m = Faulted OutOfBounds
  | BFNoResult => True
  end.

(** The code of every instruction agrees with its meaning, [fuel] given. *)
Definition node_agrees (fuel : nat) : Prop :=
  forall n st st' m s,
    instruction n = true -> represents st m s -> codegen n st = Some (tt, st') ->
    agrees st' m (bf_node fuel n s).

(** And so does the code of a group entered with a cell that is not zero,
    from the first instruction of its body. *)
Definition loop_agrees (fuel : nat) : Prop :=
  forall children st b bb pa ta st_c m s c,
    instructions children = true ->
    bs_insert st = Some b -> bs_blocks st !! b = Some bb ->
    bs_named st !! "position" = Some pa -> bs_named st !! "tape" = Some ta ->
    for_each codegen children (group_body_state st bb pa ta) = Some (tt, st_c) ->
    represents (group_body_state st bb pa ta) m s ->
    bf_cell s = Some c -> c <> 0 ->
    agrees (group_exit_state st st_c pa ta) m
      (bf_node fuel (ConditionalGroupNode children) s).

End Reference.
Export Reference.

(* ===================================================================== *)
(** ** The parser: fuel, totality, and the shape of what it accepts *)
(* ===================================================================== *)

Section ParserFacts.

Lemma istream_get_length s c rest :
  istream_get s = Some (c, rest) -> (length rest < length s)%nat.
Proof.
  induction s as [|a s IH]; simpl; [discriminate|].
  destruct (isspace a).
  - intros H. apply IH in H. lia.
  - intros [= <- <-]. lia.
Qed.

Lemma Node_try_parse_S fuel s :
  Node_try_parse (S fuel) s =
  match istream_get s with
  | None => Some (None, [])
  | Some (c, rest) =>
      if (c =? "+")%char then Some (Some IncrementNode, rest)
      else if (c =? "-")%char then Some (Some DecrementNode, rest)
      else if (c =? "<")%char then Some (Some MoveLeftNode, rest)
      else if (c =? ">")%char then Some (Some MoveRightNode, rest)
      else if (c =? ".")%char then Some (Some PutCharNode, rest)
      else if (c =? ",")%char then Some (Some GetCharNode, rest)
      else if (c =? "[")%char then
        match ConditionalGroupNode_try_parse fuel rest with
        | Some (node, rest') => Some (Some node, rest')
        | None => None
        end
      else if (c =? "]")%char then Some (None, rest)
      else Node_try_parse fuel rest
  end.
Proof. reflexivity. Qed.

Lemma ConditionalGroupNode_try_parse_S fuel s :
  ConditionalGroupNode_try_parse (S fuel) s =
  match parse_children fuel s [] with
  | Some (children, rest) => Some (ConditionalGroupNode children, rest)
  | None => None
  end.
Proof. reflexivity. Qed.

Lemma parse_children_S fuel s children :
  parse_children (S fuel) s children =
  match Node_try_parse fuel s with
  | Some (Some node, rest) => parse_children fuel rest (children ++ [node])
  | Some (None, rest) => Some (children, rest)
  | None => None
  end.
Proof. reflexivity. Qed.

(** More fuel never changes a result. *)
Lemma parse_fuel_S fuel :
  (forall s r, Node_try_parse fuel s = Some r -> Node_try_parse (S fuel) s = Some r) /\
  (forall s r, ConditionalGroupNode_try_parse fuel s = Some r ->
               ConditionalGroupNode_try_parse (S fuel) s = Some r) /\
  (forall s ch r, parse_children fuel s ch = Some r ->
                  parse_children (S fuel) s ch = Some r).
Proof.
  induction fuel as [|fuel (IHn & IHg & IHc)].
  - repeat split; intros; discriminate.
  - repeat split.
    + intros s r. rewrite (Node_try_parse_S (S fuel)), (Node_try_parse_S fuel).
      destruct (istream_get s) as [[c rest]|]; [|done].
      repeat (case_match; [done|]).
      case_match.
      * destruct (ConditionalGroupNode_try_parse fuel rest) as [[nd rest']|] eqn:E;
          [|discriminate].
        by rewrite (IHg _ _ E).
      * case_match; [done|]. apply IHn.
    + intros s r.
      rewrite (ConditionalGroupNode_try_parse_S (S fuel)), (ConditionalGroupNode_try_parse_S fuel).
      destruct (parse_children fuel s []) as [[ch rest]|] eqn:E; [|discriminate].
      by rewrite (IHc _ _ _ E).
    + intros s ch r. rewrite (parse_children_S (S fuel)), (parse_children_S fuel).
      destruct (Node_try_parse fuel s) as [[[nd|] rest]|] eqn:E; [| |discriminate];
        rewrite (IHn _ _ E); [apply IHc|done].
Qed.

Lemma Node_try_parse_mono fuel fuel' s r :
  (fuel <= fuel')%nat -> Node_try_parse fuel s = Some r -> Node_try_parse fuel' s = Some r.
Proof. induction 1; [done|]. intros. by apply parse_fuel_S, IHle. Qed.

Lemma ConditionalGroupNode_try_parse_mono fuel fuel' s r :
  (fuel <= fuel')%nat -> ConditionalGroupNode_try_parse fuel s = Some r ->
  ConditionalGroupNode_try_parse fuel' s = Some r.
Proof. induction 1; [done|]. intros. by apply parse_fuel_S, IHle. Qed.

Lemma parse_children_mono fuel fuel' s ch r :
  (fuel <= fuel')%nat -> parse_children fuel s ch = Some r ->
  parse_children fuel' s ch = Some r.
Proof. induction 1; [done|]. intros. by apply parse_fuel_S, IHle. Qed.

Lemma parse_children_det f1 f2 s ch r1 r2 :
  parse_children f1 s ch = Some r1 -> parse_children f2 s ch = Some r2 -> r1 = r2.
Proof.
  intros H1 H2.
  apply (parse_children_mono _ (f1 `max` f2)%nat) in H1; [|lia].
  apply (parse_children_mono _ (f1 `max` f2)%nat) in H2; [|lia].
  congruence.
Qed.

(** Fuel linear in the length of the stream is enough, and what is left of
    the stream is never longer than what was given. *)
Lemma parse_enough n :
  forall s, (length s <= n)%nat ->
    (exists o rest, Node_try_parse (3 * n + 1) s = Some (o, rest) /\
        (length rest <= length s)%nat /\ (is_Some o -> (length rest < length s)%nat)) /\
    (forall ch, exists ch' rest, parse_children (3 * n + 2) s ch = Some (ch', rest) /\
        (length rest <= length s)%nat) /\
    (exists nd rest, ConditionalGroupNode_try_parse (3 * n + 3) s = Some (nd, rest) /\
        (length rest <= length s)%nat).
Proof.
  induction n as [|n IH]; intros s Hs.
  - destruct s; [|simpl in Hs; lia].
    repeat split; [by exists None, []|intros ch; by exists ch, []|
                   by exists (ConditionalGroupNode []), []].
  - assert (HN : exists o rest, Node_try_parse (3 * S n + 1) s = Some (o, rest) /\
        (length rest <= length s)%nat /\ (is_Some o -> (length rest < length s)%nat)).
    { replace (3 * S n + 1)%nat with (S (3 * n + 3)) by lia. rewrite Node_try_parse_S.
      destruct (istream_get s) as [[c rest]|] eqn:Eg.
      2:{ exists None, []. repeat split; [simpl; lia|]. by intros [? [=]]. }
      apply istream_get_length in Eg.
      assert (Hr : (length rest <= n)%nat) by lia.
      destruct (IH rest Hr) as ((o & rest' & Hn & Hl & Hlt) & _ & (nd & rest'' & Hg & Hgl)).
      repeat (case_match; [eexists _, rest; repeat split; [lia|intros; lia]|]).
      case_match.
      { rewrite Hg. exists (Some nd), rest''. repeat split; [lia|intros; lia]. }
      case_match.
      { exists None, rest. repeat split; [lia|]. by intros [? [=]]. }
      exists o, rest'. split; [|split; [lia|intros Ho; specialize (Hlt Ho); lia]].
      eapply Node_try_parse_mono; [|exact Hn]. lia. }
    assert (HC : forall ch, exists ch' rest,
        parse_children (3 * S n + 2) s ch = Some (ch', rest) /\
        (length rest <= length s)%nat).
    { intros ch. replace (3 * S n + 2)%nat with (S (3 * S n + 1)) by lia.
      rewrite parse_children_S.
      destruct HN as (o & rest & -> & Hl & Hlt). destruct o as [nd|].
      - assert (Hr : (length rest <= n)%nat) by (specialize (Hlt (mk_is_Some _ _ eq_refl)); lia).
        destruct (IH rest Hr) as (_ & Hc & _).
        destruct (Hc (ch ++ [nd])) as (ch' & rest' & Hc' & Hl').
        exists ch', rest'. split; [|lia].
        eapply parse_children_mono; [|exact Hc']. lia.
      - by exists ch, rest. }
    repeat split; [exact HN|exact HC|].
    replace (3 * S n + 3)%nat with (S (3 * S n + 2)) by lia.
    rewrite ConditionalGroupNode_try_parse_S.
    destruct (HC []) as (ch' & rest & -> & Hl). by exists (ConditionalGroupNode ch'), rest.
Qed.

(** [parse] in terms of the loop of [ProgramNode::try_parse]. *)
Lemma parse_total s :
  exists children rest,
    parse_children (parse_fuel s) s [] = Some (children, rest) /\
    parse s = Some (ProgramNode children).
Proof.
  destruct (parse_enough (length s) s (le_n _)) as (_ & Hc & _).
  destruct (Hc []) as (ch & rest & Hp & _).
  exists ch, rest. split; [exact Hp|].
  unfold parse, ProgramNode_try_parse. unfold parse_fuel in *. by rewrite Hp.
Qed.

Lemma parse_intro fuel s children rest :
  parse_children fuel s [] = Some (children, rest) ->
  parse s = Some (ProgramNode children).
Proof.
  intros H. destruct (parse_total s) as (ch & rest' & Hp & ->).
  by pose proof (parse_children_det _ _ _ _ _ _ H Hp) as [= -> ->].
Qed.

Lemma parse_elim s p :
  parse s = Some p ->
  exists children rest,
    parse_children (parse_fuel s) s [] = Some (children, rest) /\ p = ProgramNode children.
Proof.
  intros H. destruct (parse_total s) as (ch & rest & Hp & Hq).
  exists ch, rest. split; [done|congruence].
Qed.

(** *** What the parser builds contains no [ProgramNode] *)

Lemma instructions_app l1 l2 :
  instructions (l1 ++ l2) = instructions l1 && instructions l2.
Proof. apply forallb_app. Qed.

Lemma instructions_Forall l :
  instructions l = true -> Forall (fun n => instruction n = true) l.
Proof.
  induction l as [|x l IH]; simpl; [constructor|].
  intros [Hx Hl]%andb_true_iff. constructor; auto.
Qed.

Lemma parse_builds_instructions fuel :
  (forall s n rest, Node_try_parse fuel s = Some (Some n, rest) -> instruction n = true) /\
  (forall s n rest, ConditionalGroupNode_try_parse fuel s = Some (n, rest) ->
                    instruction n = true) /\
  (forall s ch ch' rest, parse_children fuel s ch = Some (ch', rest) ->
                         instructions ch = true -> instructions ch' = true).
Proof.
  induction fuel as [|fuel (IHn & IHg & IHc)]; [repeat split; intros; discriminate|].
  repeat split.
  - intros s n rest. rewrite Node_try_parse_S.
    destruct (istream_get s) as [[c r]|]; [|discriminate].
    repeat (case_match; [by intros [= <- _]|]).
    case_match.
    { destruct (ConditionalGroupNode_try_parse fuel r) as [[nd r']|] eqn:E; [|discriminate].
      intros [= <- _]. eauto. }
    case_match; [discriminate|]. apply IHn.
  - intros s n rest. rewrite ConditionalGroupNode_try_parse_S.
    destruct (parse_children fuel s []) as [[ch r]|] eqn:E; [|discriminate].
    intros [= <- _]. simpl. by eapply (IHc _ [] ch).
  - intros s ch ch' rest. rewrite parse_children_S.
    destruct (Node_try_parse fuel s) as [[[nd|] r]|] eqn:E; [| |discriminate].
    + intros H Hch. eapply IHc; [exact H|].
      rewrite instructions_app, Hch. simpl. by rewrite (IHn _ _ _ E).
    + by intros [= <- _].
Qed.

(** *** Printing, then parsing *)

Lemma parse_children_print (l : list Node) :
  Forall (fun n => forall rest, exists fuel,
            Node_try_parse fuel (debug_print n ++ rest) = Some (Some n, rest)) l ->
  forall rest acc r fuel0,
    parse_children fuel0 rest (acc ++ l) = Some r ->
    exists fuel, parse_children fuel (debug_print_children l ++ rest) acc = Some r.
Proof.
  unfold debug_print_children.
  induction 1 as [|x l Hx _ IH]; intros rest acc r fuel0 Hr.
  - rewrite app_nil_r in Hr. by exists fuel0.
  - replace (acc ++ x :: l) with ((acc ++ [x]) ++ l) in Hr by by rewrite <- app_assoc.
    destruct (IH _ _ _ _ Hr) as (f1 & H1).
    destruct (Hx (flat_map debug_print l ++ rest)) as (f2 & H2).
    exists (S (f1 `max` f2)). rewrite parse_children_S.
    simpl. rewrite <- app_assoc.
    rewrite (Node_try_parse_mono f2 _ _ _ (Nat.le_max_r f1 f2) H2).
    eapply parse_children_mono; [|exact H1]. lia.
Qed.

Lemma Node_try_parse_print n :
  instruction n = true ->
  forall rest, exists fuel,
    Node_try_parse fuel (debug_print n ++ rest) = Some (Some n, rest).
Proof.
  induction n as [| | | | | |children IH|children _] using Node_ind_nested;
    intros Hn rest; try (by exists 1%nat).
  simpl in Hn.
  assert (Hall : Forall (fun n => forall rest, exists fuel,
            Node_try_parse fuel (debug_print n ++ rest) = Some (Some n, rest)) children).
  { apply instructions_Forall in Hn.
    induction IH; inversion Hn; subst; constructor; auto. }
  destruct (parse_children_print children Hall ("]"%char :: rest) [] (children, rest) 2%nat
              eq_refl) as (f & Hf).
  exists (S (S f)). rewrite Node_try_parse_S. simpl.
  rewrite <- app_assoc. simpl. unfold debug_print_children in Hf. by rewrite Hf.
Qed.

Lemma parse_print_children (l : list Node) rest acc r fuel0 :
  instructions l = true ->
  parse_children fuel0 rest (acc ++ l) = Some r ->
  exists fuel, parse_children fuel (debug_print_children l ++ rest) acc = Some r.
Proof.
  intros Hl. apply parse_children_print.
  apply instructions_Forall in Hl.
  induction Hl; constructor; auto using Node_try_parse_print.
Qed.

Lemma parse_debug_print_children l :
  instructions l = true ->
  parse (debug_print_children l) = Some (ProgramNode l).
Proof.
  intros Hl.
  destruct (parse_print_children l [] [] (l, []) 2%nat Hl eq_refl) as (f & Hf).
  rewrite app_nil_r in Hf. by eapply parse_intro.
Qed.

(** *** Characters that are not commands *)

Lemma isspace_not_command c : isspace c = true -> is_command c = false.
Proof. destruct c as [[] [] [] [] [] [] [] []]; vm_compute; congruence. Qed.

Lemma istream_get_filter s :
  match istream_get s with
  | None => List.filter is_command s = []
  | Some (c, rest) =>
      List.filter is_command s =
      if is_command c then c :: List.filter is_command rest
      else List.filter is_command rest
  end.
Proof.
  induction s as [|a s IH]; simpl; [done|].
  destruct (isspace a) eqn:Ea; [|done].
  rewrite (isspace_not_command _ Ea). exact IH.
Qed.

Lemma istream_get_command c rest :
  is_command c = true -> istream_get (c :: rest) = Some (c, rest).
Proof.
  intros Hc. simpl. destruct (isspace c) eqn:E; [|done].
  apply isspace_not_command in E. congruence.
Qed.

(** Case analysis on the [switch] of [Node::try_parse]. *)
Ltac switch_cases c :=
  destruct (Ascii.eqb_spec c "+") as [->|?];
  [|destruct (Ascii.eqb_spec c "-") as [->|?];
  [|destruct (Ascii.eqb_spec c "<") as [->|?];
  [|destruct (Ascii.eqb_spec c ">") as [->|?];
  [|destruct (Ascii.eqb_spec c ".") as [->|?];
  [|destruct (Ascii.eqb_spec c ",") as [->|?];
  [|destruct (Ascii.eqb_spec c "[") as [->|?];
  [|destruct (Ascii.eqb_spec c "]") as [->|?]]]]]]]].

Lemma not_command c :
  c <> "+"%char -> c <> "-"%char -> c <> "<"%char -> c <> ">"%char ->
  c <> "."%char -> c <> ","%char -> c <> "["%char -> c <> "]"%char ->
  is_command c = false.
Proof.
  intros. unfold is_command.
  repeat match goal with
         | H : c <> ?d |- _ => apply Ascii.eqb_neq in H; rewrite H; clear H
         end.
  done.
Qed.

Lemma parse_filter fuel :
  (forall s o rest, Node_try_parse fuel s = Some (o, rest) ->
     exists f, Node_try_parse f (List.filter is_command s)
               = Some (o, List.filter is_command rest)) /\
  (forall s n rest, ConditionalGroupNode_try_parse fuel s = Some (n, rest) ->
     exists f, ConditionalGroupNode_try_parse f (List.filter is_command s)
               = Some (n, List.filter is_command rest)) /\
  (forall s ch ch' rest, parse_children fuel s ch = Some (ch', rest) ->
     exists f, parse_children f (List.filter is_command s) ch
               = Some (ch', List.filter is_command rest)).
Proof.
  induction fuel as [|fuel (IHn & IHg & IHc)]; [repeat split; intros; discriminate|].
  repeat split.
  - intros s o rest. rewrite Node_try_parse_S.
    pose proof (istream_get_filter s) as Hf.
    destruct (istream_get s) as [[c r]|].
    2:{ intros [= <- <-]. rewrite Hf. by exists 1%nat. }
    switch_cases c; simpl in Hf; rewrite ?Hf;
      try (intros [= <- <-]; by exists 1%nat).
    + destruct (ConditionalGroupNode_try_parse fuel r) as [[nd r']|] eqn:E; [|discriminate].
      intros [= <- <-]. destruct (IHg _ _ _ E) as (f & Hg).
      exists (S f). rewrite Node_try_parse_S. simpl. by rewrite Hg.
    + rewrite not_command by done. apply IHn.
  - intros s n rest. rewrite ConditionalGroupNode_try_parse_S.
    destruct (parse_children fuel s []) as [[ch r]|] eqn:E; [|discriminate].
    intros [= <- <-]. destruct (IHc _ _ _ _ E) as (f & Hc).
    exists (S f). rewrite ConditionalGroupNode_try_parse_S. by rewrite Hc.
  - intros s ch ch' rest. rewrite parse_children_S.
    destruct (Node_try_parse fuel s) as [[[nd|] r]|] eqn:E; [| |discriminate].
    + intros H. destruct (IHn _ _ _ E) as (f1 & H1). destruct (IHc _ _ _ _ H) as (f2 & H2).
      exists (S (f1 `max` f2)). rewrite parse_children_S.
      rewrite (Node_try_parse_mono f1 _ _ _ (Nat.le_max_l f1 f2) H1).
      eapply parse_children_mono; [|exact H2]. lia.
    + intros [= <- <-]. destruct (IHn _ _ _ E) as (f1 & H1).
      exists (S f1). rewrite parse_children_S. by rewrite H1.
Qed.

Lemma parse_filter_commands s : parse (List.filter is_command s) = parse s.
Proof.
  destruct (parse_total s) as (ch & rest & Hp & ->).
  destruct (proj2 (proj2 (parse_filter _)) _ _ _ _ Hp) as (f & Hf).
  by eapply parse_intro.
Qed.

Lemma inserted_filter s s' :
  inserted s s' -> List.filter is_command s' = List.filter is_command s.
Proof.
  induction 1 as [|c s s' _ IH|c s s' Hc _ IH]; simpl; [done| |].
  - by rewrite IH.
  - by rewrite Hc.
Qed.

(** *** Closing brackets at the end of the stream *)

Lemma istream_get_app s t :
  istream_get (s ++ t) =
  match istream_get s with
  | Some (c, rest) => Some (c, rest ++ t)
  | None => istream_get t
  end.
Proof. induction s as [|a s IH]; simpl; [done|]. by destruct (isspace a). Qed.

Lemma parse_closing fuel :
  (forall s k o rest, Node_try_parse fuel s = Some (o, rest) ->
     exists f k', Node_try_parse f (s ++ repeat "]"%char k)
                  = Some (o, rest ++ repeat "]"%char k')) /\
  (forall s k n rest, ConditionalGroupNode_try_parse fuel s = Some (n, rest) ->
     exists f k', ConditionalGroupNode_try_parse f (s ++ repeat "]"%char k)
                  = Some (n, rest ++ repeat "]"%char k')) /\
  (forall s k ch ch' rest, parse_children fuel s ch = Some (ch', rest) ->
     exists f k', parse_children f (s ++ repeat "]"%char k) ch
                  = Some (ch', rest ++ repeat "]"%char k')).
Proof.
  induction fuel as [|fuel (IHn & IHg & IHc)]; [repeat split; intros; discriminate|].
  repeat split.
  - intros s k o rest. rewrite Node_try_parse_S.
    destruct (istream_get s) as [[c r]|] eqn:Eg.
    2:{ intros [= <- <-]. destruct k as [|k].
        - exists 1%nat, O. rewrite Node_try_parse_S, istream_get_app, Eg. done.
        - exists 1%nat, k. rewrite Node_try_parse_S, istream_get_app, Eg. done. }
    assert (Hleaf : forall f, Node_try_parse (S f) (s ++ repeat "]"%char k) =
                      Node_try_parse (S f) (c :: r ++ repeat "]"%char k)).
    { intros f. rewrite !Node_try_parse_S, istream_get_app, Eg. simpl.
      destruct (isspace c) eqn:Ec; [|done].
      exfalso. clear -Eg Ec. induction s as [|a s IH]; simpl in Eg; [done|].
      destruct (isspace a) eqn:Ea; [auto|]. congruence. }
    switch_cases c;
      try (intros [= <- <-]; exists 1%nat, k; by rewrite Hleaf).
    + destruct (ConditionalGroupNode_try_parse fuel r) as [[nd r']|] eqn:E; [|discriminate].
      intros [= <- <-]. destruct (IHg _ k _ _ E) as (f & k' & Hg).
      exists (S f), k'. rewrite Hleaf, Node_try_parse_S. simpl. by rewrite Hg.
    + intros H. destruct (IHn _ k _ _ H) as (f & k' & Hn).
      exists (S f), k'. rewrite Node_try_parse_S, istream_get_app, Eg.
      repeat match goal with
             | H : c <> _ |- _ => apply Ascii.eqb_neq in H; rewrite H; clear H
             end.
      exact Hn.
  - intros s k n rest. rewrite ConditionalGroupNode_try_parse_S.
    destruct (parse_children fuel s []) as [[ch r]|] eqn:E; [|discriminate].
    intros [= <- <-]. destruct (IHc _ k _ _ _ E) as (f & k' & Hc).
    exists (S f), k'. rewrite ConditionalGroupNode_try_parse_S. by rewrite Hc.
  - intros s k ch ch' rest. rewrite parse_children_S.
    destruct (Node_try_parse fuel s) as [[[nd|] r]|] eqn:E; [| |discriminate].
    + intros H. destruct (IHn _ k _ _ E) as (f1 & k1 & H1).
      destruct (IHc _ k1 _ _ _ H) as (f2 & k2 & H2).
      exists (S (f1 `max` f2)), k2. rewrite parse_children_S.
      rewrite (Node_try_parse_mono f1 _ _ _ (Nat.le_max_l f1 f2) H1).
      eapply parse_children_mono; [|exact H2]. lia.
    + intros [= <- <-]. destruct (IHn _ k _ _ E) as (f1 & k1 & H1).
      exists (S f1), k1. rewrite parse_children_S. by rewrite H1.
Qed.

Lemma parse_closing_brackets s k : parse (s ++ repeat "]"%char k) = parse s.
Proof.
  destruct (parse_total s) as (ch & rest & Hp & ->).
  destruct (proj2 (proj2 (parse_closing _)) _ k _ _ _ Hp) as (f & k' & Hf).
  by eapply parse_intro.
Qed.

End ParserFacts.

(* ===================================================================== *)
(** ** The builder: what code generation does to the blocks *)
(* ===================================================================== *)

Section BuilderFacts.

Example entry_state_prologue : program_prologue llvm_init = Some (tt, entry_state).
Proof. reflexivity. Qed.

Example entry_machine_prologue input :
  run (bs_blocks entry_state) 4 (start input) = Running (entry_machine input).
Proof. reflexivity. Qed.

Example entry_view input :
  view entry_state (entry_machine input) = Some (0, replicate (Z.to_nat TAPE_SIZE) (Some 0)).
Proof. vm_compute. reflexivity. Qed.

(** *** Appending at the insertion point *)

Implicit Types (st : BuilderState) (pa ta : AllocaInst).

Lemma ready_spec st :
  ready st = true <->
  exists b bb pa ta,
    bs_insert st = Some b /\ bs_blocks st !! b = Some bb /\
    bs_named st !! "position" = Some pa /\ bs_named st !! "tape" = Some ta.
Proof.
  unfold ready. rewrite !andb_true_iff, !bool_decide_eq_true. split.
  - intros [[Hb [pa Hp]] [ta Ht]]. destruct (bs_insert st) as [b|]; [|discriminate].
    apply bool_decide_eq_true in Hb as [bb Hb]. by exists b, bb, pa, ta.
  - intros (b & bb & pa & ta & -> & Hb & -> & ->).
    repeat split; eauto. apply bool_decide_eq_true. eauto.
Qed.

Lemma insert_insts_cons i code st :
  insert_insts (i :: code) st = insert_insts code (insert_inst i st).
Proof. reflexivity. Qed.

Lemma insert_insts_app code1 code2 st :
  insert_insts (code1 ++ code2) st = insert_insts code2 (insert_insts code1 st).
Proof. apply fold_left_app. Qed.

Lemma insert_insts_named code st : bs_named (insert_insts code st) = bs_named st.
Proof. revert st. induction code as [|i code IH]; intros st; [done|]. simpl. by rewrite IH. Qed.

Lemma insert_insts_insert code st : bs_insert (insert_insts code st) = bs_insert st.
Proof. revert st. induction code as [|i code IH]; intros st; [done|]. simpl. by rewrite IH. Qed.

Lemma insert_insts_functions code st :
  bs_functions (insert_insts code st) = bs_functions st.
Proof. revert st. induction code as [|i code IH]; intros st; [done|]. simpl. by rewrite IH. Qed.

Lemma insert_insts_next code st :
  bs_next (insert_insts code st) = (length code + bs_next st)%nat.
Proof.
  revert st. induction code as [|i code IH]; intros st; [done|].
  simpl. rewrite IH. simpl. lia.
Qed.

Lemma append_insts_nil bb : append_insts [] bb = bb.
Proof. destruct bb. unfold append_insts. simpl. by rewrite app_nil_r. Qed.

Lemma insert_insts_lookup code st j :
  bs_blocks (insert_insts code st) !! j =
  if bool_decide (bs_insert st = Some j)
  then append_insts code <$> bs_blocks st !! j
  else bs_blocks st !! j.
Proof.
  revert st. induction code as [|i code IH]; intros st.
  - simpl. case_bool_decide; [|done].
    destruct (bs_blocks st !! j); [|done]. simpl. by rewrite append_insts_nil.
  - rewrite insert_insts_cons, IH. simpl.
    case_bool_decide as Hj.
    + rewrite Hj, list_lookup_alter_eq.
      destruct (bs_blocks st !! j) as [bb|]; [|done].
      simpl. unfold append_insts, append_inst. simpl. by rewrite <- app_assoc.
    + destruct (bs_insert st) as [b|]; [|done].
      apply list_lookup_alter_ne. congruence.
Qed.

Lemma insert_insts_length code st :
  length (bs_blocks (insert_insts code st)) = length (bs_blocks st).
Proof.
  revert st. induction code as [|i code IH]; intros st; [done|].
  rewrite insert_insts_cons, IH. simpl.
  destruct (bs_insert st); [apply length_alter|done].
Qed.

Lemma insert_inst_as_insts i st : insert_inst i st = insert_insts [i] st.
Proof. reflexivity. Qed.

(** *** Frames *)

Lemma frame_refl st : frame st st.
Proof.
  split; [lia|]. split; [lia|]. split; [|split; [by left|done]].
  intros j bb Hj. exists []. by rewrite append_insts_nil.
Qed.

Lemma frame_trans st1 st2 st3 : frame st1 st2 -> frame st2 st3 -> frame st1 st3.
Proof.
  intros (Hl1 & Hn1 & Hb1 & Hi1 & Hf1) (Hl2 & Hn2 & Hb2 & Hi2 & Hf2).
  split; [lia|]. split; [lia|]. split; [|split; [|by etrans]].
  - intros j bb Hj. destruct (Hb1 j bb Hj) as (c1 & Hj1 & Hc1).
    destruct (Hb2 j _ Hj1) as (c2 & Hj2 & Hc2).
    exists (c1 ++ c2). split.
    { rewrite Hj2. unfold append_insts. simpl. by rewrite app_assoc. }
    intros Hne. rewrite (Hc1 Hne). rewrite Hc2; [done|].
    apply lookup_lt_Some in Hj.
    destruct Hi1 as [->|(i & -> & Hi)]; [done|]. intros [= ->]. lia.
  - destruct Hi2 as [->|(i & -> & Hi)]; [done|]. right. exists i. split; [done|lia].
Qed.

Lemma frame_insert_insts code st : frame st (insert_insts code st).
Proof.
  split; [|split; [|split; [|split]]].
  - by rewrite insert_insts_length.
  - rewrite insert_insts_next. lia.
  - intros j bb Hj. rewrite insert_insts_lookup, Hj. case_bool_decide as Hi.
    + by exists code.
    + exists []. by rewrite append_insts_nil.
  - left. apply insert_insts_insert.
  - by rewrite insert_insts_functions.
Qed.

(** A change that leaves blocks, insertion point and numbering alone. *)
Lemma frame_same st st' :
  bs_blocks st' = bs_blocks st -> bs_insert st' = bs_insert st ->
  bs_next st' = bs_next st -> bs_functions st `prefix_of` bs_functions st' ->
  frame st st'.
Proof.
  intros Hb Hi Hn Hf.
  split; [by rewrite Hb|]. split; [by rewrite Hn|]. split; [|split; [by left|done]].
  intros j bb Hj. exists []. by rewrite Hb, Hj, append_insts_nil.
Qed.

Lemma frame_add_block name parent st : frame st (add_block name parent st).
Proof.
  split; [simpl; rewrite length_app; lia|]. split; [simpl; lia|].
  split; [|split; [by left|done]].
  intros j bb Hj. exists []. simpl. rewrite lookup_app_l by by eapply lookup_lt_Some.
  by rewrite Hj, append_insts_nil.
Qed.

(** Moving the insertion point to a block created since [st]. *)
Lemma frame_set_insert st st' i :
  frame st st' -> (length (bs_blocks st) <= i)%nat -> frame st (set_insert i st').
Proof.
  intros (Hl & Hn & Hb & Hi & Hf) Hle.
  split; [done|]. split; [done|]. split; [done|]. split; [|done].
  right. by exists i.
Qed.

Lemma frame_extends st st' : frame st st' -> extends (bs_blocks st) (bs_blocks st').
Proof.
  intros (_ & _ & Hb & _) j bb Hj. destruct (Hb j bb Hj) as (code & Hj' & _).
  eexists. split; [exact Hj'|]. simpl. by apply prefix_app_r.
Qed.

Lemma declare_function_blocks name ft st :
  bs_blocks (declare_function name ft st) = bs_blocks st.
Proof. unfold declare_function. by case_bool_decide. Qed.

Lemma declare_function_insert name ft st :
  bs_insert (declare_function name ft st) = bs_insert st.
Proof. unfold declare_function. by case_bool_decide. Qed.

Lemma declare_function_next name ft st :
  bs_next (declare_function name ft st) = bs_next st.
Proof. unfold declare_function. by case_bool_decide. Qed.

Lemma declare_function_named name ft st :
  bs_named (declare_function name ft st) = bs_named st.
Proof. unfold declare_function. by case_bool_decide. Qed.

Lemma frame_declare_function name ft st : frame st (declare_function name ft st).
Proof.
  apply frame_same; auto using declare_function_blocks, declare_function_insert,
    declare_function_next.
  unfold declare_function. case_bool_decide; [done|]. by apply prefix_app_r.
Qed.

(** *** The name of a new function *)

Lemma decimal_inj k k' : decimal k = decimal k' -> k = k'.
Proof.
  unfold decimal. intros H.
  assert (Hn : forall n, Nat.to_uint n <> Decimal.Nil).
  { intros n Hn. pose proof (f_equal Nat.of_uint Hn) as Hn'.
    rewrite DecimalNat.Unsigned.of_to in Hn'. simpl in Hn'. subst n. discriminate. }
  apply (f_equal NilZero.uint_of_string) in H.
  rewrite !NilZero.usu in H by apply Hn. injection H as H.
  apply (f_equal Nat.of_uint) in H. by rewrite !DecimalNat.Unsigned.of_to in H.
Qed.

Lemma candidate_inj base k k' :
  (base +:+ "." +:+ decimal k)%string = (base +:+ "." +:+ decimal k')%string -> k = k'.
Proof.
  intros H. apply String.app_inj in H. apply decimal_inj. by injection H.
Qed.

(** The counter only goes up, and the name made is new when the candidates
    the module has are covered by a list no longer than the fuel. *)
Lemma makeUniqueName_fresh fuel names base :
  forall last l,
    (length l <= fuel)%nat ->
    (forall k, (last < k)%nat ->
       (base +:+ "." +:+ decimal k)%string ∈ names ->
       (base +:+ "." +:+ decimal k)%string ∈ l) ->
    (fst (makeUniqueName fuel names base last) ∉ names) /\
    (last < snd (makeUniqueName fuel names base last))%nat.
Proof.
  induction fuel as [|fuel IH]; intros last l Hlen Hcov; cbn [makeUniqueName].
  - destruct l; [|simpl in Hlen; lia]. split; [|simpl; lia].
    intros Hin. by apply Hcov, elem_of_nil in Hin; [|lia].
  - case_bool_decide as Hin; [|split; [done|simpl; lia]].
    destruct (IH (S last)
                (filter (fun x => x <> (base +:+ "." +:+ decimal (S last))%string) l))
      as [Hf Hl].
    + assert (Hx : (base +:+ "." +:+ decimal (S last))%string ∈ l) by (apply Hcov; [lia|done]).
      apply list_elem_of_split in Hx as (l1 & l2 & ->).
      rewrite filter_app, filter_cons_False by (intros H; by apply H).
      rewrite length_app in *. simpl in Hlen.
      pose proof (length_filter (fun x => x <> (base +:+ "." +:+ decimal (S last))%string) l1).
      pose proof (length_filter (fun x => x <> (base +:+ "." +:+ decimal (S last))%string) l2).
      lia.
    + intros k Hk Hkin. apply list_elem_of_filter. split; [|apply Hcov; [lia|done]].
      intros Heq%candidate_inj. lia.
    + split; [done|lia].
Qed.

Lemma module_name_fresh name st :
  (fst (module_name name st) ∉ (fst <$> bs_functions st)) /\
  (bs_last_unique st <= snd (module_name name st))%nat.
Proof.
  unfold module_name. case_bool_decide as Hin; [|split; [done|simpl; lia]].
  destruct (makeUniqueName_fresh (length (fst <$> bs_functions st)) (fst <$> bs_functions st)
              name (bs_last_unique st) (fst <$> bs_functions st)) as [Hf Hl]; [done|done|].
  split; [done|lia].
Qed.

(** *** The insertion block, which loads, stores and allocas need *)

Lemma has_block_spec st :
  has_block st = true <->
  exists b bb, bs_insert st = Some b /\ bs_blocks st !! b = Some bb.
Proof.
  unfold has_block. split.
  - destruct (bs_insert st) as [b|]; [|discriminate].
    intros [bb Hb]%bool_decide_eq_true. by exists b, bb.
  - intros (b & bb & -> & Hb). apply bool_decide_eq_true. by exists bb.
Qed.

Lemma getDataLayout_spec st :
  getDataLayout st = if has_block st then Some (tt, st) else None.
Proof.
  unfold getDataLayout, has_block, bind, GetInsertBlock, deref, getParent, ret.
  destruct (bs_insert st) as [b|]; [|done].
  destruct (bs_blocks st !! b) as [bb|] eqn:Hb.
  - by rewrite bool_decide_eq_true_2.
  - rewrite bool_decide_eq_false_2; [done|]. by intros [? ?].
Qed.

Lemma has_block_insert_inst i st : has_block (insert_inst i st) = has_block st.
Proof.
  unfold has_block. cbn [insert_inst bs_insert bs_blocks].
  destruct (bs_insert st) as [b|]; [|done].
  apply bool_decide_ext. rewrite list_lookup_alter, decide_True by done.
  apply fmap_is_Some.
Qed.

Lemma has_block_insert_insts code st : has_block (insert_insts code st) = has_block st.
Proof.
  revert st. induction code as [|i code IH]; intros st; [done|].
  simpl. by rewrite IH, has_block_insert_inst.
Qed.

Lemma has_block_declare_function name ft st :
  has_block (declare_function name ft st) = has_block st.
Proof. unfold declare_function. by case_bool_decide. Qed.

Lemma has_block_set_named key a st : has_block (set_named key a st) = has_block st.
Proof. reflexivity. Qed.

(** A block that has just been created, with the insertion point in it. *)
Lemma has_block_new_block name parent st :
  has_block (set_insert (length (bs_blocks st)) (add_block name parent st)) = true.
Proof.
  apply has_block_spec. eexists _, _. split; [reflexivity|]. simpl.
  by rewrite list_lookup_middle.
Qed.

Lemma ready_has_block st : ready st = true -> has_block st = true.
Proof.
  unfold ready, has_block. by intros [[H _]%andb_true_iff _]%andb_true_iff.
Qed.

(** *** The code of each node, written out *)

Ltac cg_unfold :=
  cbv [codegen bind ret deref NamedValues_at get_current_tape_value
       get_current_tape_cell_ptr get_current_position
       CreateLoad CreateStore CreateGEP CreateAdd CreateSub CreateICmpNE CreateCall
       CreateCondBr CreateRet emit_value emit_void getOrInsertFunction
       BasicBlock_Create SetInsertPoint].

(** The lookups in [NamedValues] and the uses of the insertion block,
    resolved with what is known of the state. *)
Ltac cg_known :=
  repeat first
    [ rewrite getDataLayout_spec
    | rewrite has_block_insert_inst
    | rewrite has_block_declare_function
    | rewrite has_block_set_named
    | rewrite declare_function_named
    | rewrite declare_function_next
    | match goal with
      | H : has_block ?s = true |- context [has_block ?s] => rewrite H
      | H : bs_named ?s !! ?k = Some _ |- context [bs_named ?s !! ?k] => rewrite H
      end
    | progress cbn [bs_named bs_next insert_inst] ].

Lemma codegen_IncrementNode st pa ta :
  has_block st = true ->
  bs_named st !! "position" = Some pa -> bs_named st !! "tape" = Some ta ->
  codegen IncrementNode st
  = Some (tt, insert_insts (increment_code (bs_next st) pa ta) st).
Proof. intros Hhb Hp Ht. cg_unfold. cg_known. reflexivity. Qed.

Lemma codegen_DecrementNode st pa ta :
  has_block st = true ->
  bs_named st !! "position" = Some pa -> bs_named st !! "tape" = Some ta ->
  codegen DecrementNode st
  = Some (tt, insert_insts (decrement_code (bs_next st) pa ta) st).
Proof. intros Hhb Hp Ht. cg_unfold. cg_known. reflexivity. Qed.

Lemma codegen_MoveLeftNode st pa :
  has_block st = true ->
  bs_named st !! "position" = Some pa ->
  codegen MoveLeftNode st = Some (tt, insert_insts (move_left_code (bs_next st) pa) st).
Proof. intros Hhb Hp. cg_unfold. cg_known. reflexivity. Qed.

Lemma codegen_MoveRightNode st pa :
  has_block st = true ->
  bs_named st !! "position" = Some pa ->
  codegen MoveRightNode st = Some (tt, insert_insts (move_right_code (bs_next st) pa) st).
Proof. intros Hhb Hp. cg_unfold. cg_known. reflexivity. Qed.

Lemma codegen_PutCharNode st pa ta :
  has_block st = true ->
  bs_named st !! "position" = Some pa -> bs_named st !! "tape" = Some ta ->
  codegen PutCharNode st
  = Some (tt, insert_insts (putchar_code (bs_next st) pa ta)
                (declare_function "putchar" putchar_type st)).
Proof.
  intros Hhb Hp Ht. cg_unfold. cg_known. reflexivity.
Qed.

Lemma CreateIntCast_getchar c st :
  CreateIntCast (ft_ret getchar_type) c Int8Ty true st
  = Some (Inst (bs_next st), insert_inst (Trunc (bs_next st) c Int8Ty) st).
Proof. unfold CreateIntCast. case_decide; [discriminate|]. reflexivity. Qed.

Lemma codegen_GetCharNode st pa ta :
  has_block st = true ->
  bs_named st !! "position" = Some pa -> bs_named st !! "tape" = Some ta ->
  codegen GetCharNode st
  = Some (tt, insert_insts (getchar_code (bs_next st) pa ta)
                (declare_function "getchar" getchar_type st)).
Proof.
  intros Hhb Hp Ht. cg_unfold. rewrite CreateIntCast_getchar. cg_known. reflexivity.
Qed.

Ltac cg_steps :=
  cbv [bind ret deref NamedValues_at get_current_tape_value
       get_current_tape_cell_ptr get_current_position
       CreateLoad CreateStore CreateGEP CreateAdd CreateSub CreateICmpNE CreateCall
       CreateCondBr CreateRet emit_value emit_void getOrInsertFunction
       GetInsertBlock getParent BasicBlock_Create SetInsertPoint
       Function_Create CreateAlloca NamedValues_set].

Lemma codegen_ConditionalGroupNode_unfold children :
  codegen (ConditionalGroupNode children) =
  (let* _ := NamedValues_at "position" in
   let* _ := NamedValues_at "tape" in
   let* base_block := bind GetInsertBlock deref in
   let* TheFunction := getParent base_block in
   let* entry_value := get_current_tape_value in
   let* start_condition := CreateICmpNE entry_value (ConstantInt Int8Ty 0) in
   let* group_content := BasicBlock_Create "group content" TheFunction in
   let* merge := BasicBlock_Create "merge" TheFunction in
   CreateCondBr start_condition group_content merge ;;
   SetInsertPoint group_content ;;
   for_each codegen children ;;
   let* exit_value := get_current_tape_value in
   let* end_condition := CreateICmpNE exit_value (ConstantInt Int8Ty 0) in
   CreateCondBr end_condition group_content merge ;;
   SetInsertPoint merge)%cg.
Proof. reflexivity. Qed.

Lemma codegen_ProgramNode_unfold children :
  codegen (ProgramNode children) =
  (let* main := Function_Create main_type "main" in
   let* main_block := BasicBlock_Create "entry" main in
   SetInsertPoint main_block ;;
   let* position := CreateAlloca Int64Ty "position" in
   CreateStore (ConstantInt Int64Ty 0) (Inst (alloca_id position)) ;;
   NamedValues_set "position" position ;;
   let* tape := CreateAlloca (ArrayTy Int8Ty TAPE_SIZE) "tape" in
   CreateStore (ConstantAggregateZero (ArrayTy Int8Ty TAPE_SIZE)) (Inst (alloca_id tape)) ;;
   NamedValues_set "tape" tape ;;
   for_each codegen children ;;
   CreateRet None)%cg.
Proof. reflexivity. Qed.

Lemma codegen_ConditionalGroupNode children st b bb pa ta :
  bs_insert st = Some b -> bs_blocks st !! b = Some bb ->
  bs_named st !! "position" = Some pa -> bs_named st !! "tape" = Some ta ->
  codegen (ConditionalGroupNode children) st =
  match for_each codegen children (group_body_state st bb pa ta) with
  | Some (_, st_c) =>
      match bs_named st_c !! "tape", bs_named st_c !! "position" with
      | Some ta', Some pa' =>
          if has_block st_c then Some (tt, group_exit_state st st_c pa' ta') else None
      | _, _ => None
      end
  | None => None
  end.
Proof.
  intros Hi Hb Hp Ht.
  assert (Hhb : has_block st = true) by (apply has_block_spec; eauto).
  rewrite codegen_ConditionalGroupNode_unfold. cg_steps.
  rewrite Hi, Hb. cg_known.
  cbn [bs_blocks insert_inst add_block bs_insert]. rewrite Hi.
  rewrite !length_app, !length_alter. simpl length. rewrite !Nat.add_1_r.
  match goal with |- context [for_each codegen children ?s] =>
    change s with (group_body_state st bb pa ta) end.
  destruct (for_each codegen children (group_body_state st bb pa ta)) as [[[] st_c]|]; [|done].
  destruct (bs_named st_c !! "tape") as [ta'|]; [|done]. cbv beta iota.
  destruct (bs_named st_c !! "position") as [pa'|]; [|done]. cbv beta iota.
  rewrite getDataLayout_spec. destruct (has_block st_c) eqn:Hc; [|done].
  cg_known. reflexivity.
Qed.

Lemma codegen_ProgramNode children st :
  codegen (ProgramNode children) st =
  match for_each codegen children (program_entry_state st) with
  | Some (_, st_c) => Some (tt, insert_inst (Ret None) st_c)
  | None => None
  end.
Proof.
  rewrite codegen_ProgramNode_unfold. cg_steps.
  change (length (bs_blocks (create_function "main" main_type st)))
    with (length (bs_blocks st)).
  pose proof (has_block_new_block "entry" (fst (module_name "main" st))
                (create_function "main" main_type st)) as Hhb.
  change (length (bs_blocks (create_function "main" main_type st)))
    with (length (bs_blocks st)) in Hhb.
  cg_known.
  change (for_each codegen children _) with
    (for_each codegen children (program_entry_state st)).
  destruct (for_each codegen children (program_entry_state st)) as [[[] st_c]|]; done.
Qed.

Lemma program_prologue_entry st : program_prologue st = Some (tt, program_entry_state st).
Proof.
  unfold program_prologue. cg_steps.
  change (length (bs_blocks (create_function "main" main_type st)))
    with (length (bs_blocks st)).
  pose proof (has_block_new_block "entry" (fst (module_name "main" st))
                (create_function "main" main_type st)) as Hhb.
  change (length (bs_blocks (create_function "main" main_type st)))
    with (length (bs_blocks st)) in Hhb.
  cg_known. reflexivity.
Qed.

(** *** Code generation succeeds and only appends *)

Lemma ready_insert_insts code st : ready st = true -> ready (insert_insts code st) = true.
Proof.
  rewrite !ready_spec. intros (b & bb & pa & ta & Hi & Hb & Hp & Ht).
  exists b, (append_insts code bb), pa, ta.
  rewrite insert_insts_insert, insert_insts_named, insert_insts_lookup, Hi, Hb.
  by rewrite bool_decide_eq_true_2.
Qed.

Lemma ready_declare_function name ft st :
  ready st = true -> ready (declare_function name ft st) = true.
Proof.
  unfold ready.
  by rewrite declare_function_insert, declare_function_blocks, declare_function_named.
Qed.

Lemma group_body_state_named st bb pa ta :
  bs_named (group_body_state st bb pa ta) = bs_named st.
Proof.
  unfold group_body_state. cbn [bs_named set_insert insert_inst add_block].
  apply insert_insts_named.
Qed.

Lemma group_exit_state_named st st_c pa ta :
  bs_named (group_exit_state st st_c pa ta) = bs_named st_c.
Proof.
  unfold group_exit_state. cbn [bs_named set_insert insert_inst].
  apply insert_insts_named.
Qed.

Section GroupStates.
Context (st : BuilderState) (b : nat) (bb : BasicBlock) (pa ta : AllocaInst).
Hypothesis Hi : bs_insert st = Some b.
Hypothesis Hb : bs_blocks st !! b = Some bb.

Let group_content := length (bs_blocks st).
Let merge := S (length (bs_blocks st)).

Lemma group_body_state_frame : frame st (group_body_state st bb pa ta).
Proof.
  apply frame_set_insert; [|done].
  eapply frame_trans; [|apply (frame_insert_insts [_])].
  eapply frame_trans; [|apply frame_add_block].
  eapply frame_trans; [|apply frame_add_block].
  apply frame_insert_insts.
Qed.

Lemma group_body_state_blocks j :
  bs_blocks (group_body_state st bb pa ta) !! j =
  if bool_decide (j = b) then
    Some (append_insts (cell_test_code (bs_next st) pa ta ++
                        [CondBr (Inst (3 + bs_next st)) group_content merge]) bb)
  else if bool_decide (j = group_content) then
    Some {| bb_name := "group content"; bb_parent := bb_parent bb; bb_insts := [] |}
  else if bool_decide (j = merge) then
    Some {| bb_name := "merge"; bb_parent := bb_parent bb; bb_insts := [] |}
  else bs_blocks st !! j.
Proof.
  unfold group_body_state.
  change (bs_blocks (set_insert ?i ?s)) with (bs_blocks s).
  rewrite insert_inst_as_insts, insert_insts_lookup.
  change (bs_insert (add_block _ _ (add_block _ _ ?s))) with (bs_insert s).
  rewrite insert_insts_insert, Hi.
  change (bs_blocks (add_block ?n2 ?p2 (add_block ?n1 ?p1 ?s)))
    with ((bs_blocks s ++ [mkBasicBlock n1 p1 []]) ++ [mkBasicBlock n2 p2 []]).
  pose proof (lookup_lt_Some _ _ _ Hb) as Hlt.
  pose proof (insert_insts_length (cell_test_code (bs_next st) pa ta) st) as Hlen.
  assert (Hlen' : forall x : BasicBlock,
    length (bs_blocks (insert_insts (cell_test_code (bs_next st) pa ta) st) ++ [x])
    = S (length (bs_blocks st))).
  { intros x. rewrite length_app, Hlen. cbn [length]. lia. }
  case_bool_decide as Hj.
  - injection Hj as <-. rewrite bool_decide_eq_true_2 by done.
    rewrite lookup_app_l by (rewrite Hlen'; lia).
    rewrite lookup_app_l by (rewrite Hlen; lia).
    rewrite insert_insts_lookup, Hi, bool_decide_eq_true_2, Hb by done. simpl.
    unfold append_insts. simpl. by rewrite <- app_assoc.
  - rewrite bool_decide_eq_false_2 by congruence.
    case_bool_decide as Hg.
    + subst j. rewrite lookup_app_l by (rewrite Hlen'; unfold group_content; lia).
      unfold group_content. rewrite <- Hlen. by rewrite list_lookup_middle.
    + case_bool_decide as Hm.
      * subst j. unfold merge. rewrite <- (Hlen' (mkBasicBlock "group content" (bb_parent bb) [])).
        by rewrite list_lookup_middle.
      * destruct (decide (j < length (bs_blocks st))%nat) as [Hjl|Hjl].
        -- rewrite lookup_app_l by (rewrite Hlen'; lia).
           rewrite lookup_app_l by (rewrite Hlen; lia).
           rewrite insert_insts_lookup, Hi, bool_decide_eq_false_2; [done|congruence].
        -- rewrite (lookup_ge_None_2 (bs_blocks st)) by lia.
           apply lookup_ge_None_2. rewrite length_app, Hlen'. cbn [length].
           unfold group_content, merge in *. lia.
Qed.

Lemma group_body_state_ready :
  is_Some (bs_named st !! "position") -> is_Some (bs_named st !! "tape") ->
  ready (group_body_state st bb pa ta) = true.
Proof.
  intros [pa' Hp] [ta' Ht]. apply ready_spec.
  exists group_content, {| bb_name := "group content"; bb_parent := bb_parent bb;
                          bb_insts := [] |}, pa', ta'.
  rewrite group_body_state_blocks.
  pose proof (lookup_lt_Some _ _ _ Hb) as Hlt.
  rewrite bool_decide_eq_false_2 by (unfold group_content; lia).
  rewrite bool_decide_eq_true_2 by done.
  repeat split; by rewrite group_body_state_named.
Qed.
End GroupStates.

Lemma program_entry_state_frame st : frame st (program_entry_state st).
Proof.
  unfold program_entry_state.
  eapply frame_trans; [|by apply frame_same].
  eapply frame_trans; [|apply frame_insert_insts].
  eapply frame_trans; [|by apply frame_same].
  eapply frame_trans; [|apply frame_insert_insts].
  apply frame_set_insert; [|done].
  eapply frame_trans; [|apply frame_add_block]. apply frame_same; try done.
  by apply prefix_app_r.
Qed.

Lemma program_entry_state_ready st : ready (program_entry_state st) = true.
Proof.
  apply ready_spec.
  exists (length (bs_blocks st)),
    {| bb_name := "entry"; bb_parent := fst (module_name "main" st);
       bb_insts := [Alloca (bs_next st) Int64Ty "position";
                    Store (ConstantInt Int64Ty 0) (Inst (bs_next st));
                    Alloca (2 + bs_next st) (ArrayTy Int8Ty TAPE_SIZE) "tape";
                    Store (ConstantAggregateZero (ArrayTy Int8Ty TAPE_SIZE))
                      (Inst (2 + bs_next st))] |},
    {| alloca_id := bs_next st; alloca_ty := Int64Ty |},
    {| alloca_id := 2 + bs_next st; alloca_ty := ArrayTy Int8Ty TAPE_SIZE |}.
  repeat split.
  - unfold program_entry_state. simpl.
    rewrite !list_lookup_alter_eq, list_lookup_middle by done. reflexivity.
  - unfold program_entry_state. cbn [bs_named set_named].
    rewrite lookup_insert_ne by done. rewrite insert_insts_named.
    cbn [bs_named set_named]. apply lookup_insert_eq.
  - unfold program_entry_state. cbn [bs_named set_named]. apply lookup_insert_eq.
Qed.

Lemma for_each_codegen_spec l :
  Forall codegen_spec l ->
  forall st, ready st = true ->
    exists st', for_each codegen l st = Some (tt, st') /\ frame st st' /\ ready st' = true /\
                (instructions l = true -> bs_named st' = bs_named st).
Proof.
  induction 1 as [|n l Hn _ IH]; intros st Hst.
  - exists st. split; [reflexivity|]. split; [apply frame_refl|]. by split.
  - destruct (Hn st Hst) as (st1 & H1 & Hf1 & Hr1 & Hn1).
    destruct (IH st1 Hr1) as (st2 & H2 & Hf2 & Hr2 & Hn2).
    exists st2. simpl. unfold bind. rewrite H1.
    split; [exact H2|]. split; [by eapply frame_trans|]. split; [exact Hr2|].
    intros [Ha Hb]%andb_true_iff. by rewrite Hn2, Hn1.
Qed.

Lemma codegen_ok n : codegen_spec n.
Proof.
  induction n as [| | | | | |children IH|children IH] using Node_ind_nested;
    intros st Hst; pose proof Hst as Hst'; pose proof (ready_has_block _ Hst) as Hhb;
    apply ready_spec in Hst' as (b & bb & pa & ta & Hi & Hb & Hp & Ht).
  - rewrite (codegen_IncrementNode _ _ _ Hhb Hp Ht). eexists. split; [done|].
    split; [apply frame_insert_insts|]. split; [by apply ready_insert_insts|].
    intros _. apply insert_insts_named.
  - rewrite (codegen_DecrementNode _ _ _ Hhb Hp Ht). eexists. split; [done|].
    split; [apply frame_insert_insts|]. split; [by apply ready_insert_insts|].
    intros _. apply insert_insts_named.
  - rewrite (codegen_MoveLeftNode _ _ Hhb Hp). eexists. split; [done|].
    split; [apply frame_insert_insts|]. split; [by apply ready_insert_insts|].
    intros _. apply insert_insts_named.
  - rewrite (codegen_MoveRightNode _ _ Hhb Hp). eexists. split; [done|].
    split; [apply frame_insert_insts|]. split; [by apply ready_insert_insts|].
    intros _. apply insert_insts_named.
  - rewrite (codegen_PutCharNode _ _ _ Hhb Hp Ht). eexists. split; [done|].
    split; [|split].
    + eapply frame_trans; [apply frame_declare_function|apply frame_insert_insts].
    + by apply ready_insert_insts, ready_declare_function.
    + intros _. by rewrite insert_insts_named, declare_function_named.
  - rewrite (codegen_GetCharNode _ _ _ Hhb Hp Ht). eexists. split; [done|].
    split; [|split].
    + eapply frame_trans; [apply frame_declare_function|apply frame_insert_insts].
    + by apply ready_insert_insts, ready_declare_function.
    + intros _. by rewrite insert_insts_named, declare_function_named.
  - rewrite (codegen_ConditionalGroupNode _ _ _ _ _ _ Hi Hb Hp Ht).
    pose proof (group_body_state_frame st bb pa ta) as Hfb.
    pose proof (group_body_state_ready st b bb pa ta Hi Hb
                  (mk_is_Some _ _ Hp) (mk_is_Some _ _ Ht)) as Hrb.
    destruct (for_each_codegen_spec children IH _ Hrb) as (st_c & -> & Hfc & Hrc & Hnc).
    pose proof Hrc as Hrc'.
    apply ready_spec in Hrc' as (bc & bbc & pa' & ta' & Hic & Hbc & Hpc & Htc).
    rewrite Htc, Hpc, (ready_has_block _ Hrc). eexists. split; [done|].
    assert (Hfe : frame st (group_exit_state st st_c pa' ta')).
    { apply frame_set_insert; [|lia].
      eapply frame_trans; [exact Hfb|]. eapply frame_trans; [exact Hfc|].
      eapply frame_trans; [apply frame_insert_insts|apply (frame_insert_insts [_])]. }
    split; [exact Hfe|]. split.
    + apply ready_spec.
      assert (Hlen : (S (length (bs_blocks st))
                      < length (bs_blocks (group_exit_state st st_c pa' ta')))%nat).
      { unfold group_exit_state.
        change (bs_blocks (set_insert ?i ?s)) with (bs_blocks s).
        rewrite insert_inst_as_insts, !insert_insts_length.
        destruct Hfc as (Hl & _).
        assert (Hm : is_Some (bs_blocks (group_body_state st bb pa ta)
                                !! S (length (bs_blocks st)))).
        { rewrite (group_body_state_blocks st b bb pa ta Hi Hb).
          apply lookup_lt_Some in Hb.
          rewrite bool_decide_eq_false_2 by lia.
          rewrite bool_decide_eq_false_2 by lia.
          by rewrite bool_decide_eq_true_2. }
        apply lookup_lt_is_Some_1 in Hm. lia. }
      apply lookup_lt_is_Some_2 in Hlen as [bm Hbm].
      exists (S (length (bs_blocks st))), bm, pa', ta'.
      repeat split; [exact Hbm| |].
      * by rewrite group_exit_state_named.
      * by rewrite group_exit_state_named.
    + intros Hins. rewrite group_exit_state_named, Hnc by exact Hins.
      apply group_body_state_named.
  - rewrite codegen_ProgramNode.
    destruct (for_each_codegen_spec children IH _ (program_entry_state_ready st))
      as (st_c & -> & Hfc & Hrc & _).
    eexists. split; [done|]. split; [|split].
    + eapply frame_trans; [apply program_entry_state_frame|].
      eapply frame_trans; [exact Hfc|apply (frame_insert_insts [_])].
    + by apply (ready_insert_insts [_]).
    + discriminate.
Qed.

Lemma for_each_codegen_ok l st :
  ready st = true ->
  exists st', for_each codegen l st = Some (tt, st') /\ frame st st' /\ ready st' = true /\
              (instructions l = true -> bs_named st' = bs_named st).
Proof.
  apply for_each_codegen_spec. induction l; constructor; auto using codegen_ok.
Qed.

End BuilderFacts.

(* ===================================================================== *)
(** ** Execution: running emitted code *)
(* ===================================================================== *)

Section ExecFacts.

Implicit Types (st : BuilderState) (m : Machine) (pa ta : AllocaInst).

Lemma run_plus B n1 n2 m :
  run B (n1 + n2) m =
  match run B n1 m with
  | Running m' => run B n2 m'
  | o => o
  end.
Proof.
  revert m. induction n1 as [|n1 IH]; intros m; [done|].
  simpl. destruct (step B m); auto.
Qed.

Lemma fetch_extends B B' m i : extends B B' -> fetch B m = Some i -> fetch B' m = Some i.
Proof.
  unfold fetch. intros HB Hf.
  destruct (B !! m_block m) as [bb|] eqn:Hbb; [|discriminate].
  destruct (HB _ _ Hbb) as (bb' & -> & Hpre).
  by eapply prefix_lookup_Some.
Qed.

(** Code that is added later does not change a run that went well. *)
Lemma run_extends B B' n m o :
  extends B B' -> run B n m = o -> o <> Faulted IllFormed -> run B' n m = o.
Proof.
  intros HB. revert m. induction n as [|n IH]; intros m Hr Ho; [done|].
  simpl in *. unfold step in *.
  destruct (fetch B m) as [i|] eqn:Hf; [|congruence].
  rewrite (fetch_extends _ _ _ _ HB Hf).
  destruct (exec i m); auto.
Qed.

Lemma exec_straight i m m' :
  is_terminator i = false -> exec i m = Running m' ->
  m_block m' = m_block m /\ m_pc m' = S (m_pc m).
Proof.
  intros Hi. destruct i; try discriminate; simpl;
    unfold load, store, gep, binop, icmp_ne, cast, call;
    repeat case_match; intros [= <-]; done.
Qed.

Lemma exec_seq_straight code m m' :
  straight code = true -> exec_seq code m = Running m' ->
  m_block m' = m_block m /\ m_pc m' = (length code + m_pc m)%nat.
Proof.
  revert m. induction code as [|i code IH]; intros m Hs; simpl.
  - by intros [= <-].
  - apply andb_true_iff in Hs as [Hi Hs]. apply negb_true_iff in Hi.
    destruct (exec i m) as [m1| |] eqn:He; try discriminate.
    intros Hr. destruct (exec_straight _ _ _ Hi He) as [Hb Hp].
    destruct (IH _ Hs Hr) as [Hb' Hp']. split; [congruence|lia].
Qed.

Lemma exec_seq_app code1 code2 m :
  exec_seq (code1 ++ code2) m =
  match exec_seq code1 m with
  | Running m' => exec_seq code2 m'
  | o => o
  end.
Proof.
  revert m. induction code1 as [|i code1 IH]; intros m; [done|].
  simpl. destruct (exec i m); auto.
Qed.

(** Running through a straight piece of a block. *)
Lemma run_seq B bb pre code post m :
  B !! m_block m = Some bb -> bb_insts bb = pre ++ code ++ post ->
  m_pc m = length pre -> straight code = true ->
  run B (length code) m = exec_seq code m.
Proof.
  revert pre m. induction code as [|i code IH]; intros pre m Hbb Hin Hpc Hs; [done|].
  apply andb_true_iff in Hs as [Hi Hs]. apply negb_true_iff in Hi.
  simpl in Hin. simpl. unfold step, fetch. rewrite Hbb, Hin, Hpc, list_lookup_middle by done.
  destruct (exec i m) as [m1| |] eqn:He; try done.
  destruct (exec_straight _ _ _ Hi He) as [Hb Hp].
  apply (IH (pre ++ [i])); [by rewrite Hb|by rewrite Hin, <- app_assoc| |done].
  rewrite Hp, Hpc, length_app. simpl. lia.
Qed.

Lemma at_cursor_spec st m :
  at_cursor st m = true <->
  exists bb, bs_insert st = Some (m_block m) /\ bs_blocks st !! m_block m = Some bb /\
             m_pc m = length (bb_insts bb).
Proof.
  unfold at_cursor. split.
  - destruct (bs_insert st) as [b|]; [|discriminate].
    destruct (bs_blocks st !! b) as [bb|] eqn:Hb; [|discriminate].
    intros [<- Hpc]%bool_decide_eq_true. by exists bb.
  - intros (bb & -> & -> & Hpc). by apply bool_decide_eq_true.
Qed.

Lemma at_cursor_has_block st m : at_cursor st m = true -> has_block st = true.
Proof.
  intros (bb & Hi & Hb & _)%at_cursor_spec. apply has_block_spec. by exists (m_block m), bb.
Qed.

(** The machine at the cursor runs what the builder appends. *)
Lemma run_emitted st m code :
  at_cursor st m = true -> straight code = true ->
  run (bs_blocks (insert_insts code st)) (length code) m = exec_seq code m.
Proof.
  intros (bb & Hi & Hb & Hpc)%at_cursor_spec Hs.
  apply (run_seq _ (append_insts code bb) (bb_insts bb) code []); [|by rewrite app_nil_r|done..].
  by rewrite insert_insts_lookup, Hi, bool_decide_eq_true_2, Hb.
Qed.

Lemma at_cursor_emitted st m m' code :
  at_cursor st m = true -> straight code = true -> exec_seq code m = Running m' ->
  at_cursor (insert_insts code st) m' = true.
Proof.
  intros (bb & Hi & Hb & Hpc)%at_cursor_spec Hs He.
  destruct (exec_seq_straight _ _ _ Hs He) as [Hb' Hpc'].
  apply at_cursor_spec. exists (append_insts code bb).
  rewrite insert_insts_insert, insert_insts_lookup, Hb', Hi, bool_decide_eq_true_2, Hb by done.
  repeat split. simpl. rewrite length_app. lia.
Qed.

Lemma at_cursor_declare_function name ft st m :
  at_cursor (declare_function name ft st) m = at_cursor st m.
Proof. unfold at_cursor. by rewrite declare_function_insert, declare_function_blocks. Qed.

(** *** The two allocations *)

Lemma view_spec st m p cells :
  view st m = Some (p, cells) <->
  exists pa ta bp bt v,
    bs_named st !! "position" = Some pa /\ bs_named st !! "tape" = Some ta /\
    (alloca_id pa < bs_next st)%nat /\ (alloca_id ta < bs_next st)%nat /\
    linked m pa ta bp bt v cells /\ p = signed 64 v.
Proof.
  unfold view. split.
  - destruct (bs_named st !! "position") as [pa|]; [|discriminate].
    destruct (bs_named st !! "tape") as [ta|]; [|discriminate].
    destruct (m_regs m !! alloca_id pa) as [[|bp op]|] eqn:Hrp; try discriminate.
    destruct (m_regs m !! alloca_id ta) as [[|bt ot]|] eqn:Hrt; try discriminate.
    destruct (m_mem m !! bp) as [[pe pc]|] eqn:Hmp; [|discriminate].
    destruct (m_mem m !! bt) as [[te tc]|] eqn:Hmt; [|discriminate].
    simpl. destruct pc as [|[v|] [|]]; try discriminate.
    case_bool_decide as H; [|discriminate].
    destruct H as (? & ? & ? & ? & -> & -> & Hpe & Hte & ? & ?). simpl in *. subst.
    intros [= <- <-]. exists pa, ta, bp, bt, v. repeat split; try done; lia.
  - intros (pa & ta & bp & bt & v & -> & -> & ? & ? & [] & ->).
    rewrite linked_preg0, linked_treg0, linked_pmem0, linked_tmem0. simpl.
    by rewrite bool_decide_eq_true_2.
Qed.

Lemma signed_range v : 0 <= v < 2 ^ 64 -> - 2 ^ 63 <= signed 64 v < 2 ^ 63.
Proof. unfold signed. intros Hv. case_match; lia. Qed.

Lemma wrap_signed v : 0 <= v < 2 ^ 64 -> wrap 64 (signed 64 v) = v.
Proof.
  unfold signed, wrap. intros Hv. case_match.
  - apply Z.mod_small. lia.
  - rewrite <- (Z.mod_small v (2 ^ 64)) at 2 by lia.
    rewrite <- (Z.mod_add v (-1) (2 ^ 64)) by lia. f_equal; lia.
Qed.

Lemma signed_small p : 0 <= p < 2 ^ 63 -> signed 64 (wrap 64 p) = p.
Proof.
  intros Hp. unfold signed, wrap. rewrite Z.mod_small by lia.
  rewrite (proj2 (Z.ltb_lt _ _)); lia.
Qed.

Lemma signed_minus_one : signed 64 (wrap 64 (0 - 1)) = -1.
Proof. reflexivity. Qed.

Lemma wrap_range p : 0 <= wrap 64 p < 2 ^ 64.
Proof. apply Z.mod_pos_bound. lia. Qed.

(** *** Single instructions *)

Lemma eval_next_with_eq m id r : eval (next_with m id r) (Inst id) = Some r.
Proof. simpl. apply lookup_insert_eq. Qed.

Lemma eval_next_with_ne m id r j :
  id <> j -> eval (next_with m id r) (Inst j) = eval m (Inst j).
Proof. intros. simpl. by apply lookup_insert_ne. Qed.

Lemma cell_at_spec p cells c :
  cell_at p cells = Some c <-> 0 <= p /\ cells !! Z.to_nat p = Some (Some c).
Proof.
  unfold cell_at. destruct (Z.leb_spec 0 p) as [Hp|Hp].
  - destruct (cells !! Z.to_nat p) as [[c'|]|]; simpl; split;
      (intros [= ->] || intros [_ [= ->]] || intros [_ [=]]); auto.
  - split; [discriminate|lia].
Qed.

Lemma in_bounds_spec off blk :
  in_bounds off blk = true <-> 0 <= off < Z.of_nat (length (mb_cells blk)).
Proof. unfold in_bounds. rewrite andb_true_iff, Z.leb_le, Z.ltb_lt. tauto. Qed.

Lemma cell_at_in_bounds p cells c elt :
  cell_at p cells = Some c -> in_bounds p {| mb_elt := elt; mb_cells := cells |} = true.
Proof.
  intros [Hp Hc]%cell_at_spec. apply in_bounds_spec. simpl.
  apply lookup_lt_Some in Hc. lia.
Qed.

Lemma load_ok m id t ptr b off blk c :
  eval m ptr = Some (RPtr b off) -> m_mem m !! b = Some blk -> mb_elt blk = t ->
  cell_at off (mb_cells blk) = Some c ->
  load m id t ptr = Running (next_with m id (RInt (int_bits t) c)).
Proof.
  intros He Hm Ht Hc. unfold load. rewrite He, Hm.
  destruct blk as [elt cells]. simpl in *.
  rewrite (cell_at_in_bounds _ _ _ elt Hc). simpl.
  rewrite bool_decide_eq_true_2 by done. simpl.
  apply cell_at_spec in Hc as [_ ->]. done.
Qed.

Lemma load_out_of_bounds m id t ptr b off blk :
  eval m ptr = Some (RPtr b off) -> m_mem m !! b = Some blk ->
  ~ (0 <= off < Z.of_nat (length (mb_cells blk))) ->
  load m id t ptr = Faulted OutOfBounds.
Proof.
  intros He Hm Hoff. unfold load. rewrite He, Hm.
  rewrite <- in_bounds_spec in Hoff. apply not_true_is_false in Hoff. by rewrite Hoff.
Qed.

Lemma store_ok m id ptr b off blk w c :
  eval m ptr = Some (RPtr b off) -> m_mem m !! b = Some blk ->
  eval m (Inst id) = Some (RInt w c) -> mb_elt blk = IntTy w ->
  0 <= off < Z.of_nat (length (mb_cells blk)) ->
  store m (Inst id) ptr =
  Running (next_mem m (<[b := set_cells blk (<[Z.to_nat off := Some c]> (mb_cells blk))]>
                         (m_mem m))).
Proof.
  intros He Hm Hv Ht Hoff. unfold store. rewrite He, Hm, Hv.
  apply in_bounds_spec in Hoff. rewrite Hoff. simpl.
  by rewrite bool_decide_eq_true_2.
Qed.

Lemma store_out_of_bounds m id ptr b off blk w c :
  eval m ptr = Some (RPtr b off) -> m_mem m !! b = Some blk ->
  eval m (Inst id) = Some (RInt w c) ->
  ~ (0 <= off < Z.of_nat (length (mb_cells blk))) ->
  store m (Inst id) ptr = Faulted OutOfBounds.
Proof.
  intros He Hm Hv Hoff. unfold store. rewrite He, Hm, Hv.
  rewrite <- in_bounds_spec in Hoff. apply not_true_is_false in Hoff. by rewrite Hoff.
Qed.

(** *** [linked] only looks at two registers and two allocations *)

Lemma linked_change m m' pa ta bp bt v cells :
  linked m pa ta bp bt v cells ->
  m_regs m' !! alloca_id pa = m_regs m !! alloca_id pa ->
  m_regs m' !! alloca_id ta = m_regs m !! alloca_id ta ->
  m_mem m' = m_mem m ->
  linked m' pa ta bp bt v cells.
Proof. intros [] Hp Ht Hm. constructor; congruence. Qed.

Lemma linked_next_with m pa ta bp bt v cells id r :
  linked m pa ta bp bt v cells -> alloca_id pa <> id -> alloca_id ta <> id ->
  linked (next_with m id r) pa ta bp bt v cells.
Proof.
  intros H Hp Ht. eapply linked_change; [exact H|..]; simpl;
    [by rewrite lookup_insert_ne..|done].
Qed.

Lemma linked_distinct m pa ta bp bt v cells : linked m pa ta bp bt v cells -> bp <> bt.
Proof. intros [? ? ? ? Hp Ht ? ?] ->. rewrite Hp in Ht. discriminate. Qed.

Lemma linked_store_tape m pa ta bp bt v cells cells' :
  linked m pa ta bp bt v cells -> length cells' = length cells ->
  linked (next_mem m (<[bt := {| mb_elt := Int8Ty; mb_cells := cells' |}]> (m_mem m)))
         pa ta bp bt v cells'.
Proof.
  intros H Hlen. pose proof (linked_distinct _ _ _ _ _ _ _ H) as Hne. destruct H.
  constructor; simpl; try done.
  - by rewrite list_lookup_insert_ne.
  - apply list_lookup_insert_eq. by eapply lookup_lt_Some.
  - by rewrite Hlen.
Qed.

Lemma linked_store_position m pa ta bp bt v cells v' :
  linked m pa ta bp bt v cells -> 0 <= v' < 2 ^ 64 ->
  linked (next_mem m (<[bp := {| mb_elt := Int64Ty; mb_cells := [Some v'] |}]> (m_mem m)))
         pa ta bp bt v' cells.
Proof.
  intros H Hv. pose proof (linked_distinct _ _ _ _ _ _ _ H) as Hne. destruct H.
  constructor; simpl; try done.
  - apply list_lookup_insert_eq. by eapply lookup_lt_Some.
  - by rewrite list_lookup_insert_ne.
Qed.

(** *** The pieces of code *)

Section Pieces.
Context (m : Machine) (pa ta : AllocaInst) (bp bt : nat) (v : Z)
        (cells : list (option Z)) (k : nat).
Hypothesis Hl : linked m pa ta bp bt v cells.
Hypothesis Hpk : (alloca_id pa < k)%nat.
Hypothesis Htk : (alloca_id ta < k)%nat.

Lemma exec_cell_ptr_code :
  exec_seq (cell_ptr_code k pa ta) m = Running (with_cell_ptr m bt v k).
Proof.
  destruct Hl. unfold cell_ptr_code. cbn [exec_seq exec].
  erewrite load_ok; [|simpl; eassumption|eassumption|by rewrite linked_pty0|reflexivity].
  rewrite linked_pty0. unfold gep. rewrite linked_tty0.
  rewrite eval_next_with_ne, eval_next_with_eq by lia.
  cbn [eval Int8Ty]. rewrite linked_treg0.
  unfold with_cell_ptr. do 3 f_equal.
Qed.

Lemma linked_with_cell_ptr : linked (with_cell_ptr m bt v k) pa ta bp bt v cells.
Proof.
  unfold with_cell_ptr. apply linked_next_with; [|lia..].
  by apply linked_next_with; [|lia..].
Qed.

Lemma eval_cell_ptr : eval (with_cell_ptr m bt v k) (Inst (1 + k)) = Some (RPtr bt (signed 64 v)).
Proof. apply eval_next_with_eq. Qed.

Let p := signed 64 v.

Lemma exec_load_cell name rest c :
  cell_at p cells = Some c ->
  exec_seq (cell_ptr_code k pa ta ++ Load (2 + k) Int8Ty (Inst (1 + k)) name :: rest) m
  = exec_seq rest (with_cell m bt v k c).
Proof.
  intros Hc. rewrite exec_seq_app, exec_cell_ptr_code. cbn [exec_seq exec].
  erewrite load_ok; [done|apply eval_cell_ptr|apply Hl|done|exact Hc].
Qed.

Lemma exec_load_cell_out_of_bounds name rest :
  ~ (0 <= p < TAPE_SIZE) ->
  exec_seq (cell_ptr_code k pa ta ++ Load (2 + k) Int8Ty (Inst (1 + k)) name :: rest) m
  = Faulted OutOfBounds.
Proof.
  intros Hp. rewrite exec_seq_app, exec_cell_ptr_code. cbn [exec_seq exec].
  erewrite load_out_of_bounds; [done|apply eval_cell_ptr|apply Hl|].
  simpl. by rewrite (linked_length _ _ _ _ _ _ _ Hl).
Qed.

Lemma linked_with_cell c : linked (with_cell m bt v k c) pa ta bp bt v cells.
Proof. apply linked_next_with; [apply linked_with_cell_ptr|lia..]. Qed.

Lemma cell_in_tape c : cell_at p cells = Some c -> 0 <= p < TAPE_SIZE.
Proof.
  intros [Hp Hc]%cell_at_spec. apply lookup_lt_Some in Hc.
  rewrite <- (linked_length _ _ _ _ _ _ _ Hl). lia.
Qed.

(** [+] and [-]: the cell becomes [c + 1] or [c - 1], wrapped to 8 bits. *)
Lemma exec_arith (mk : nat -> Value -> Value -> string -> Instruction) (f : Z -> Z -> Z) c :
  (forall m' id lhs rhs name, exec (mk id lhs rhs name) m' = binop f m' id lhs rhs) ->
  cell_at p cells = Some c ->
  exists m',
    exec_seq (cell_ptr_code k pa ta ++
              [Load (2 + k) Int8Ty (Inst (1 + k)) "tape cell";
               mk (3 + k)%nat (Inst (2 + k)) (ConstantInt Int8Ty 1) "new tape value";
               Store (Inst (3 + k)) (Inst (1 + k))]) m = Running m' /\
    linked m' pa ta bp bt v (<[Z.to_nat p := Some (wrap 8 (f c 1))]> cells) /\
    m_trace m' = m_trace m /\ m_input m' = m_input m.
Proof.
  intros Hmk Hc. rewrite (exec_load_cell _ _ c Hc). cbn [exec_seq]. rewrite Hmk.
  unfold binop, with_cell. rewrite eval_next_with_eq. cbn [eval Int8Ty].
  rewrite bool_decide_eq_true_2 by done. cbn [exec_seq exec].
  pose proof (cell_in_tape c Hc) as Hp.
  erewrite store_ok;
    [|rewrite !eval_next_with_ne by lia; apply eval_cell_ptr
     |apply Hl|apply eval_next_with_eq|done
     |simpl; by rewrite (linked_length _ _ _ _ _ _ _ Hl)].
  eexists. split; [done|]. split; [|done].
  apply (linked_store_tape _ _ _ _ _ _ cells); [|apply length_insert].
  apply linked_next_with; [apply linked_with_cell|lia..].
Qed.

Lemma exec_increment_code c :
  cell_at p cells = Some c ->
  exists m',
    exec_seq (increment_code k pa ta) m = Running m' /\
    linked m' pa ta bp bt v (<[Z.to_nat p := Some (wrap 8 (c + 1))]> cells) /\
    m_trace m' = m_trace m /\ m_input m' = m_input m.
Proof. by apply (exec_arith Add Z.add). Qed.

Lemma exec_decrement_code c :
  cell_at p cells = Some c ->
  exists m',
    exec_seq (decrement_code k pa ta) m = Running m' /\
    linked m' pa ta bp bt v (<[Z.to_nat p := Some (wrap 8 (c - 1))]> cells) /\
    m_trace m' = m_trace m /\ m_input m' = m_input m.
Proof. by apply (exec_arith Sub Z.sub). Qed.

(** [<] and [>]: the pointer becomes [v - 1] or [v + 1], wrapped to 64 bits. *)
Lemma exec_move (mk : nat -> Value -> Value -> string -> Instruction) (f : Z -> Z -> Z) :
  (forall m' id lhs rhs name, exec (mk id lhs rhs name) m' = binop f m' id lhs rhs) ->
  exists m',
    exec_seq [Load k (alloca_ty pa) (Inst (alloca_id pa)) "position";
              mk (1 + k)%nat (Inst k) (ConstantInt Int64Ty 1) "next position";
              Store (Inst (1 + k)) (Inst (alloca_id pa))] m = Running m' /\
    linked m' pa ta bp bt (wrap 64 (f v 1)) cells /\
    m_trace m' = m_trace m /\ m_input m' = m_input m.
Proof.
  intros Hmk. cbn [exec_seq exec].
  erewrite load_ok; [|simpl; apply Hl|apply Hl|by rewrite (linked_pty _ _ _ _ _ _ _ Hl)
                     |reflexivity].
  rewrite Hmk. unfold binop. rewrite eval_next_with_eq.
  rewrite (linked_pty _ _ _ _ _ _ _ Hl). cbn [eval Int64Ty int_bits].
  rewrite bool_decide_eq_true_2 by done. cbn [exec_seq exec].
  erewrite store_ok;
    [|rewrite !eval_next_with_ne by lia; simpl; apply Hl
     |apply Hl|apply eval_next_with_eq|done|simpl; lia].
  eexists. split; [done|]. split; [|done].
  apply (linked_store_position _ _ _ _ _ v); [|apply wrap_range].
  apply linked_next_with; [|lia..]. apply linked_next_with; [exact Hl|lia..].
Qed.

Lemma exec_move_left_code :
  exists m',
    exec_seq (move_left_code k pa) m = Running m' /\
    linked m' pa ta bp bt (wrap 64 (v - 1)) cells /\
    m_trace m' = m_trace m /\ m_input m' = m_input m.
Proof. by apply (exec_move Sub Z.sub). Qed.

Lemma exec_move_right_code :
  exists m',
    exec_seq (move_right_code k pa) m = Running m' /\
    linked m' pa ta bp bt (wrap 64 (v + 1)) cells /\
    m_trace m' = m_trace m /\ m_input m' = m_input m.
Proof. by apply (exec_move Add Z.add). Qed.

(** [.]: one call of [putchar], with the current cell. *)
Lemma exec_putchar_code c :
  cell_at p cells = Some c ->
  exists m',
    exec_seq (putchar_code k pa ta) m = Running m' /\
    linked m' pa ta bp bt v cells /\
    m_trace m' = m_trace m ++ [EvPutchar c] /\ m_input m' = m_input m.
Proof.
  intros Hc. unfold putchar_code. rewrite (exec_load_cell _ _ c Hc). cbn [exec_seq exec call].
  unfold with_cell at 1. rewrite eval_next_with_eq. eexists. split; [done|]. split; [|done].
  eapply linked_change; [apply (linked_with_cell c)|simpl..|done];
    by rewrite lookup_insert_ne by lia.
Qed.

(** The test at both ends of a group: is the current cell not zero? *)
Lemma exec_cell_test_code c :
  cell_at p cells = Some c ->
  exists m',
    exec_seq (cell_test_code k pa ta) m = Running m' /\
    eval m' (Inst (3 + k)) = Some (RInt 1 (if bool_decide (c = 0) then 0 else 1)) /\
    linked m' pa ta bp bt v cells /\ m_mem m' = m_mem m /\
    m_trace m' = m_trace m /\ m_input m' = m_input m.
Proof.
  intros Hc. unfold cell_test_code. rewrite (exec_load_cell _ _ c Hc). cbn [exec_seq exec].
  unfold icmp_ne, with_cell. rewrite eval_next_with_eq. cbn [eval Int8Ty].
  rewrite bool_decide_eq_true_2 by done.
  eexists. split; [done|]. split; [apply eval_next_with_eq|]. split; [|done].
  apply linked_next_with; [apply linked_with_cell|lia..].
Qed.

End Pieces.

(** [,]: one call of [getchar]; its result, cut to 8 bits, goes to the
    current cell. *)

Lemma exec_getchar_call m k :
  exec (Call k getchar_type (Func "getchar") [] "getchar()") m =
  Running {| m_regs := <[k := RInt 32 (getchar_result (m_input m))]> (m_regs m);
             m_mem := m_mem m; m_input := tail (m_input m);
             m_trace := m_trace m ++ [EvGetchar (getchar_result (m_input m))];
             m_block := m_block m; m_pc := S (m_pc m) |}.
Proof. reflexivity. Qed.

Lemma exec_getchar_code m pa ta bp bt v cells k :
  linked m pa ta bp bt v cells -> (alloca_id pa < k)%nat -> (alloca_id ta < k)%nat ->
  0 <= signed 64 v < TAPE_SIZE ->
  exists m',
    exec_seq (getchar_code k pa ta) m = Running m' /\
    linked m' pa ta bp bt v
      (<[Z.to_nat (signed 64 v) := Some (wrap 8 (getchar_result (m_input m)))]> cells) /\
    m_trace m' = m_trace m ++ [EvGetchar (getchar_result (m_input m))] /\
    m_input m' = tail (m_input m).
Proof.
  intros Hl Hpk Htk Hp. unfold getchar_code.
  cbn [app exec_seq]. rewrite exec_getchar_call.
  set (m1 := {| m_regs := _ |}). cbn [exec_seq exec cast].
  assert (He1 : eval m1 (Inst k) = Some (RInt 32 (getchar_result (m_input m))))
    by apply lookup_insert_eq.
  unfold cast. rewrite He1.
  set (m2 := next_with m1 _ _).
  assert (Hl2 : linked m2 pa ta bp bt v cells).
  { apply linked_next_with; [|lia..].
    eapply linked_change; [exact Hl|subst m1; simpl..|done];
      by rewrite lookup_insert_ne by lia. }
  rewrite exec_seq_app, (exec_cell_ptr_code m2 pa ta bp bt v cells (2 + k)) by (done || lia).
  cbn [exec_seq exec].
  erewrite store_ok;
    [|apply (eval_cell_ptr m2)|apply Hl2
     |unfold with_cell_ptr; rewrite !eval_next_with_ne by lia; apply eval_next_with_eq
     |done|simpl; by rewrite (linked_length _ _ _ _ _ _ _ Hl)].
  eexists. split; [done|]. split; [|done].
  apply (linked_store_tape _ _ _ _ _ _ cells); [|apply length_insert].
  by apply linked_with_cell_ptr; [|lia..].
Qed.

Lemma exec_getchar_code_out_of_bounds m pa ta bp bt v cells k :
  linked m pa ta bp bt v cells -> (alloca_id pa < k)%nat -> (alloca_id ta < k)%nat ->
  ~ (0 <= signed 64 v < TAPE_SIZE) ->
  exec_seq (getchar_code k pa ta) m = Faulted OutOfBounds.
Proof.
  intros Hl Hpk Htk Hp. unfold getchar_code.
  cbn [app exec_seq]. rewrite exec_getchar_call.
  set (m1 := {| m_regs := _ |}). cbn [exec_seq exec cast].
  assert (He1 : eval m1 (Inst k) = Some (RInt 32 (getchar_result (m_input m))))
    by apply lookup_insert_eq.
  unfold cast. rewrite He1.
  set (m2 := next_with m1 _ _).
  assert (Hl2 : linked m2 pa ta bp bt v cells).
  { apply linked_next_with; [|lia..].
    eapply linked_change; [exact Hl|subst m1; simpl..|done];
      by rewrite lookup_insert_ne by lia. }
  rewrite exec_seq_app, (exec_cell_ptr_code m2 pa ta bp bt v cells (2 + k)) by (done || lia).
  cbn [exec_seq exec].
  erewrite store_out_of_bounds;
    [done|apply (eval_cell_ptr m2)|apply Hl2
     |unfold with_cell_ptr; rewrite !eval_next_with_ne by lia; apply eval_next_with_eq
     |simpl; by rewrite (linked_length _ _ _ _ _ _ _ Hl)].
Qed.

(** *** From pieces of code to nodes *)

Lemma view_cursor_ready st m p cells :
  view st m = Some (p, cells) -> at_cursor st m = true -> ready st = true.
Proof.
  intros (pa & ta & _ & _ & _ & Hp & Ht & _)%view_spec (bb & Hi & Hb & _)%at_cursor_spec.
  apply ready_spec. by exists (m_block m), bb, pa, ta.
Qed.

Lemma same_code_refl st : same_code st st.
Proof. done. Qed.

Lemma same_code_declare_function name ft st : same_code st (declare_function name ft st).
Proof.
  repeat split; auto using declare_function_blocks, declare_function_insert,
    declare_function_named, declare_function_next.
Qed.

Lemma at_cursor_same_code st st0 m : same_code st st0 -> at_cursor st0 m = at_cursor st m.
Proof. intros (Hb & Hi & _). unfold at_cursor. by rewrite Hb, Hi. Qed.

Lemma emitted_node st st0 m code m' pa ta bp bt v' cells' :
  same_code st st0 ->
  at_cursor st m = true -> straight code = true -> exec_seq code m = Running m' ->
  bs_named st !! "position" = Some pa -> bs_named st !! "tape" = Some ta ->
  (alloca_id pa < bs_next st)%nat -> (alloca_id ta < bs_next st)%nat ->
  linked m' pa ta bp bt v' cells' ->
  run (bs_blocks (insert_insts code st0)) (length code) m = Running m' /\
  view (insert_insts code st0) m' = Some (signed 64 v', cells') /\
  at_cursor (insert_insts code st0) m' = true.
Proof.
  intros Hsame Hcur Hs He Hp Ht Hpk Htk Hl.
  pose proof Hsame as (Hb & Hi & Hn & Hk).
  rewrite <- (at_cursor_same_code _ _ _ Hsame) in Hcur.
  split; [by rewrite run_emitted|]. split; [|by eapply at_cursor_emitted].
  apply view_spec. exists pa, ta, bp, bt, v'.
  rewrite insert_insts_named, insert_insts_next, Hn, Hk.
  split; [done|]. split; [done|]. split; [lia|]. split; [lia|]. by split.
Qed.

Section Nodes.
Context (st : BuilderState) (m : Machine) (p : Z) (cells : list (option Z)).
Hypothesis Hview : view st m = Some (p, cells).
Hypothesis Hcur : at_cursor st m = true.

Lemma run_IncrementNode c :
  cell_at p cells = Some c ->
  exists st' m', node_runs IncrementNode st m 5 st' m' /\
    view st' m' = Some (p, <[Z.to_nat p := Some (wrap 8 (c + 1))]> cells) /\
    m_trace m' = m_trace m /\ m_input m' = m_input m.
Proof.
  intros Hc. apply view_spec in Hview as (pa & ta & bp & bt & v & Hp & Ht & Hpk & Htk & Hl & ->).
  destruct (exec_increment_code m pa ta bp bt v cells (bs_next st) Hl Hpk Htk c Hc)
    as (m' & He & Hl' & Htr & Hin).
  destruct (emitted_node st st m (increment_code (bs_next st) pa ta) m' pa ta bp bt _ _
              (same_code_refl st) Hcur eq_refl He
              Hp Ht Hpk Htk Hl') as (Hr & Hv & Hc').
  eexists _, m'. split; [split; [by (apply codegen_IncrementNode; [apply (at_cursor_has_block _ m Hcur)|..])|by split]|]. by split.
Qed.

Lemma run_DecrementNode c :
  cell_at p cells = Some c ->
  exists st' m', node_runs DecrementNode st m 5 st' m' /\
    view st' m' = Some (p, <[Z.to_nat p := Some (wrap 8 (c - 1))]> cells) /\
    m_trace m' = m_trace m /\ m_input m' = m_input m.
Proof.
  intros Hc. apply view_spec in Hview as (pa & ta & bp & bt & v & Hp & Ht & Hpk & Htk & Hl & ->).
  destruct (exec_decrement_code m pa ta bp bt v cells (bs_next st) Hl Hpk Htk c Hc)
    as (m' & He & Hl' & Htr & Hin).
  destruct (emitted_node st st m (decrement_code (bs_next st) pa ta) m' pa ta bp bt _ _
              (same_code_refl st) Hcur eq_refl He
              Hp Ht Hpk Htk Hl') as (Hr & Hv & Hc').
  eexists _, m'. split; [split; [by (apply codegen_DecrementNode; [apply (at_cursor_has_block _ m Hcur)|..])|by split]|]. by split.
Qed.

Lemma run_MoveLeftNode :
  exists st' m', node_runs MoveLeftNode st m 3 st' m' /\
    view st' m' = Some (signed 64 (wrap 64 (p - 1)), cells) /\
    m_trace m' = m_trace m /\ m_input m' = m_input m.
Proof.
  apply view_spec in Hview as (pa & ta & bp & bt & v & Hp & Ht & Hpk & Htk & Hl & ->).
  destruct (exec_move_left_code m pa ta bp bt v cells (bs_next st) Hl Hpk Htk)
    as (m' & He & Hl' & Htr & Hin).
  destruct (emitted_node st st m (move_left_code (bs_next st) pa) m' pa ta bp bt _ _
              (same_code_refl st) Hcur eq_refl He
              Hp Ht Hpk Htk Hl') as (Hr & Hv & Hc').
  eexists _, m'. split; [split; [by (apply codegen_MoveLeftNode; [apply (at_cursor_has_block _ m Hcur)|..])|by split]|].
  split; [|done]. rewrite Hv. do 3 f_equal.
  unfold wrap. rewrite <- (wrap_signed v) at 1 by apply Hl. unfold wrap.
  by rewrite Zminus_mod_idemp_l.
Qed.

Lemma run_MoveRightNode :
  exists st' m', node_runs MoveRightNode st m 3 st' m' /\
    view st' m' = Some (signed 64 (wrap 64 (p + 1)), cells) /\
    m_trace m' = m_trace m /\ m_input m' = m_input m.
Proof.
  apply view_spec in Hview as (pa & ta & bp & bt & v & Hp & Ht & Hpk & Htk & Hl & ->).
  destruct (exec_move_right_code m pa ta bp bt v cells (bs_next st) Hl Hpk Htk)
    as (m' & He & Hl' & Htr & Hin).
  destruct (emitted_node st st m (move_right_code (bs_next st) pa) m' pa ta bp bt _ _
              (same_code_refl st) Hcur eq_refl He
              Hp Ht Hpk Htk Hl') as (Hr & Hv & Hc').
  eexists _, m'. split; [split; [by (apply codegen_MoveRightNode; [apply (at_cursor_has_block _ m Hcur)|..])|by split]|].
  split; [|done]. rewrite Hv. do 3 f_equal.
  unfold wrap. rewrite <- (wrap_signed v) at 1 by apply Hl. unfold wrap.
  by rewrite Zplus_mod_idemp_l.
Qed.

Lemma run_PutCharNode c :
  cell_at p cells = Some c ->
  exists st' m', node_runs PutCharNode st m 4 st' m' /\
    view st' m' = Some (p, cells) /\
    m_trace m' = m_trace m ++ [EvPutchar c] /\ m_input m' = m_input m.
Proof.
  intros Hc. apply view_spec in Hview as (pa & ta & bp & bt & v & Hp & Ht & Hpk & Htk & Hl & ->).
  destruct (exec_putchar_code m pa ta bp bt v cells (bs_next st) Hl Hpk Htk c Hc)
    as (m' & He & Hl' & Htr & Hin).
  destruct (emitted_node st _ m (putchar_code (bs_next st) pa ta) m' pa ta bp bt _ _
              (same_code_declare_function "putchar" putchar_type st) Hcur eq_refl He
              Hp Ht Hpk Htk Hl') as (Hr & Hv & Hc').
  eexists _, m'. split; [split; [by (apply codegen_PutCharNode; [apply (at_cursor_has_block _ m Hcur)|..])|by split]|]. by split.
Qed.

Lemma run_GetCharNode :
  0 <= p < TAPE_SIZE ->
  exists st' m', node_runs GetCharNode st m 5 st' m' /\
    view st' m' =
      Some (p, <[Z.to_nat p := Some (wrap 8 (getchar_result (m_input m)))]> cells) /\
    m_trace m' = m_trace m ++ [EvGetchar (getchar_result (m_input m))] /\
    m_input m' = tail (m_input m).
Proof.
  intros Hb. apply view_spec in Hview as (pa & ta & bp & bt & v & Hp & Ht & Hpk & Htk & Hl & ->).
  destruct (exec_getchar_code m pa ta bp bt v cells (bs_next st) Hl Hpk Htk Hb)
    as (m' & He & Hl' & Htr & Hin).
  destruct (emitted_node st _ m (getchar_code (bs_next st) pa ta) m' pa ta bp bt _ _
              (same_code_declare_function "getchar" getchar_type st) Hcur eq_refl He
              Hp Ht Hpk Htk Hl') as (Hr & Hv & Hc').
  eexists _, m'. split; [split; [by (apply codegen_GetCharNode; [apply (at_cursor_has_block _ m Hcur)|..])|by split]|]. by split.
Qed.

End Nodes.

End ExecFacts.

(* ===================================================================== *)
(** ** Groups: the three regions *)
(* ===================================================================== *)

Section GroupFacts.

Implicit Types (st : BuilderState) (m : Machine) (pa ta : AllocaInst).

Lemma group_exit_state_blocks st st_c pa ta j :
  bs_blocks (group_exit_state st st_c pa ta) !! j =
  if bool_decide (bs_insert st_c = Some j)
  then append_insts (cell_test_code (bs_next st_c) pa ta ++
                     [CondBr (Inst (3 + bs_next st_c)) (length (bs_blocks st))
                        (S (length (bs_blocks st)))])
         <$> bs_blocks st_c !! j
  else bs_blocks st_c !! j.
Proof.
  unfold group_exit_state.
  change (bs_blocks (set_insert ?i ?s)) with (bs_blocks s).
  rewrite insert_inst_as_insts, <- insert_insts_app. apply insert_insts_lookup.
Qed.

Lemma group_body_state_length st b bb pa ta :
  bs_insert st = Some b -> bs_blocks st !! b = Some bb ->
  length (bs_blocks (group_body_state st bb pa ta)) = S (S (length (bs_blocks st))).
Proof.
  intros Hi Hb. pose proof (lookup_lt_Some _ _ _ Hb) as Hlt.
  pose proof (group_body_state_blocks st b bb pa ta Hi Hb (S (length (bs_blocks st)))) as H1.
  pose proof (group_body_state_blocks st b bb pa ta Hi Hb (S (S (length (bs_blocks st))))) as H2.
  rewrite bool_decide_eq_false_2 in H1, H2 by lia.
  rewrite bool_decide_eq_false_2 in H1, H2 by lia.
  rewrite bool_decide_eq_true_2 in H1 by done.
  rewrite bool_decide_eq_false_2 in H2 by lia.
  rewrite (lookup_ge_None_2 (bs_blocks st)) in H2 by lia.
  apply lookup_lt_Some in H1. apply lookup_ge_None_1 in H2. lia.
Qed.

(** The shape of the code of a group. *)
Lemma group_shape children st b bb pa ta :
  bs_insert st = Some b -> bs_blocks st !! b = Some bb ->
  bs_named st !! "position" = Some pa -> bs_named st !! "tape" = Some ta ->
  exists st_c pa' ta' bc bbc,
    for_each codegen children (group_body_state st bb pa ta) = Some (tt, st_c) /\
    bs_named st_c !! "position" = Some pa' /\ bs_named st_c !! "tape" = Some ta' /\
    bs_insert st_c = Some bc /\ bs_blocks st_c !! bc = Some bbc /\
    (instructions children = true -> bs_named st_c = bs_named st) /\
    codegen (ConditionalGroupNode children) st
      = Some (tt, group_exit_state st st_c pa' ta') /\
    bs_blocks (group_exit_state st st_c pa' ta') !! b =
      Some (append_insts
              (cell_test_code (bs_next st) pa ta ++
               [CondBr (Inst (3 + bs_next st)) (length (bs_blocks st))
                  (S (length (bs_blocks st)))]) bb) /\
    bs_blocks (group_exit_state st st_c pa' ta') !! bc =
      Some (append_insts
              (cell_test_code (bs_next st_c) pa' ta' ++
               [CondBr (Inst (3 + bs_next st_c)) (length (bs_blocks st))
                  (S (length (bs_blocks st)))]) bbc) /\
    bs_blocks (group_exit_state st st_c pa' ta') !! S (length (bs_blocks st)) =
      Some {| bb_name := "merge"; bb_parent := bb_parent bb; bb_insts := [] |} /\
    (bc = length (bs_blocks st) \/ S (length (bs_blocks st)) < bc)%nat /\
    frame (group_body_state st bb pa ta) st_c.
Proof.
  intros Hi Hb Hp Ht.
  pose proof (lookup_lt_Some _ _ _ Hb) as Hlt.
  pose proof (group_body_state_ready st b bb pa ta Hi Hb
                (mk_is_Some _ _ Hp) (mk_is_Some _ _ Ht)) as Hrb.
  destruct (for_each_codegen_ok children _ Hrb) as (st_c & Hfe & Hfc & Hrc & Hnc).
  pose proof Hrc as (bc & bbc & pa' & ta' & Hic & Hbc & Hpc & Htc)%ready_spec.
  exists st_c, pa', ta', bc, bbc.
  assert (Hbc' : (bc = length (bs_blocks st) \/ S (length (bs_blocks st)) < bc)%nat).
  { destruct Hfc as (_ & _ & _ & [Hsame|(i & Hi' & Hle)] & _).
    - left. unfold group_body_state in Hsame. simpl in Hsame. congruence.
    - right. rewrite (group_body_state_length st b bb pa ta Hi Hb) in Hle.
      assert (i = bc) by congruence. lia. }
  split; [exact Hfe|]. split; [exact Hpc|]. split; [exact Htc|].
  split; [exact Hic|]. split; [exact Hbc|].
  split. { intros H. rewrite (Hnc H). apply group_body_state_named. }
  split.
  { rewrite (codegen_ConditionalGroupNode _ _ _ _ _ _ Hi Hb Hp Ht).
    by rewrite Hfe, Htc, Hpc, (ready_has_block _ Hrc). }
  assert (Hkeep : forall j blk, j <> length (bs_blocks st) ->
            bs_blocks (group_body_state st bb pa ta) !! j = Some blk ->
            bs_blocks st_c !! j = Some blk).
  { intros j blk Hj Hl. destruct Hfc as (_ & _ & Hblk & _).
    destruct (Hblk j blk Hl) as (code & -> & Hcode).
    rewrite Hcode, append_insts_nil; [done|].
    unfold group_body_state. simpl. congruence. }
  split; [|split; [|split; [|split; [exact Hbc'|exact Hfc]]]].
  - rewrite group_exit_state_blocks, Hic, bool_decide_eq_false_2 by (intros [= ->]; lia).
    apply Hkeep; [lia|]. rewrite (group_body_state_blocks st b bb pa ta Hi Hb).
    by rewrite bool_decide_eq_true_2.
  - rewrite group_exit_state_blocks, Hic, bool_decide_eq_true_2, Hbc by done. done.
  - rewrite group_exit_state_blocks, Hic, bool_decide_eq_false_2 by (intros [= ->]; lia).
    apply Hkeep; [lia|]. rewrite (group_body_state_blocks st b bb pa ta Hi Hb).
    rewrite bool_decide_eq_false_2 by lia. rewrite bool_decide_eq_false_2 by lia.
    by rewrite bool_decide_eq_true_2.
Qed.

(** Running the test and the branch that follows it. *)
Lemma run_cell_test B bb pre post m pa ta bp bt v cells k c if_true if_false :
  B !! m_block m = Some bb ->
  bb_insts bb = pre ++ (cell_test_code k pa ta ++ [CondBr (Inst (3 + k)) if_true if_false])
                ++ post ->
  m_pc m = length pre ->
  linked m pa ta bp bt v cells -> (alloca_id pa < k)%nat -> (alloca_id ta < k)%nat ->
  cell_at (signed 64 v) cells = Some c ->
  exists m',
    run B 5 m = Running m' /\
    m_block m' = (if bool_decide (c = 0) then if_false else if_true) /\ m_pc m' = O /\
    linked m' pa ta bp bt v cells /\ m_mem m' = m_mem m /\
    m_trace m' = m_trace m /\ m_input m' = m_input m.
Proof.
  intros HB Hin Hpc Hl Hpk Htk Hc.
  destruct (exec_cell_test_code m pa ta bp bt v cells k Hl Hpk Htk c Hc)
    as (m4 & He & Hev & Hl4 & Hmem & Htr & Hinp).
  rewrite <- app_assoc in Hin.
  pose proof (run_seq B bb pre (cell_test_code k pa ta) _ m HB Hin Hpc eq_refl) as Hrun.
  rewrite He in Hrun.
  destruct (exec_seq_straight (cell_test_code k pa ta) m m4 eq_refl He) as [Hb4 Hpc4].
  change 5%nat with (length (cell_test_code k pa ta) + 1)%nat.
  rewrite run_plus, Hrun. cbn [run]. unfold step, fetch.
  rewrite Hb4, HB, Hin, Hpc4, Hpc.
  rewrite lookup_app_r by lia. rewrite lookup_app_r by lia.
  replace (length (cell_test_code k pa ta) + length pre - length pre
           - length (cell_test_code k pa ta))%nat with O by lia.
  cbn [lookup list_lookup app exec]. rewrite Hev.
  eexists. split; [done|]. cbn [jump m_block m_pc m_mem m_trace m_input].
  split; [|split; [done|split; [|done]]].
  - destruct (bool_decide (c = 0)); done.
  - eapply linked_change; [exact Hl4|done..].
Qed.

End GroupFacts.

(* ===================================================================== *)
(** ** Outside the tape, and repeated increments *)
(* ===================================================================== *)

Section TapeFacts.

Implicit Types (st : BuilderState) (m : Machine).

(** Any node that touches the current cell faults when the pointer is not
    an index of the tape. *)
Lemma run_out_of_bounds n st m p cells :
  accesses_cell n = true ->
  view st m = Some (p, cells) -> at_cursor st m = true -> ~ (0 <= p < TAPE_SIZE) ->
  exists st' steps,
    codegen n st = Some (tt, st') /\ run (bs_blocks st') steps m = Faulted OutOfBounds.
Proof.
  intros Hn (pa & ta & bp & bt & v & Hp & Ht & Hpk & Htk & Hl & ->)%view_spec Hcur Hout.
  destruct n as [| | | | | |children|children]; try discriminate.
  - eexists _, 5%nat. split; [by (apply codegen_IncrementNode; [apply (at_cursor_has_block _ m Hcur)|..])|].
    etrans; [exact (run_emitted st m (increment_code (bs_next st) pa ta) Hcur eq_refl)|].
    by eapply exec_load_cell_out_of_bounds.
  - eexists _, 5%nat. split; [by (apply codegen_DecrementNode; [apply (at_cursor_has_block _ m Hcur)|..])|].
    etrans; [exact (run_emitted st m (decrement_code (bs_next st) pa ta) Hcur eq_refl)|].
    by eapply exec_load_cell_out_of_bounds.
  - eexists _, 4%nat. split; [by (apply codegen_PutCharNode; [apply (at_cursor_has_block _ m Hcur)|..])|].
    rewrite <- (at_cursor_declare_function "putchar" putchar_type) in Hcur.
    etrans; [exact (run_emitted _ m (putchar_code (bs_next st) pa ta) Hcur eq_refl)|].
    by eapply exec_load_cell_out_of_bounds.
  - eexists _, 5%nat. split; [by (apply codegen_GetCharNode; [apply (at_cursor_has_block _ m Hcur)|..])|].
    rewrite <- (at_cursor_declare_function "getchar" getchar_type) in Hcur.
    etrans; [exact (run_emitted _ m (getchar_code (bs_next st) pa ta) Hcur eq_refl)|].
    by eapply exec_getchar_code_out_of_bounds.
  - apply at_cursor_spec in Hcur as (bb & Hi & Hb & Hpc).
    destruct (group_shape children st _ bb pa ta Hi Hb Hp Ht)
      as (st_c & pa' & ta' & bc & bbc & _ & _ & _ & _ & _ & _ & Hcg & Hentry & _).
    eexists _, 4%nat. split; [exact Hcg|].
    etrans;
      [apply (run_seq _ _ (bb_insts bb) (cell_test_code (bs_next st) pa ta)
               [CondBr (Inst (3 + bs_next st)) (length (bs_blocks st))
                  (S (length (bs_blocks st)))] m Hentry);
       done|].
    by eapply exec_load_cell_out_of_bounds.
Qed.

Lemma cell_at_insert p cells c c' :
  cell_at p cells = Some c -> cell_at p (<[Z.to_nat p := Some c']> cells) = Some c'.
Proof.
  intros [Hp Hc]%cell_at_spec. apply cell_at_spec. split; [done|].
  apply list_lookup_insert_eq. by eapply lookup_lt_Some.
Qed.

Lemma wrap_8 c : wrap 8 c = c mod 256.
Proof. reflexivity. Qed.

(** [n] increments in a row add [n] to the current cell, modulo 256. *)
Lemma run_increments n :
  forall st m p cells c,
    view st m = Some (p, cells) -> at_cursor st m = true ->
    cell_at p cells = Some c -> 0 <= c < 256 ->
    exists st' m',
      for_each codegen (replicate n IncrementNode) st = Some (tt, st') /\
      run (bs_blocks st') (5 * n) m = Running m' /\
      view st' m' = Some (p, <[Z.to_nat p := Some ((c + Z.of_nat n) mod 256)]> cells) /\
      at_cursor st' m' = true /\ m_trace m' = m_trace m /\ m_input m' = m_input m.
Proof.
  induction n as [|n IH]; intros st m p cells c Hv Hcur Hc Hr.
  - exists st, m. split; [done|]. split; [done|]. split; [|done].
    rewrite Z.add_0_r, Z.mod_small by done.
    apply cell_at_spec in Hc as [_ Hc]. by rewrite list_insert_id.
  - destruct (run_IncrementNode st m p cells Hv Hcur c Hc)
      as (st1 & m1 & (Hcg1 & Hrun1 & Hcur1) & Hv1 & Htr1 & Hin1).
    assert (Hr1 : 0 <= wrap 8 (c + 1) < 256) by (rewrite wrap_8; by apply Z.mod_pos_bound).
    destruct (IH st1 m1 p _ _ Hv1 Hcur1 (cell_at_insert _ _ _ _ Hc) Hr1)
      as (st2 & m2 & Hcg2 & Hrun2 & Hv2 & Hcur2 & Htr2 & Hin2).
    exists st2, m2.
    split. { cbn [replicate for_each]. unfold bind. by rewrite Hcg1. }
    split.
    { replace (5 * S n)%nat with (5 + 5 * n)%nat by lia. rewrite run_plus.
      destruct (for_each_codegen_ok (replicate n IncrementNode) st1
                  (view_cursor_ready _ _ _ _ Hv1 Hcur1)) as (st2' & Hcg2' & Hf & _).
      assert (st2' = st2) as -> by congruence.
      by rewrite (run_extends _ _ _ _ _ (frame_extends _ _ Hf) Hrun1). }
    split; [|split; [done|split; congruence]].
    rewrite Hv2, list_insert_insert_eq, wrap_8, Zplus_mod_idemp_l. do 5 f_equal. lia.
Qed.

End TapeFacts.

(* ===================================================================== *)
(** ** Ranges, later code, and returning *)
(* ===================================================================== *)

Section MoreFacts.

Implicit Types (st : BuilderState) (m : Machine).

Lemma signed_wrap x : - 2 ^ 63 <= x < 2 ^ 63 -> signed 64 (wrap 64 x) = x.
Proof.
  intros Hx. destruct (Z.le_gt_cases 0 x) as [Hpos|Hneg]; [apply signed_small; lia|].
  unfold signed, wrap.
  assert (Hm : x mod 2 ^ 64 = x + 2 ^ 64).
  { symmetry. apply (Z.mod_unique_pos _ _ (-1)); lia. }
  rewrite Hm. rewrite (proj2 (Z.ltb_ge _ _)); lia.
Qed.

Lemma view_range st m p cells : view st m = Some (p, cells) -> - 2 ^ 63 <= p < 2 ^ 63.
Proof.
  intros (pa & ta & bp & bt & v & _ & _ & _ & _ & Hl & ->)%view_spec.
  apply signed_range, Hl.
Qed.

Lemma view_insert_insts code st m x :
  view st m = Some x -> view (insert_insts code st) m = Some x.
Proof.
  destruct x as [p cells].
  intros (pa & ta & bp & bt & v & Hp & Ht & Hpk & Htk & Hl & ->)%view_spec.
  apply view_spec. exists pa, ta, bp, bt, v.
  rewrite insert_insts_named, insert_insts_next.
  split; [done|]. split; [done|]. split; [lia|]. split; [lia|]. by split.
Qed.

Lemma extends_trans B1 B2 B3 : extends B1 B2 -> extends B2 B3 -> extends B1 B3.
Proof.
  intros H12 H23 j bb Hj. destruct (H12 j bb Hj) as (bb2 & Hj2 & Hp2).
  destruct (H23 j bb2 Hj2) as (bb3 & Hj3 & Hp3). exists bb3. split; [done|]. by etrans.
Qed.

Lemma codegen_extends n st st' :
  ready st = true -> codegen n st = Some (tt, st') ->
  extends (bs_blocks st) (bs_blocks st').
Proof.
  intros Hr Hc. destruct (codegen_ok n st Hr) as (st'' & Hc' & Hf & _).
  assert (st'' = st') as -> by congruence. by apply frame_extends.
Qed.

Lemma wrap_8_32 v : wrap 8 (wrap 32 v) = v mod 256.
Proof.
  unfold wrap. apply Z.mod_mod_divide. exists (2 ^ 24). reflexivity.
Qed.

Lemma cell_at_blank_tape : cell_at 0 blank_tape = Some 0.
Proof. vm_compute. reflexivity. Qed.

(** The machine at the cursor, with [ret void] emitted next, returns. *)
Lemma run_ret st m :
  at_cursor st m = true ->
  run (bs_blocks (insert_inst (Ret None) st)) 1 m = Returned m.
Proof.
  intros (bb & Hi & Hb & Hpc)%at_cursor_spec. cbn [run]. unfold step, fetch.
  rewrite insert_inst_as_insts, insert_insts_lookup, Hi, bool_decide_eq_true_2, Hb by done.
  simpl. by rewrite Hpc, list_lookup_middle.
Qed.

End MoreFacts.

(* ===================================================================== *)
(** ** The parser: where it stops, and what it appends *)
(* ===================================================================== *)

Section ParserMore.

Lemma parse_children_acc fuel :
  forall s a1 a2 ch rest,
    parse_children fuel s a1 = Some (ch, rest) ->
    parse_children fuel s (a2 ++ a1) = Some (a2 ++ ch, rest).
Proof.
  induction fuel as [|fuel IH]; intros s a1 a2 ch rest; [discriminate|].
  rewrite !parse_children_S.
  destruct (Node_try_parse fuel s) as [[[nd|] r]|]; [| |discriminate].
  - intros H. rewrite <- app_assoc. by apply IH.
  - by intros [= <- <-].
Qed.

Lemma open_groups_app d a b :
  open_groups d (a ++ b) = open_groups d a ≫= fun d' => open_groups d' b.
Proof.
  revert d. induction a as [|c a IH]; intros d; [done|]. simpl.
  destruct (c =? "[")%char; [apply IH|].
  destruct (c =? "]")%char; [|apply IH]. destruct d; [done|apply IH].
Qed.

Lemma open_groups_shift e a : forall d k,
  open_groups d a = Some k -> open_groups (e + d) a = Some (e + k)%nat.
Proof.
  induction a as [|c a IH]; intros d k; simpl.
  - by intros [= ->].
  - destruct (c =? "[")%char.
    { intros H. replace (S (e + d)) with (e + S d)%nat by lia. by apply IH. }
    destruct (c =? "]")%char; [|apply IH].
    destruct d as [|d]; [done|]. intros H. rewrite Nat.add_succ_r. by apply IH.
Qed.

Lemma open_groups_is_Some d a : is_Some (open_groups 0 a) -> is_Some (open_groups d a).
Proof.
  intros [k Hk]. exists (d + k)%nat. rewrite <- (Nat.add_0_r d) at 1.
  by apply open_groups_shift.
Qed.

Lemma neutral_app q x d : neutral q -> open_groups d (q ++ x) = open_groups d x.
Proof. intros H. by rewrite open_groups_app, H. Qed.

Lemma neutral_snoc q c :
  neutral q -> (c =? "[")%char = false -> (c =? "]")%char = false -> neutral (q ++ [c]).
Proof. intros H H1 H2 d. rewrite open_groups_app, H. simpl. by rewrite H1, H2. Qed.

Lemma istream_get_neutral s c rest :
  istream_get s = Some (c, rest) -> exists pre, s = pre ++ c :: rest /\ neutral pre.
Proof.
  induction s as [|a s IH]; simpl; [discriminate|].
  destruct (isspace a) eqn:Ha.
  - intros H. destruct (IH H) as (pre & -> & Hn). exists (a :: pre). split; [done|].
    intros d. simpl.
    destruct (Ascii.eqb_spec a "[") as [->|_]; [discriminate|].
    destruct (Ascii.eqb_spec a "]") as [->|_]; [discriminate|]. apply Hn.
  - intros [= <- <-]. by exists [].
Qed.

(** Where the three functions stop reading. *)
Lemma parse_scope fuel :
  (forall s o rest, Node_try_parse fuel s = Some (o, rest) ->
     match o with
     | Some _ =>
         exists pre, s = pre ++ rest /\
           (open_groups 0 pre = Some O \/ (rest = [] /\ is_Some (open_groups 0 pre)))
     | None => scope_ends s rest
     end) /\
  (forall s n rest, ConditionalGroupNode_try_parse fuel s = Some (n, rest) ->
     exists pre, s = pre ++ rest /\
       (open_groups 1 pre = Some O \/ (rest = [] /\ is_Some (open_groups 1 pre)))) /\
  (forall s ch ch' rest, parse_children fuel s ch = Some (ch', rest) -> scope_ends s rest).
Proof.
  induction fuel as [|fuel (IHn & IHg & IHc)]; [repeat split; intros; discriminate|].
  split; [|split].
  - intros s o rest. rewrite Node_try_parse_S.
    destruct (istream_get s) as [[c r]|] eqn:Eg.
    2: { intros [= <- <-]. left. split; [done|].
         clear -Eg. induction s as [|a s IH]; [by eexists|]. simpl in *.
         destruct (isspace a) eqn:Ha; [|discriminate].
         destruct (Ascii.eqb_spec a "[") as [->|_]; [discriminate|].
         destruct (Ascii.eqb_spec a "]") as [->|_]; [discriminate|]. by apply IH. }
    apply istream_get_neutral in Eg as (pre & -> & Hn).
    repeat (case_match;
            [match goal with H : (c =? _)%char = true |- _ => apply Ascii.eqb_eq in H as -> end;
             intros [= <- <-]; eexists (pre ++ [_]); rewrite <- app_assoc;
             split; [done|left; by rewrite neutral_app]|]).
    repeat match goal with H : (c =? _)%char = false |- _ => clear H end.
    destruct (Ascii.eqb_spec c "[") as [->|Hc1].
    { destruct (ConditionalGroupNode_try_parse fuel r) as [[nd r']|] eqn:E; [|discriminate].
      intros [= <- <-]. destruct (IHg _ _ _ E) as (pre' & -> & H).
      exists (pre ++ "["%char :: pre'). rewrite <- app_assoc. split; [done|].
      rewrite neutral_app by done. exact H. }
    destruct (Ascii.eqb_spec c "]") as [->|Hc2].
    { intros [= <- <-]. right. exists pre. by rewrite Hn. }
    assert (Hn' : neutral (pre ++ [c])).
    { apply neutral_snoc; [done|by apply Ascii.eqb_neq|by apply Ascii.eqb_neq]. }
    replace (pre ++ c :: r) with ((pre ++ [c]) ++ r) by by rewrite <- app_assoc.
    intros Hrec. specialize (IHn _ _ _ Hrec). destruct o.
    + destruct IHn as (pre' & -> & H). exists ((pre ++ [c]) ++ pre').
      split; [by rewrite <- !app_assoc|]. by rewrite neutral_app.
    + destruct IHn as [[-> H]|(pre' & -> & H)].
      * left. split; [done|]. by rewrite neutral_app.
      * right. exists ((pre ++ [c]) ++ pre'). split; [by rewrite <- !app_assoc|].
        by rewrite neutral_app.
  - intros s n rest. rewrite ConditionalGroupNode_try_parse_S.
    destruct (parse_children fuel s []) as [[ch r]|] eqn:E; [|discriminate].
    intros [= <- <-]. destruct (IHc _ _ _ _ E) as [[-> H]|(pre & -> & H)].
    + exists s. rewrite app_nil_r. split; [done|]. right. split; [done|].
      by apply open_groups_is_Some.
    + exists (pre ++ ["]"%char]). rewrite <- app_assoc. split; [done|]. left.
      pose proof (open_groups_shift 1 pre O O H) as H1. simpl in H1.
      by rewrite open_groups_app, H1.
  - intros s ch ch' rest. rewrite parse_children_S.
    destruct (Node_try_parse fuel s) as [[[nd|] r]|] eqn:E; [| |discriminate].
    + intros H. destruct (IHn _ _ _ E) as (pre & -> & Hpre).
      destruct (IHc _ _ _ _ H) as [[-> Hr]|(pre' & -> & Hr)].
      * left. split; [done|]. rewrite open_groups_app.
        destruct Hpre as [->|[_ Hs]]; [done|].
        destruct Hr as [k Hk]. destruct Hs as [k' Hk']. rewrite Hk'. simpl.
        by apply open_groups_is_Some.
      * right. exists (pre ++ pre'). rewrite <- app_assoc. split; [done|].
        destruct Hpre as [H0|[Hnil _]]; [|by destruct pre'].
        by rewrite open_groups_app, H0.
    + intros [= <- <-]. apply (IHn _ _ _ E).
Qed.
End ParserMore.

(* ===================================================================== *)
(** ** Code generation by cases, and by induction on the tree *)
(* ===================================================================== *)

Section CodegenCases.

Implicit Types (st : BuilderState) (pa ta : AllocaInst).

Lemma codegen_leaf n st pa ta :
  is_leaf n = true -> has_block st = true ->
  bs_named st !! "position" = Some pa -> bs_named st !! "tape" = Some ta ->
  codegen n st
  = Some (tt, insert_insts (leaf_code n (bs_next st) pa ta) (leaf_decl n st)).
Proof.
  intros Hn Hhb Hp Ht. destruct n; try discriminate; simpl leaf_code; simpl leaf_decl.
  - by apply codegen_IncrementNode.
  - by apply codegen_DecrementNode.
  - by apply codegen_MoveLeftNode.
  - by apply codegen_MoveRightNode.
  - by apply codegen_PutCharNode.
  - by apply codegen_GetCharNode.
Qed.

Lemma same_code_leaf_decl n st : same_code st (leaf_decl n st).
Proof.
  destruct n; simpl; auto using same_code_refl, same_code_declare_function.
Qed.

Lemma straight_leaf_code n k pa ta : straight (leaf_code n k pa ta) = true.
Proof. by destruct n. Qed.

(** Induction over the instructions of a program, following [codegen]. *)
Section Induction.
Variable R : Node -> BuilderState -> BuilderState -> Prop.
Variable Rs : list Node -> BuilderState -> BuilderState -> Prop.
Hypothesis Rs_nil : forall st, Rs [] st st.
Hypothesis Rs_cons : forall n l st st1 st2,
  R n st st1 -> Rs l st1 st2 -> Rs (n :: l) st st2.
Hypothesis R_leaf : forall n st pa ta,
  is_leaf n = true -> ready st = true ->
  bs_named st !! "position" = Some pa -> bs_named st !! "tape" = Some ta ->
  R n st (insert_insts (leaf_code n (bs_next st) pa ta) (leaf_decl n st)).
Hypothesis R_group : forall children st b bb pa ta st_c pa' ta',
  bs_insert st = Some b -> bs_blocks st !! b = Some bb ->
  bs_named st !! "position" = Some pa -> bs_named st !! "tape" = Some ta ->
  instructions children = true ->
  frame (group_body_state st bb pa ta) st_c ->
  Rs children (group_body_state st bb pa ta) st_c ->
  bs_named st_c !! "position" = Some pa' -> bs_named st_c !! "tape" = Some ta' ->
  R (ConditionalGroupNode children) st (group_exit_state st st_c pa' ta').

Lemma for_each_induction_aux l :
  Forall (fun n => instruction n = true ->
            forall st st', ready st = true -> codegen n st = Some (tt, st') -> R n st st') l ->
  instructions l = true ->
  forall st st', ready st = true -> for_each codegen l st = Some (tt, st') -> Rs l st st'.
Proof.
  induction 1 as [|n l Hn _ IH]; intros Hl st st' Hr Hfe.
  - injection Hfe as <-. apply Rs_nil.
  - apply andb_true_iff in Hl as [Hin Hil].
    destruct (codegen_ok n st Hr) as (st1 & Hc1 & _ & Hr1 & _).
    cbn [for_each] in Hfe. unfold bind in Hfe. rewrite Hc1 in Hfe.
    eapply Rs_cons; [by apply Hn|by apply IH].
Qed.

Lemma codegen_induction n :
  instruction n = true ->
  forall st st', ready st = true -> codegen n st = Some (tt, st') -> R n st st'.
Proof.
  induction n as [| | | | | |children IH|children _] using Node_ind_nested;
    intros Hn st st' Hr Hc; try discriminate;
    pose proof Hr as (b & bb & pa & ta & Hi & Hb & Hp & Ht)%ready_spec.
  1-6: match type of Hc with
       | codegen ?n _ = _ =>
           rewrite (codegen_leaf n st pa ta eq_refl (ready_has_block _ Hr) Hp Ht) in Hc;
           injection Hc as <-; exact (R_leaf n st pa ta eq_refl Hr Hp Ht)
       end.
  destruct (group_shape children st b bb pa ta Hi Hb Hp Ht)
    as (st_c & pa' & ta' & bc & bbc & Hfe & Hpc & Htc & _ & _ & _ & Hcg & _ & _ & _ & _ & Hf).
  rewrite Hcg in Hc. injection Hc as <-.
  eapply R_group; eauto.
  apply (for_each_induction_aux children IH Hn); [|done].
  by eapply group_body_state_ready.
Qed.

Lemma for_each_induction l :
  instructions l = true ->
  forall st st', ready st = true -> for_each codegen l st = Some (tt, st') -> Rs l st st'.
Proof.
  apply for_each_induction_aux. induction l; constructor; auto using codegen_induction.
Qed.

End Induction.

(** The root: its children are compiled from [entry_state], then [ret]. *)
Lemma compile_program children :
  exists st_c,
    for_each codegen children entry_state = Some (tt, st_c) /\
    compile (ProgramNode children) = Some (insert_inst (Ret None) st_c) /\
    frame entry_state st_c /\ ready st_c = true.
Proof.
  destruct (for_each_codegen_ok children entry_state eq_refl) as (st_c & Hfe & Hf & Hr & _).
  exists st_c. split; [done|]. split; [|done].
  unfold compile. rewrite codegen_ProgramNode.
  change (program_entry_state llvm_init) with entry_state. by rewrite Hfe.
Qed.

End CodegenCases.

(* ===================================================================== *)
(** ** The blocks of the module and their terminators *)
(* ===================================================================== *)

Section BlockFacts.

Implicit Types (st : BuilderState) (pa ta : AllocaInst).

Lemma straight_app a b : straight (a ++ b) = straight a && straight b.
Proof. apply forallb_app. Qed.

Lemma straight_targets_ok n code :
  straight code = true -> forallb (targets_ok n) code = true.
Proof.
  induction code as [|i code IH]; [done|]. simpl.
  intros [Hi Hc]%andb_true_iff. rewrite (IH Hc), andb_true_r. by destruct i.
Qed.

Lemma targets_ok_mono n n' code :
  (n <= n')%nat -> forallb (targets_ok n) code = true ->
  forallb (targets_ok n') code = true.
Proof.
  intros Hle. induction code as [|i code IH]; [done|]. simpl.
  intros [Hi Hc]%andb_true_iff. rewrite (IH Hc), andb_true_r.
  destruct i; try done. simpl in *.
  apply andb_true_iff in Hi as [H1%Nat.ltb_lt H2%Nat.ltb_lt].
  apply andb_true_iff. split; apply Nat.ltb_lt; lia.
Qed.

Lemma terminated_app pre l :
  straight pre = true -> terminated (pre ++ l) = terminated l.
Proof.
  induction pre as [|i pre IH]; [done|].
  intros [Hi Hp]%andb_true_iff. apply negb_true_iff in Hi.
  cbn [app terminated]. rewrite Hi, (IH Hp). simpl.
  destruct (pre ++ l) eqn:E; [|done].
  apply app_eq_nil in E as [_ ->]. done.
Qed.

Lemma block_inv_insert_insts st st0 code pend fn :
  same_code st st0 -> straight code = true ->
  block_inv st pend fn -> block_inv (insert_insts code st0) pend fn.
Proof.
  intros (Hsb & Hsi & _ & _) Hs (b & Hi & Hbp & Hnd & Hpend & Hblk).
  exists b. rewrite insert_insts_insert, Hsi, insert_insts_length, Hsb.
  split; [done|]. split; [done|]. split; [done|]. split; [done|].
  intros j bb. rewrite insert_insts_lookup, Hsi, Hi, Hsb.
  case_bool_decide as Hj.
  - injection Hj as <-. destruct (bs_blocks st !! b) as [bb0|] eqn:Hb0; [|discriminate].
    intros [= <-]. destruct (Hblk b bb0 Hb0) as (Hpar & Htg & Hst).
    rewrite bool_decide_eq_true_2 in Hst |- * by by left.
    split; [done|]. simpl. rewrite forallb_app, straight_app, Htg, Hst.
    by rewrite (straight_targets_ok _ _ Hs), Hs.
  - apply Hblk.
Qed.

Lemma cell_test_terminated k pa ta c t f :
  terminated (cell_test_code k pa ta ++ [CondBr c t f]) = true.
Proof. reflexivity. Qed.

Lemma cell_test_targets n k pa ta c t f :
  (t < n)%nat -> (f < n)%nat ->
  forallb (targets_ok n) (cell_test_code k pa ta ++ [CondBr c t f]) = true.
Proof.
  intros Ht Hf. simpl. apply andb_true_iff. split; [|done].
  apply andb_true_iff. split; by apply Nat.ltb_lt.
Qed.

Lemma block_inv_group_enter st b bb pa ta pend fn :
  bs_insert st = Some b -> bs_blocks st !! b = Some bb ->
  block_inv st pend fn ->
  block_inv (group_body_state st bb pa ta) (S (length (bs_blocks st)) :: pend) fn.
Proof.
  intros Hi Hb (b0 & Hi0 & Hbp & Hnd & Hpend & Hblk).
  assert (b0 = b) as -> by congruence.
  pose proof (lookup_lt_Some _ _ _ Hb) as Hlt.
  pose proof (group_body_state_length st b bb pa ta Hi Hb) as Hlen.
  destruct (Hblk b bb Hb) as (Hpar & Htg & Hst).
  rewrite bool_decide_eq_true_2 in Hst by by left.
  assert (Hnp : forall j, j ∈ pend -> (j < length (bs_blocks st))%nat) by done.
  exists (length (bs_blocks st)). rewrite Hlen.
  split; [done|].
  split. { intros [?|Hin]%elem_of_cons; [lia|]. apply Hnp in Hin. lia. }
  split. { constructor; [|done]. intros Hin. apply Hnp in Hin. lia. }
  split. { intros j [->|Hin]%elem_of_cons; [lia|]. apply Hnp in Hin. lia. }
  intros j blk. rewrite (group_body_state_blocks st b bb pa ta Hi Hb).
  case_bool_decide as Hjb; [|case_bool_decide as Hjg; [|case_bool_decide as Hjm]].
  - subst j. intros [= <-]. split; [done|]. simpl bb_insts. split.
    + rewrite forallb_app, (targets_ok_mono _ _ _ (Nat.le_succ_diag_r _ )
                              (targets_ok_mono _ _ _ (Nat.le_succ_diag_r _) Htg)).
      apply cell_test_targets; lia.
    + rewrite bool_decide_eq_false_2.
      * by rewrite (terminated_app _ _ Hst).
      * intros [?|[?|Hin]%elem_of_cons]; [lia|lia|]. by apply Hbp.
  - subst j. intros [= <-]. split; [done|]. split; [done|].
    by rewrite bool_decide_eq_true_2 by by left.
  - subst j. intros [= <-]. split; [done|]. split; [done|].
    rewrite bool_decide_eq_true_2; [done|]. right. by left.
  - intros Hj. destruct (Hblk j blk Hj) as (Hpar' & Htg' & Hst').
    pose proof (lookup_lt_Some _ _ _ Hj) as Hjl.
    split; [done|]. split.
    + apply (targets_ok_mono (length (bs_blocks st))); [lia|done].
    + rewrite (bool_decide_ext _ (j = b \/ j ∈ pend)); [exact Hst'|]. split.
      * intros [?|[?|Hin]%elem_of_cons]; [lia|lia|by right].
      * intros [?|Hin]; [done|]. right. by right.
Qed.

Lemma group_exit_state_length st st_c pa ta :
  length (bs_blocks (group_exit_state st st_c pa ta)) = length (bs_blocks st_c).
Proof.
  unfold group_exit_state. change (bs_blocks (set_insert ?i ?s)) with (bs_blocks s).
  by rewrite insert_inst_as_insts, !insert_insts_length.
Qed.

Lemma block_inv_group_exit st st_c pa ta pend fn :
  block_inv st_c (S (length (bs_blocks st)) :: pend) fn ->
  block_inv (group_exit_state st st_c pa ta) pend fn.
Proof.
  intros (bc & Hic & Hbp & Hnd & Hpend & Hblk).
  apply NoDup_cons in Hnd as [Hmp Hnd].
  assert (Hm : (S (length (bs_blocks st)) < length (bs_blocks st_c))%nat).
  { apply Hpend. by left. }
  exists (S (length (bs_blocks st))). rewrite group_exit_state_length.
  split; [done|]. split; [done|]. split; [done|].
  split. { intros j Hj. apply Hpend. by right. }
  intros j blk. rewrite group_exit_state_blocks, Hic.
  case_bool_decide as Hj.
  - injection Hj as <-. destruct (bs_blocks st_c !! bc) as [bbc|] eqn:Hbc; [|discriminate].
    intros [= <-]. destruct (Hblk bc bbc Hbc) as (Hpar & Htg & Hst).
    rewrite bool_decide_eq_true_2 in Hst by by left.
    split; [done|]. simpl bb_insts. split.
    + rewrite forallb_app, Htg. apply cell_test_targets; lia.
    + rewrite bool_decide_eq_false_2.
      * by rewrite (terminated_app _ _ Hst).
      * intros [->|Hin]; apply Hbp; [by left|by right].
  - intros Hjb. destruct (Hblk j blk Hjb) as (Hpar & Htg & Hst).
    split; [done|]. split; [done|].
    rewrite (bool_decide_ext _ (j = bc \/ j ∈ S (length (bs_blocks st)) :: pend));
      [exact Hst|]. split.
    + intros [->|Hin]; right; [by left|by right].
    + intros [?|[?|Hin]%elem_of_cons]; [congruence|by left|by right].
Qed.

(** The terminators of the blocks are kept in order by every instruction. *)
Lemma codegen_block_inv n st st' pend fn :
  instruction n = true -> ready st = true -> codegen n st = Some (tt, st') ->
  block_inv st pend fn -> block_inv st' pend fn.
Proof.
  intros Hn Hr Hc. revert pend fn.
  apply (codegen_induction
           (fun _ st st' => forall pend fn, block_inv st pend fn -> block_inv st' pend fn)
           (fun _ st st' => forall pend fn, block_inv st pend fn -> block_inv st' pend fn))
    with (n := n); [by auto|by auto| | |exact Hn|exact Hr|exact Hc].
  - intros n0 st0 pa ta Hl _ _ _ pend fn.
    apply block_inv_insert_insts; [apply same_code_leaf_decl|apply straight_leaf_code].
  - intros children st0 b bb pa ta st_c pa' ta' Hi Hb _ _ _ _ IH _ _ pend fn Hinv.
    apply block_inv_group_exit, IH. by apply (block_inv_group_enter st0 b).
Qed.

Lemma for_each_codegen_block_inv l st st' pend fn :
  instructions l = true -> ready st = true -> for_each codegen l st = Some (tt, st') ->
  block_inv st pend fn -> block_inv st' pend fn.
Proof.
  intros Hl Hr Hc. revert pend fn.
  apply (for_each_induction
           (fun _ st st' => forall pend fn, block_inv st pend fn -> block_inv st' pend fn)
           (fun _ st st' => forall pend fn, block_inv st pend fn -> block_inv st' pend fn))
    with (l := l); [by auto|by auto| | |exact Hl|exact Hr|exact Hc].
  - intros n0 st0 pa ta Hlf _ _ _ pend fn.
    apply block_inv_insert_insts; [apply same_code_leaf_decl|apply straight_leaf_code].
  - intros children st0 b bb pa ta st_c pa' ta' Hi Hb _ _ _ _ IH _ _ pend fn Hinv.
    apply block_inv_group_exit, IH. by apply (block_inv_group_enter st0 b).
Qed.

Lemma block_inv_entry_state : block_inv entry_state [] "main".
Proof.
  exists O. split; [done|]. split; [apply not_elem_of_nil|]. split; [constructor|].
  split. { intros j Hj. by apply elem_of_nil in Hj. }
  intros [|j] bb; [|done]. by intros [= <-].
Qed.

Lemma forallb_lookup {A} (f : A -> bool) (l : list A) :
  (forall i x, l !! i = Some x -> f x = true) -> forallb f l = true.
Proof.
  induction l as [|a l IH]; intros H; [done|]. simpl.
  rewrite (H O a eq_refl). apply IH. intros i x Hi. by apply (H (S i)).
Qed.

(** With [ret] at the insertion point every block has its terminator. *)
Lemma block_inv_ret st :
  block_inv st [] "main" -> module_wf (insert_inst (Ret None) st) = true.
Proof.
  intros (b & Hi & _ & _ & _ & Hblk). unfold module_wf.
  rewrite insert_inst_as_insts, insert_insts_length.
  apply forallb_lookup. intros j bb. rewrite insert_insts_lookup, Hi.
  unfold block_wf. case_bool_decide as Hj.
  - injection Hj as <-. destruct (bs_blocks st !! b) as [bb0|] eqn:Hb0; [|discriminate].
    intros [= <-]. destruct (Hblk b bb0 Hb0) as (Hpar & Htg & Hst).
    rewrite bool_decide_eq_true_2 in Hst by by left.
    simpl. rewrite (terminated_app _ _ Hst), forallb_app, Htg. simpl.
    by rewrite bool_decide_eq_true_2.
  - intros Hjb. destruct (Hblk j bb Hjb) as (Hpar & Htg & Hst).
    rewrite bool_decide_eq_false_2 in Hst.
    + by rewrite Hst, Htg, bool_decide_eq_true_2.
    + intros [->|Hin]; [done|]. by apply elem_of_nil in Hin.
Qed.

Lemma compile_module_wf children st' :
  instructions children = true ->
  compile (ProgramNode children) = Some st' -> module_wf st' = true.
Proof.
  intros Hc Hcomp. destruct (compile_program children) as (st_c & Hfe & Hcomp' & _ & _).
  assert (st' = insert_inst (Ret None) st_c) as -> by congruence.
  apply block_inv_ret.
  by apply (for_each_codegen_block_inv children entry_state st_c [] "main" Hc eq_refl Hfe),
    block_inv_entry_state.
Qed.

End BlockFacts.

(* ===================================================================== *)
(** ** The children, one after the other *)
(* ===================================================================== *)

Section ChainFacts.

Implicit Types (st : BuilderState) (pa ta : AllocaInst).

(** The loop over the children is the chain of their states. *)
Lemma for_each_compiled l :
  forall st st', for_each codegen l st = Some (tt, st') <-> compiled_in_order l st st'.
Proof.
  induction l as [|n l IH]; intros st st'; split.
  - intros [= <-]. constructor.
  - by inversion 1.
  - cbn [for_each]. unfold bind.
    destruct (codegen n st) as [[[] st1]|] eqn:E; [|discriminate].
    intros H. econstructor; [exact E|]. by apply IH.
  - inversion 1 as [|? ? ? st1 ? Hc Hrest]; subst.
    cbn [for_each]. unfold bind. rewrite Hc. by apply IH.
Qed.

(** *** The blocks a node creates *)

Lemma for_each_blocks l :
  Forall (fun n => forall st st', ready st = true -> codegen n st = Some (tt, st') ->
            length (bs_blocks st') = (length (bs_blocks st) + blocks_of n)%nat) l ->
  forall st st', ready st = true -> for_each codegen l st = Some (tt, st') ->
    length (bs_blocks st') = (length (bs_blocks st) + list_sum (map blocks_of l))%nat.
Proof.
  induction 1 as [|n l Hn _ IH]; intros st st' Hr Hfe.
  - injection Hfe as <-. simpl. lia.
  - destruct (codegen_ok n st Hr) as (st1 & Hcg & _ & Hr1 & _).
    cbn [for_each] in Hfe. unfold bind in Hfe. rewrite Hcg in Hfe.
    rewrite (IH st1 st' Hr1 Hfe), (Hn st st1 Hr Hcg). simpl. lia.
Qed.

Lemma program_entry_state_length st :
  length (bs_blocks (program_entry_state st)) = S (length (bs_blocks st)).
Proof.
  unfold program_entry_state. cbn [bs_blocks set_named].
  rewrite insert_insts_length. cbn [bs_blocks set_named].
  rewrite insert_insts_length. cbn [bs_blocks set_insert add_block create_function].
  rewrite length_app. simpl. lia.
Qed.

Lemma codegen_blocks n :
  forall st st', ready st = true -> codegen n st = Some (tt, st') ->
    length (bs_blocks st') = (length (bs_blocks st) + blocks_of n)%nat.
Proof.
  induction n as [| | | | | |children IH|children IH] using Node_ind_nested;
    intros st st' Hr Hc; pose proof (ready_has_block _ Hr) as Hhb;
    pose proof Hr as (b & bb & pa & ta & Hi & Hb & Hp & Ht)%ready_spec.
  1-6: match type of Hc with
       | codegen ?n _ = _ =>
           pose proof (codegen_leaf n st pa ta eq_refl Hhb Hp Ht) as Hc';
           assert (st' = insert_insts (leaf_code n (bs_next st) pa ta) (leaf_decl n st))
             as -> by congruence;
           rewrite insert_insts_length; cbn [leaf_decl blocks_of];
           rewrite ?declare_function_blocks; lia
       end.
  - destruct (group_shape children st b bb pa ta Hi Hb Hp Ht)
      as (st_c & pa' & ta' & _ & _ & Hfe & _ & _ & _ & _ & _ & Hcg & _).
    assert (st' = group_exit_state st st_c pa' ta') as -> by congruence.
    rewrite group_exit_state_length.
    rewrite (for_each_blocks children IH _ st_c
               (group_body_state_ready st b bb pa ta Hi Hb
                  (mk_is_Some _ _ Hp) (mk_is_Some _ _ Ht)) Hfe).
    rewrite (group_body_state_length st b bb pa ta Hi Hb). cbn [blocks_of]. lia.
  - rewrite codegen_ProgramNode in Hc.
    destruct (for_each codegen children (program_entry_state st)) as [[[] st_c]|] eqn:Hfe;
      [|discriminate].
    injection Hc as <-. rewrite insert_inst_as_insts, insert_insts_length.
    rewrite (for_each_blocks children IH _ st_c (program_entry_state_ready st) Hfe).
    rewrite program_entry_state_length. cbn [blocks_of]. lia.
Qed.

(** *** A list of leaves *)

Lemma same_code_trans st1 st2 st3 : same_code st1 st2 -> same_code st2 st3 -> same_code st1 st3.
Proof.
  unfold same_code. intros (Hb & Hi & Hn & Hk) (Hb' & Hi' & Hn' & Hk').
  rewrite Hb', Hi', Hn', Hk'. done.
Qed.

Lemma same_code_insert_insts code st st0 :
  same_code st st0 -> same_code (insert_insts code st) (insert_insts code st0).
Proof.
  revert st st0. induction code as [|i code IH]; intros st st0 H; [done|].
  simpl. apply IH. destruct H as (Hb & Hi & Hn & Hk).
  unfold same_code. cbn [insert_inst bs_blocks bs_insert bs_named bs_next].
  by rewrite Hb, Hi, Hn, Hk.
Qed.

Lemma for_each_leaves l pa ta :
  forallb is_leaf l = true ->
  forall st st',
    has_block st = true ->
    bs_named st !! "position" = Some pa -> bs_named st !! "tape" = Some ta ->
    for_each codegen l st = Some (tt, st') ->
    same_code (insert_insts (leaves_code l (bs_next st) pa ta) st) st'.
Proof.
  induction l as [|n l IH]; intros Hl st st' Hhb Hp Ht Hfe.
  - injection Hfe as <-. apply same_code_refl.
  - apply andb_true_iff in Hl as [Hn Hl].
    cbn [for_each] in Hfe. unfold bind in Hfe.
    rewrite (codegen_leaf n st pa ta Hn Hhb Hp Ht) in Hfe.
    pose proof (same_code_insert_insts (leaf_code n (bs_next st) pa ta) _ _
                  (same_code_leaf_decl n st)) as Hs1.
    set (st1 := insert_insts (leaf_code n (bs_next st) pa ta) (leaf_decl n st)) in *.
    assert (Hn1 : bs_next st1 = (length (leaf_code n (bs_next st) pa ta) + bs_next st)%nat).
    { unfold st1. rewrite insert_insts_next. by destruct (same_code_leaf_decl n st) as (_ & _ & _ & ->). }
    assert (Hnamed : bs_named st1 = bs_named st).
    { unfold st1. rewrite insert_insts_named. by destruct (same_code_leaf_decl n st) as (_ & _ & -> & _). }
    assert (Hhb1 : has_block st1 = true).
    { unfold st1. rewrite has_block_insert_insts. destruct n; try discriminate; simpl;
        by rewrite ?has_block_declare_function. }
    specialize (IH Hl st1 st' Hhb1). rewrite Hnamed, Hn1 in IH. specialize (IH Hp Ht Hfe).
    cbn [leaves_code]. rewrite insert_insts_app.
    eapply same_code_trans; [|exact IH]. by apply same_code_insert_insts.
Qed.

Lemma leaves_instructions l : forallb is_leaf l = true -> instructions l = true.
Proof.
  induction l as [|n l IH]; [done|]. simpl. intros [Hn Hl]%andb_true_iff.
  rewrite (IH Hl), andb_true_r. by destruct n.
Qed.

(** The body of a group without groups inside. *)
Lemma group_leaf_body children st b bb pa ta st_c :
  bs_insert st = Some b -> bs_blocks st !! b = Some bb ->
  bs_named st !! "position" = Some pa -> bs_named st !! "tape" = Some ta ->
  forallb is_leaf children = true ->
  for_each codegen children (group_body_state st bb pa ta) = Some (tt, st_c) ->
  bs_blocks (group_exit_state st st_c pa ta) !! length (bs_blocks st) =
    Some {| bb_name := "group content"; bb_parent := bb_parent bb;
            bb_insts :=
              leaves_code children (5 + bs_next st) pa ta ++
              cell_test_code
                (length (leaves_code children (5 + bs_next st) pa ta) + (5 + bs_next st))
                pa ta ++
              [CondBr
                 (Inst (3 + (length (leaves_code children (5 + bs_next st) pa ta)
                             + (5 + bs_next st))))
                 (length (bs_blocks st)) (S (length (bs_blocks st)))] |}.
Proof.
  intros Hi Hb Hp Ht Hl Hfe.
  pose proof (group_body_state_ready st b bb pa ta Hi Hb
                (mk_is_Some _ _ Hp) (mk_is_Some _ _ Ht)) as Hrb.
  pose proof (lookup_lt_Some _ _ _ Hb) as Hlt.
  destruct (for_each_leaves children pa ta Hl _ st_c (ready_has_block _ Hrb)) as
    (Hblocks & Hins & _ & Hnext); [by rewrite group_body_state_named..|exact Hfe|].
  change (bs_next (group_body_state st bb pa ta)) with (5 + bs_next st)%nat in *.
  rewrite insert_insts_insert in Hins. rewrite insert_insts_next in Hnext.
  change (bs_insert (group_body_state st bb pa ta)) with (Some (length (bs_blocks st))) in Hins.
  rewrite group_exit_state_blocks, Hins, bool_decide_eq_true_2 by done.
  rewrite Hblocks, Hnext, insert_insts_lookup.
  change (bs_insert (group_body_state st bb pa ta)) with (Some (length (bs_blocks st))).
  rewrite bool_decide_eq_true_2 by done.
  rewrite (group_body_state_blocks st b bb pa ta Hi Hb).
  rewrite bool_decide_eq_false_2 by lia. rewrite bool_decide_eq_true_2 by done.
  reflexivity.
Qed.

End ChainFacts.

(* ===================================================================== *)
(** ** The functions of the module, and what code generation needs *)
(* ===================================================================== *)

Section FunctionFacts.

Implicit Types (st : BuilderState) (pa ta : AllocaInst).

Lemma group_body_state_functions st bb pa ta :
  bs_functions (group_body_state st bb pa ta) = bs_functions st.
Proof.
  unfold group_body_state. cbn [set_insert insert_inst add_block bs_functions].
  apply insert_insts_functions.
Qed.

Lemma group_exit_state_functions st st_c pa ta :
  bs_functions (group_exit_state st st_c pa ta) = bs_functions st_c.
Proof.
  unfold group_exit_state. cbn [set_insert insert_inst bs_functions].
  apply insert_insts_functions.
Qed.

(** What [getOrInsertFunction] does to the list of functions. *)
Lemma declare_function_spec name ft st :
  (forall ft', (name, ft') ∈ bs_functions st -> ft' = ft) ->
  NoDup (fst <$> bs_functions st) ->
  NoDup (fst <$> bs_functions (declare_function name ft st)) /\
  forall x, x ∈ bs_functions (declare_function name ft st) <->
            x ∈ bs_functions st \/ x = (name, ft).
Proof.
  intros Hty Hnd. unfold declare_function. case_bool_decide as Hin.
  - split; [done|]. intros x. split; [by left|]. intros [?| ->]; [done|].
    apply list_elem_of_fmap in Hin as ([name' ft'] & -> & Hin).
    by rewrite <- (Hty ft' Hin).
  - cbn [add_function bs_functions]. rewrite fmap_app. split.
    + apply NoDup_app. split; [done|]. split; [|apply NoDup_singleton].
      intros y Hy ->%list_elem_of_singleton. done.
    + intros x. by rewrite elem_of_app, list_elem_of_singleton.
Qed.

Lemma functions_step_leaf n st code :
  is_leaf n = true ->
  functions_step (uses_putchar n) (uses_getchar n) st (insert_insts code (leaf_decl n st)).
Proof.
  intros Hl (Hnd & Hty). rewrite insert_insts_functions. unfold functions_inv.
  rewrite insert_insts_functions.
  destruct n; try discriminate; cbn [leaf_decl uses_putchar uses_getchar];
    try (split; [done|]; intros x; split; [by left|by intros [?|[[_ ?]|[_ ?]]]]).
  - destruct (declare_function_spec "putchar" putchar_type st
                (fun ft => proj1 (Hty ft)) Hnd) as (Hnd' & Hin).
    split; [split; [done|]|].
    + intros ft. rewrite !Hin. split; (intros [?|?]; [by apply Hty|congruence]).
    + intros x. rewrite Hin. split.
      * intros [?| ->]; [by left|right; by left].
      * intros [?|[[-> _]|[_ ?]]]; [by left|by right|done].
  - destruct (declare_function_spec "getchar" getchar_type st
                (fun ft => proj2 (Hty ft)) Hnd) as (Hnd' & Hin).
    split; [split; [done|]|].
    + intros ft. rewrite !Hin. split; (intros [?|?]; [by apply Hty|congruence]).
    + intros x. rewrite Hin. split.
      * intros [?| ->]; [by left|right; by right].
      * intros [?|[[_ ?]|[-> _]]]; [by left|done|by right].
Qed.

Lemma functions_step_cons p1 g1 p2 g2 st st1 st2 :
  functions_step p1 g1 st st1 -> functions_step p2 g2 st1 st2 ->
  functions_step (p1 || p2) (g1 || g2) st st2.
Proof.
  intros H1 H2 Hinv. destruct (H1 Hinv) as (Hinv1 & Hin1).
  destruct (H2 Hinv1) as (Hinv2 & Hin2). split; [done|].
  intros x. rewrite Hin2, Hin1, !orb_true_iff. tauto.
Qed.

Lemma for_each_codegen_functions l :
  instructions l = true ->
  forall st st', ready st = true -> for_each codegen l st = Some (tt, st') ->
  functions_step (existsb uses_putchar l) (existsb uses_getchar l) st st'.
Proof.
  apply (for_each_induction
           (fun n st st' => functions_step (uses_putchar n) (uses_getchar n) st st')
           (fun l st st' =>
              functions_step (existsb uses_putchar l) (existsb uses_getchar l) st st')).
  - intros st0 Hinv. split; [done|]. intros x. split; [by left|].
    by intros [?|[[_ ?]|[_ ?]]].
  - intros n0 l0 st0 st1 st2. apply functions_step_cons.
  - intros n0 st0 pa ta Hl _ _ _. by apply functions_step_leaf.
  - intros children st0 b bb pa ta st_c pa' ta' _ _ _ _ _ _ IH _ _.
    unfold functions_step, functions_inv in *.
    rewrite group_exit_state_functions. rewrite group_body_state_functions in IH.
    exact IH.
Qed.

Lemma functions_inv_entry_state : functions_inv entry_state.
Proof.
  split.
  - apply NoDup_singleton.
  - intros ft. split; intros [= ?]%list_elem_of_singleton.
Qed.

End FunctionFacts.

Section Preconditions.

Implicit Types (st : BuilderState) (pa ta : AllocaInst).

Ltac cg_unfold :=
  cbv [codegen bind ret deref NamedValues_at get_current_tape_value
       get_current_tape_cell_ptr get_current_position
       CreateLoad CreateStore CreateGEP CreateAdd CreateSub CreateICmpNE CreateCall
       CreateCondBr CreateRet emit_value emit_void getOrInsertFunction
       GetInsertBlock getParent BasicBlock_Create SetInsertPoint].

Lemma insert_inst_named i st : bs_named (insert_inst i st) = bs_named st.
Proof. reflexivity. Qed.

(** A leaf reads [NamedValues] before or after it declares a function and
    emits a call, on a map that these leave alone. *)
Lemma codegen_leaf_None n st :
  is_leaf n = true ->
  bs_named st !! "position" = None \/
  (reads_tape n = true /\ bs_named st !! "tape" = None) ->
  codegen n st = None.
Proof.
  intros Hl H. destruct n; try discriminate; cg_unfold;
    rewrite ?CreateIntCast_getchar; cg_unfold;
    cbn [bs_named insert_inst]; rewrite ?declare_function_named;
    destruct (bs_named st !! "tape") as [ta|] eqn:Ht;
    destruct (bs_named st !! "position") as [pa|] eqn:Hp;
    cbn [bs_named insert_inst]; rewrite ?declare_function_named, ?Ht, ?Hp;
    try done; destruct H as [?|[? ?]]; done.
Qed.

(** And every leaf loads or stores, for which the builder dereferences
    its insertion block. *)
Lemma codegen_leaf_no_block n st :
  is_leaf n = true -> has_block st = false -> codegen n st = None.
Proof.
  intros Hl Hhb. destruct n; try discriminate; cg_unfold;
    rewrite ?CreateIntCast_getchar; cg_unfold;
    cbn [bs_named insert_inst]; rewrite ?declare_function_named;
    destruct (bs_named st !! "tape") as [ta|] eqn:Ht;
    destruct (bs_named st !! "position") as [pa|] eqn:Hp;
    cbn [bs_named insert_inst]; rewrite ?declare_function_named, ?Ht, ?Hp;
    cbv beta iota; try done;
    by rewrite getDataLayout_spec, ?has_block_insert_inst, ?has_block_declare_function, Hhb.
Qed.

End Preconditions.

Section PreconditionFacts.

Implicit Types (st : BuilderState).

Lemma codegen_group_ready children st :
  is_Some (codegen (ConditionalGroupNode children) st) -> ready st = true.
Proof.
  rewrite codegen_ConditionalGroupNode_unfold.
  cbv [bind NamedValues_at GetInsertBlock deref getParent get_current_tape_value
       get_current_tape_cell_ptr get_current_position].
  destruct (bs_insert st) as [b|] eqn:Hi; [|by intros [? ?]].
  destruct (bs_blocks st !! b) as [bb|] eqn:Hb; [|by intros [? ?]].
  destruct (bs_named st !! "tape") as [ta|] eqn:Ht; [|by intros [? ?]].
  destruct (bs_named st !! "position") as [pa|] eqn:Hp; [|by intros [? ?]].
  intros _. apply ready_spec. by exists b, bb, pa, ta.
Qed.

Lemma codegen_leaf_llvm_init n : is_leaf n = true -> codegen n llvm_init = None.
Proof. intros Hl. apply codegen_leaf_None; [done|]. by left. Qed.

End PreconditionFacts.

(* ===================================================================== *)
(** ** The generated code and the meaning of the instructions *)
(* ===================================================================== *)

Section ReferenceFacts.

Implicit Types (st : BuilderState) (m : Machine) (s : BFState).

Lemma cell_at_fmap p (tape : list Z) :
  cell_at p (Some <$> tape) = if 0 <=? p then tape !! Z.to_nat p else None.
Proof.
  unfold cell_at. destruct (0 <=? p); [|done].
  rewrite list_lookup_fmap. by destruct (tape !! Z.to_nat p).
Qed.

Lemma represents_cell st m s : represents st m s ->
  cell_at (bf_ptr s) (Some <$> bf_tape s) = bf_cell s.
Proof. intros _. apply cell_at_fmap. Qed.

Lemma represents_bounds st m s :
  represents st m s -> (is_Some (bf_cell s) <-> 0 <= bf_ptr s < TAPE_SIZE).
Proof.
  intros ((pa & ta & bp & bt & v & _ & _ & _ & _ & Hl & _)%view_spec & _).
  pose proof (linked_length _ _ _ _ _ _ _ Hl) as Hlen. rewrite length_fmap in Hlen.
  unfold bf_cell. destruct (0 <=? bf_ptr s) eqn:Hp.
  - apply Z.leb_le in Hp. rewrite lookup_lt_is_Some. lia.
  - apply Z.leb_gt in Hp. split; [by intros [? ?]|lia].
Qed.

Lemma represents_ready st m s : represents st m s -> ready st = true.
Proof. intros (Hv & Hc & _). by eapply view_cursor_ready. Qed.

Lemma agrees_prepend st' m m1 k r :
  run (bs_blocks st') k m = Running m1 -> agrees st' m1 r -> agrees st' m r.
Proof.
  intros Hrun. destruct r as [s'| |]; [| |done].
  - intros (k' & m' & Hrun' & Hrep). exists (k + k')%nat, m'.
    by rewrite run_plus, Hrun.
  - intros (k' & Hrun'). exists (k + k')%nat. by rewrite run_plus, Hrun.
Qed.

Lemma agrees_extends st1 st' m r :
  extends (bs_blocks st1) (bs_blocks st') ->
  match r with
  | BFDone _ => False
  | BFOutOfBounds => exists k, run (bs_blocks st1) k m = Faulted OutOfBounds
  | BFNoResult => True
  end -> agrees st' m r.
Proof.
  intros He. destruct r; [done| |done]. intros (k & Hrun). exists k.
  by apply (run_extends _ _ _ _ _ He Hrun).
Qed.

Lemma bf_node_group fuel children s :
  bf_node fuel (ConditionalGroupNode children) s =
  match bf_cell s with
  | Some c =>
      if bool_decide (c = 0) then BFDone s
      else
        match fuel with
        | O => BFNoResult
        | S fuel' =>
            match bf_seq (bf_node fuel') children s with
            | BFDone s' => bf_node fuel' (ConditionalGroupNode children) s'
            | r => r
            end
        end
  | None => BFOutOfBounds
  end.
Proof. by destruct fuel. Qed.

(** The six nodes without children. *)
Lemma leaf_agrees fuel n st st' m s :
  is_leaf n = true -> represents st m s -> codegen n st = Some (tt, st') ->
  agrees st' m (bf_node fuel n s).
Proof.
  intros Hl Hrep Hcg. pose proof Hrep as (Hv & Hcur & Hin & Htr).
  pose proof (represents_cell _ _ _ Hrep) as Hcell.
  pose proof (represents_bounds _ _ _ Hrep) as Hbounds.
  assert (Hout : bf_cell s = None -> accesses_cell n = true ->
                 agrees st' m BFOutOfBounds).
  { intros Hnone Hacc.
    destruct (run_out_of_bounds n st m _ _ Hacc Hv Hcur) as (st'' & k & Hcg' & Hrun).
    - rewrite <- Hbounds, Hnone. by intros [? ?].
    - assert (st'' = st') as -> by congruence. by exists k. }
  destruct n; try discriminate; destruct fuel; cbn [bf_node];
    try (destruct (bf_cell s) as [c|] eqn:Hc; [|by apply Hout]).
  1,2: destruct (run_IncrementNode st m _ _ Hv Hcur c Hcell)
         as (st'' & m' & (Hcg' & Hrun & Hcur') & Hv' & Htr' & Hin').
  3,4: destruct (run_DecrementNode st m _ _ Hv Hcur c Hcell)
         as (st'' & m' & (Hcg' & Hrun & Hcur') & Hv' & Htr' & Hin').
  5,6: destruct (run_MoveLeftNode st m _ _ Hv Hcur)
         as (st'' & m' & (Hcg' & Hrun & Hcur') & Hv' & Htr' & Hin').
  7,8: destruct (run_MoveRightNode st m _ _ Hv Hcur)
         as (st'' & m' & (Hcg' & Hrun & Hcur') & Hv' & Htr' & Hin').
  9,10: destruct (run_PutCharNode st m _ _ Hv Hcur c Hcell)
         as (st'' & m' & (Hcg' & Hrun & Hcur') & Hv' & Htr' & Hin').
  11,12: destruct (run_GetCharNode st m _ _ Hv Hcur)
         as (st'' & m' & (Hcg' & Hrun & Hcur') & Hv' & Htr' & Hin');
         [by apply Hbounds|].
  all: assert (st'' = st') as -> by congruence.
  all: eexists _, m'; split; [exact Hrun|].
  all: split; [|split; [done|split]]; cbn [bf_ptr bf_tape bf_input bf_trace bf_store
                                           bf_move bf_putchar bf_getchar];
    rewrite ?list_fmap_insert; congruence.
Qed.

(** *** The two tests of a group *)

Section Loop.
Context (children : list Node) (st : BuilderState) (b : nat) (bb : BasicBlock)
  (pa ta : AllocaInst) (st_c : BuilderState).
Hypothesis Hch : instructions children = true.
Hypothesis Hi : bs_insert st = Some b.
Hypothesis Hb : bs_blocks st !! b = Some bb.
Hypothesis Hp : bs_named st !! "position" = Some pa.
Hypothesis Ht : bs_named st !! "tape" = Some ta.
Hypothesis Hfe :
  for_each codegen children (group_body_state st bb pa ta) = Some (tt, st_c).

Let st_b := group_body_state st bb pa ta.
Let st' := group_exit_state st st_c pa ta.
Let group_content := length (bs_blocks st).
Let merge := S (length (bs_blocks st)).

Lemma loop_facts :
  codegen (ConditionalGroupNode children) st = Some (tt, st') /\
  bs_named st_c = bs_named st /\
  frame st_b st_c /\
  bs_blocks st' !! b =
    Some (append_insts
            (cell_test_code (bs_next st) pa ta ++
             [CondBr (Inst (3 + bs_next st)) group_content merge]) bb) /\
  (exists bc bbc,
     bs_insert st_c = Some bc /\ bs_blocks st_c !! bc = Some bbc /\
     bs_blocks st' !! bc =
       Some (append_insts
               (cell_test_code (bs_next st_c) pa ta ++
                [CondBr (Inst (3 + bs_next st_c)) group_content merge]) bbc)) /\
  bs_blocks st' !! merge =
    Some {| bb_name := "merge"; bb_parent := bb_parent bb; bb_insts := [] |}.
Proof.
  destruct (group_shape children st b bb pa ta Hi Hb Hp Ht)
    as (st_c0 & pa' & ta' & bc & bbc & Hfe0 & Hpc & Htc & Hic & Hbc & Hnamed & Hcg
        & Hentry & Hexit & Hmerge & _ & Hframe).
  assert (st_c0 = st_c) as -> by congruence.
  specialize (Hnamed Hch). rewrite Hnamed in Hpc, Htc.
  assert (pa' = pa) as -> by congruence. assert (ta' = ta) as -> by congruence.
  split; [exact Hcg|]. split; [exact Hnamed|]. split; [exact Hframe|].
  split; [exact Hentry|]. split; [by exists bc, bbc|exact Hmerge].
Qed.

Lemma loop_extends : extends (bs_blocks st_c) (bs_blocks st').
Proof.
  intros j blk Hj. unfold st'. rewrite group_exit_state_blocks, Hj.
  case_bool_decide; eexists; (split; [reflexivity|]); [|done].
  simpl. by apply prefix_app_r.
Qed.

Lemma loop_exit_next : (bs_next st_c <= bs_next st')%nat.
Proof.
  unfold st', group_exit_state. cbn [set_insert insert_inst bs_next].
  rewrite insert_insts_next. lia.
Qed.

(** After a test: in the merge block when the cell is zero, at the start
    of the body when it is not. *)
Lemma after_test m m' s bp bt v c :
  (alloca_id pa < bs_next st_b)%nat -> (alloca_id ta < bs_next st_b)%nat ->
  linked m' pa ta bp bt v (Some <$> bf_tape s) -> signed 64 v = bf_ptr s ->
  m_block m' = (if bool_decide (c = 0) then merge else group_content) -> m_pc m' = O ->
  m_trace m' = m_trace m -> m_input m' = m_input m ->
  m_input m = bf_input s -> m_trace m = bf_trace s ->
  if bool_decide (c = 0) then represents st' m' s else represents st_b m' s.
Proof.
  intros Hpk Htk Hl Hv Hblk Hpc Htr Hin Hin0 Htr0.
  destruct loop_facts as (_ & Hnamed & (_ & Hnext & _) & _ & _ & Hmerge).
  pose proof loop_exit_next as Hnext'.
  case_bool_decide.
  - split; [|split; [|split; congruence]].
    + assert (Hn' : bs_named st' = bs_named st).
      { unfold st'. by rewrite group_exit_state_named. }
      apply view_spec. exists pa, ta, bp, bt, v. rewrite Hn'.
      split; [done|]. split; [done|]. split; [lia|]. split; [lia|]. by split.
    + apply at_cursor_spec. rewrite Hblk. eexists. split; [reflexivity|].
      split; [exact Hmerge|]. by rewrite Hpc.
  - split; [|split; [|split; congruence]].
    + assert (Hn' : bs_named st_b = bs_named st).
      { unfold st_b. by rewrite group_body_state_named. }
      apply view_spec. exists pa, ta, bp, bt, v. rewrite Hn'.
      by repeat (split; [done|]).
    + apply at_cursor_spec. rewrite Hblk. eexists. split; [reflexivity|].
      split.
      * unfold st_b. rewrite (group_body_state_blocks st b bb pa ta Hi Hb).
        pose proof (lookup_lt_Some _ _ _ Hb).
        rewrite bool_decide_eq_false_2 by (subst group_content; lia).
        by rewrite bool_decide_eq_true_2.
      * by rewrite Hpc.
Qed.

Lemma entry_test m s c :
  represents st m s -> bf_cell s = Some c ->
  exists m',
    run (bs_blocks st') 5 m = Running m' /\
    if bool_decide (c = 0) then represents st' m' s else represents st_b m' s.
Proof.
  intros Hrep Hc. pose proof Hrep as (Hv & Hcur & Hin & Htr).
  rewrite <- (represents_cell _ _ _ Hrep) in Hc.
  apply view_spec in Hv as (pa0 & ta0 & bp & bt & v & Hp0 & Ht0 & Hpk & Htk & Hl & Hv).
  apply at_cursor_spec in Hcur as (bb0 & Hi0 & Hb0 & Hpc0).
  assert (pa0 = pa) as -> by congruence. assert (ta0 = ta) as -> by congruence.
  assert (m_block m = b) as Hmb by congruence. rewrite Hmb in Hb0.
  assert (bb0 = bb) as -> by congruence.
  destruct loop_facts as (_ & _ & _ & Hentry & _).
  rewrite <- Hmb in Hentry. rewrite Hv in Hc.
  destruct (run_cell_test _ _ (bb_insts bb) [] m pa ta bp bt v _ (bs_next st) c
              group_content merge Hentry
              ltac:(simpl; rewrite ?app_nil_r; reflexivity) Hpc0 Hl Hpk Htk Hc)
    as (m' & Hrun & Hblk & Hpc' & Hl' & _ & Htr' & Hin').
  exists m'. split; [exact Hrun|].
  pose proof (group_body_state_frame st bb pa ta) as (_ & Hnext & _).
  apply (after_test m m' s bp bt v c); try done; unfold st_b; lia.
Qed.

Lemma exit_test m s c :
  (alloca_id pa < bs_next st_b)%nat -> (alloca_id ta < bs_next st_b)%nat ->
  represents st_c m s -> bf_cell s = Some c ->
  exists m',
    run (bs_blocks st') 5 m = Running m' /\
    if bool_decide (c = 0) then represents st' m' s else represents st_b m' s.
Proof.
  intros Hpb Htb Hrep Hc. pose proof Hrep as (Hv & Hcur & Hin & Htr).
  rewrite <- (represents_cell _ _ _ Hrep) in Hc.
  destruct loop_facts as (_ & Hnamed & _ & _ & (bc & bbc & Hic & Hbc & Hexit) & _).
  apply view_spec in Hv as (pa0 & ta0 & bp & bt & v & Hp0 & Ht0 & Hpk & Htk & Hl & Hv).
  apply at_cursor_spec in Hcur as (bb0 & Hi0 & Hb0 & Hpc0).
  rewrite Hnamed in Hp0, Ht0.
  assert (pa0 = pa) as -> by congruence. assert (ta0 = ta) as -> by congruence.
  assert (m_block m = bc) as Hmb by congruence. rewrite Hmb in Hb0.
  assert (bb0 = bbc) as -> by congruence.
  rewrite <- Hmb in Hexit. rewrite Hv in Hc.
  destruct (run_cell_test _ _ (bb_insts bbc) [] m pa ta bp bt v _ (bs_next st_c) c
              group_content merge Hexit
              ltac:(simpl; rewrite ?app_nil_r; reflexivity) Hpc0 Hl Hpk Htk Hc)
    as (m' & Hrun & Hblk & Hpc' & Hl' & _ & Htr' & Hin').
  exists m'. split; [exact Hrun|].
  by apply (after_test m m' s bp bt v c).
Qed.

Lemma exit_test_out_of_bounds m s :
  represents st_c m s -> bf_cell s = None ->
  run (bs_blocks st') 4 m = Faulted OutOfBounds.
Proof.
  intros Hrep Hc. pose proof Hrep as (Hv & Hcur & Hin & Htr).
  assert (Hout : ~ (0 <= bf_ptr s < TAPE_SIZE)).
  { rewrite <- (represents_bounds _ _ _ Hrep), Hc. by intros [? ?]. }
  destruct loop_facts as (_ & Hnamed & _ & _ & (bc & bbc & Hic & Hbc & Hexit) & _).
  apply view_spec in Hv as (pa0 & ta0 & bp & bt & v & Hp0 & Ht0 & Hpk & Htk & Hl & Hv).
  apply at_cursor_spec in Hcur as (bb0 & Hi0 & Hb0 & Hpc0).
  rewrite Hnamed in Hp0, Ht0.
  assert (pa0 = pa) as -> by congruence. assert (ta0 = ta) as -> by congruence.
  assert (m_block m = bc) as Hmb by congruence. rewrite Hmb in Hb0.
  assert (bb0 = bbc) as -> by congruence.
  rewrite <- Hmb in Hexit. rewrite Hv in Hout.
  etrans;
    [apply (run_seq _ _ (bb_insts bbc) (cell_test_code (bs_next st_c) pa ta)
             [CondBr (Inst (3 + bs_next st_c)) group_content merge] m Hexit);
     done|].
  by eapply exec_load_cell_out_of_bounds.
Qed.

End Loop.

Lemma seq_agrees fuel :
  node_agrees fuel ->
  forall l st st' m s,
    instructions l = true -> represents st m s ->
    for_each codegen l st = Some (tt, st') ->
    agrees st' m (bf_seq (bf_node fuel) l s).
Proof.
  intros Hnode. induction l as [|n l IH]; intros st st' m s Hl Hrep Hfe.
  - injection Hfe as <-. by exists O, m.
  - apply andb_true_iff in Hl as [Hn Hl].
    pose proof (represents_ready _ _ _ Hrep) as Hr.
    destruct (codegen_ok n st Hr) as (st1 & Hcg & _ & Hr1 & _).
    cbn [for_each] in Hfe. unfold bind in Hfe. rewrite Hcg in Hfe.
    destruct (for_each_codegen_ok l st1 Hr1) as (st2 & Hfe' & Hf & _).
    assert (st2 = st') as -> by congruence.
    pose proof (frame_extends _ _ Hf) as He.
    pose proof (Hnode n st st1 m s Hn Hrep Hcg) as Hag.
    cbn [bf_seq]. destruct (bf_node fuel n s) as [s1| |]; [| |done].
    + destruct Hag as (k & m1 & Hrun & Hrep1).
      apply (agrees_prepend _ _ m1 k); [|by apply (IH st1)].
      by apply (run_extends _ _ _ _ _ He Hrun).
    + by apply (agrees_extends st1).
Qed.

Lemma loop_agrees_O : loop_agrees O.
Proof.
  intros children st b bb pa ta st_c m s c _ _ _ _ _ _ _ Hc Hne.
  rewrite bf_node_group, Hc. by rewrite bool_decide_eq_false_2.
Qed.

Lemma loop_agrees_S fuel : node_agrees fuel -> loop_agrees fuel -> loop_agrees (S fuel).
Proof.
  intros Hnode Hloop children st b bb pa ta st_c m s c Hch Hi Hb Hp Ht Hfe Hrep Hc Hne.
  rewrite bf_node_group, Hc, bool_decide_eq_false_2 by done.
  pose proof (seq_agrees fuel Hnode children _ st_c m s Hch Hrep Hfe) as Hag.
  pose proof (loop_extends st pa ta st_c) as He.
  destruct (bf_seq (bf_node fuel) children s) as [s1| |]; [| |done].
  - destruct Hag as (k & m1 & Hrun & Hrep1).
    apply (agrees_prepend _ _ m1 k); [by apply (run_extends _ _ _ _ _ He Hrun)|].
    destruct Hrep as ((pa0 & ta0 & _ & _ & _ & Hp0 & Ht0 & Hpk & Htk & _)%view_spec & _).
    rewrite group_body_state_named in Hp0, Ht0.
    assert (pa0 = pa) as -> by congruence. assert (ta0 = ta) as -> by congruence.
    destruct (bf_cell s1) as [c1|] eqn:Hc1.
    + destruct (exit_test children st b bb pa ta st_c Hch Hi Hb Hp Ht Hfe m1 s1 c1
                  Hpk Htk Hrep1 Hc1) as (m2 & Hrun2 & Hrep2).
      apply (agrees_prepend _ _ m2 5); [exact Hrun2|].
      case_bool_decide as Hz.
      * rewrite bf_node_group, Hc1, bool_decide_eq_true_2 by done. by exists O, m2.
      * by apply (Hloop children st b bb pa ta st_c m2 s1 c1).
    + rewrite bf_node_group, Hc1. exists 4%nat.
      exact (exit_test_out_of_bounds children st b bb pa ta st_c Hch Hi Hb Hp Ht Hfe m1 s1
               Hrep1 Hc1).
  - by apply (agrees_extends st_c).
Qed.

Lemma node_agrees_loop fuel : loop_agrees fuel -> node_agrees fuel.
Proof.
  intros Hloop n st st' m s Hn Hrep Hcg.
  destruct n as [| | | | | |children|children];
    [by apply (leaf_agrees fuel _ st)..| |done].
  pose proof Hrep as (Hv & Hcur & _).
  pose proof Hv as (pa & ta & _ & _ & _ & Hp & Ht & _)%view_spec.
  pose proof Hcur as (bb & Hi & Hb & _)%at_cursor_spec.
  destruct (group_shape children st _ bb pa ta Hi Hb Hp Ht)
    as (st_c & _ & _ & _ & _ & Hfe & _).
  destruct (loop_facts children st _ bb pa ta st_c Hn Hi Hb Hp Ht Hfe) as (Hcg' & _).
  assert (st' = group_exit_state st st_c pa ta) as -> by congruence.
  destruct (bf_cell s) as [c|] eqn:Hc.
  - destruct (entry_test children st _ bb pa ta st_c Hn Hi Hb Hp Ht Hfe m s c Hrep Hc)
      as (m1 & Hrun & Hrep1).
    apply (agrees_prepend _ _ m1 5); [exact Hrun|].
    case_bool_decide as Hz.
    + rewrite bf_node_group, Hc, bool_decide_eq_true_2 by done. by exists O, m1.
    + by apply (Hloop children st (m_block m) bb pa ta st_c m1 s c).
  - rewrite bf_node_group, Hc.
    destruct (run_out_of_bounds (ConditionalGroupNode children) st m _ _ eq_refl Hv Hcur)
      as (st'' & k & Hcg'' & Hrun).
    + rewrite <- (represents_bounds _ _ _ Hrep), Hc. by intros [? ?].
    + assert (st'' = group_exit_state st st_c pa ta) as -> by congruence. by exists k.
Qed.

Lemma agrees_fuel fuel : node_agrees fuel /\ loop_agrees fuel.
Proof.
  induction fuel as [|fuel [IHn IHl]].
  - split; [apply node_agrees_loop|]; apply loop_agrees_O.
  - assert (loop_agrees (S fuel)) by by apply loop_agrees_S.
    split; [by apply node_agrees_loop|done].
Qed.

(** The state in which the children of the root start, on both sides. *)
Lemma represents_start input :
  represents entry_state (entry_machine input) (bf_start input).
Proof.
  split; [|done]. rewrite entry_view. cbn [bf_start bf_ptr bf_tape].
  by rewrite fmap_replicate.
Qed.

End ReferenceFacts.

Section ProgramAgrees.

Lemma program_agrees children input fuel :
  instructions children = true ->
  exists st_c,
    compile (ProgramNode children) = Some (insert_inst (Ret None) st_c) /\
    match bf_run fuel children (bf_start input) with
    | BFDone s' =>
        exists k m',
          run (bs_blocks (insert_inst (Ret None) st_c)) k (start input) = Returned m' /\
          represents st_c m' s'
    | BFOutOfBounds =>
        exists k,
          run (bs_blocks (insert_inst (Ret None) st_c)) k (start input)
          = Faulted OutOfBounds
    | BFNoResult => True
    end.
Proof.
  intros Hc. destruct (compile_program children) as (st_c & Hfe & Hcomp & Hf & _).
  exists st_c. split; [exact Hcomp|].
  pose proof (seq_agrees fuel (proj1 (agrees_fuel fuel)) children entry_state st_c
                (entry_machine input) (bf_start input) Hc (represents_start input) Hfe)
    as Hag.
  pose proof (frame_extends _ _ Hf) as He0.
  pose proof (frame_extends _ _ (frame_insert_insts [Ret None] st_c)) as He.
  change (insert_insts [Ret None] st_c) with (insert_inst (Ret None) st_c) in He.
  pose proof (run_extends _ _ _ _ _ (extends_trans _ _ _ He0 He)
                (entry_machine_prologue input) ltac:(done)) as Hpro.
  unfold bf_run. destruct (bf_seq (bf_node fuel) children (bf_start input)) as [s'| |];
    [| |done].
  - destruct Hag as (k & m' & Hrun & Hrep). exists (4 + (k + 1))%nat, m'.
    split; [|done]. rewrite run_plus, Hpro. cbv beta iota.
    rewrite run_plus, (run_extends _ _ _ _ _ He Hrun) by done.
    apply run_ret, Hrep.
  - destruct Hag as (k & Hrun). exists (4 + k)%nat.
    rewrite run_plus, Hpro. cbv beta iota. by apply (run_extends _ _ _ _ _ He Hrun).
Qed.

End ProgramAgrees.

(* ===================================================================== *)
(** ** The properties *)
(* ===================================================================== *)

(** C1. A group is lowered to three regions: the test of the current cell
    at the end of the current block, branching to the merge block when the
    cell is zero and to the body block when it is not; the body block, from
    whose start every child is compiled, one after the other, each in the
    state the one before it left, and which ends with the same test,
    branching back to the start of the body block or on to the merge
    block; and the merge block, empty, which is the insertion point for
    what follows.  The result has two blocks more than before, and those
    of the groups inside; a body without groups is one block, the code of
    its children in their order followed by the test and the branch.  For
    [[]] on a fresh tape the body is not entered and the program returns
    without input or output; the three blocks of [[-]] are written out. *)
Theorem group_codegen_regions :
  (forall children st b bb pa ta,
     bs_insert st = Some b -> bs_blocks st !! b = Some bb ->
     bs_named st !! "position" = Some pa -> bs_named st !! "tape" = Some ta ->
     group_lowered children st b bb pa ta) /\
  parse_string "[]" = Some (ProgramNode [ConditionalGroupNode []]) /\
  (forall input,
     returned_trace (execute (ProgramNode [ConditionalGroupNode []]) input 10) = Some []) /\
  bs_blocks <$> compile (ProgramNode [ConditionalGroupNode [DecrementNode]]) =
    Some
      [{| bb_name := "entry"; bb_parent := "main";
          bb_insts :=
            [Alloca 0 Int64Ty "position";
             Store (ConstantInt Int64Ty 0) (Inst 0%nat);
             Alloca 2 (ArrayTy Int8Ty TAPE_SIZE) "tape";
             Store (ConstantAggregateZero (ArrayTy Int8Ty TAPE_SIZE)) (Inst 2%nat);
             Load 4 Int64Ty (Inst 0%nat) "position";
             GetElementPtr 5 (ArrayTy Int8Ty TAPE_SIZE) (Inst 2%nat)
               [ConstantInt Int8Ty 0; Inst 4%nat] "tape cell ptr";
             Load 6 Int8Ty (Inst 5%nat) "";
             ICmpNE 7 (Inst 6%nat) (ConstantInt Int8Ty 0);
             CondBr (Inst 7%nat) 1 2] |};
       {| bb_name := "group content"; bb_parent := "main";
          bb_insts :=
            [Load 9 Int64Ty (Inst 0%nat) "position";
             GetElementPtr 10 (ArrayTy Int8Ty TAPE_SIZE) (Inst 2%nat)
               [ConstantInt Int8Ty 0; Inst 9%nat] "tape cell ptr";
             Load 11 Int8Ty (Inst 10%nat) "tape cell";
             Sub 12 (Inst 11%nat) (ConstantInt Int8Ty 1) "new tape value";
             Store (Inst 12%nat) (Inst 10%nat);
             Load 14 Int64Ty (Inst 0%nat) "position";
             GetElementPtr 15 (ArrayTy Int8Ty TAPE_SIZE) (Inst 2%nat)
               [ConstantInt Int8Ty 0; Inst 14%nat] "tape cell ptr";
             Load 16 Int8Ty (Inst 15%nat) "";
             ICmpNE 17 (Inst 16%nat) (ConstantInt Int8Ty 0);
             CondBr (Inst 17%nat) 1 2] |};
       {| bb_name := "merge"; bb_parent := "main"; bb_insts := [Ret None] |}].
Proof.
  split; [|split; [reflexivity|split; [intros input; vm_compute; reflexivity|reflexivity]]].
  intros children st b bb pa ta Hi Hb Hp Ht.
  destruct (group_shape children st b bb pa ta Hi Hb Hp Ht)
    as (st_c & pa' & ta' & last & bbl & Hfe & Hpc & Htc & Hic & Hbc & Hnamed & Hcg
        & Hentry & Hexit & Hmerge & Hlast & Hframe).
  exists st_c, (group_exit_state st st_c pa' ta'), pa', ta', last, bbl.
  pose proof (lookup_lt_Some _ _ _ Hb) as Hlt.
  assert (Hr : ready st = true) by (apply ready_spec; by exists b, bb, pa, ta).
  assert (Hsame : instructions children = true -> pa' = pa /\ ta' = ta).
  { intros H. rewrite (Hnamed H) in Hpc, Htc. split; congruence. }
  split; [exact Hcg|]. split; [exact Hentry|].
  split.
  { rewrite (codegen_blocks _ _ _ Hr Hcg). cbn [blocks_of]. lia. }
  split; [reflexivity|].
  split.
  { rewrite (group_body_state_blocks st b bb pa ta Hi Hb).
    rewrite bool_decide_eq_false_2 by lia. by rewrite bool_decide_eq_true_2. }
  split; [by apply for_each_compiled|].
  split; [apply loop_extends|].
  split.
  { intros Hl. destruct (Hsame (leaves_instructions _ Hl)) as [-> ->].
    exact (group_leaf_body children st b bb pa ta st_c Hi Hb Hp Ht Hl Hfe). }
  split; [exact Hic|]. split; [exact Hbc|].
  split; [exact Hpc|]. split; [exact Htc|].
  split; [exact Hsame|].
  split; [exact Hexit|]. split; [exact Hmerge|]. split; [reflexivity|].
  split.
  - intros m p cells c (pa0 & ta0 & bp & bt & v & Hp0 & Ht0 & Hpk & Htk & Hl & ->)%view_spec
      (bb0 & Hi0 & Hb0 & Hpc0)%at_cursor_spec Hc.
    assert (pa0 = pa) as -> by congruence. assert (ta0 = ta) as -> by congruence.
    assert (m_block m = b) as Hmb by congruence. rewrite Hmb in Hb0.
    assert (bb0 = bb) as -> by congruence.
    rewrite <- Hmb in Hentry.
    destruct (run_cell_test _ _ (bb_insts bb) [] m pa ta bp bt v cells (bs_next st) c
                (length (bs_blocks st)) (S (length (bs_blocks st))) Hentry
                ltac:(simpl; rewrite ?app_nil_r; reflexivity) Hpc0 Hl Hpk Htk Hc)
      as (m' & Hrun & Hblk & Hpc' & _ & Hmem & Htr & Hin).
    by exists m'.
  - intros m p cells c (pa0 & ta0 & bp & bt & v & Hp0 & Ht0 & Hpk & Htk & Hl & ->)%view_spec
      (bb0 & Hi0 & Hb0 & Hpc0)%at_cursor_spec Hc.
    assert (pa0 = pa') as -> by congruence. assert (ta0 = ta') as -> by congruence.
    assert (m_block m = last) as Hmb by congruence. rewrite Hmb in Hb0.
    assert (bb0 = bbl) as -> by congruence.
    rewrite <- Hmb in Hexit.
    destruct (run_cell_test _ _ (bb_insts bbl) [] m pa' ta' bp bt v cells (bs_next st_c) c
                (length (bs_blocks st)) (S (length (bs_blocks st))) Hexit
                ltac:(simpl; rewrite ?app_nil_r; reflexivity) Hpc0 Hl Hpk Htk Hc)
      as (m' & Hrun & Hblk & Hpc' & _ & Hmem & Htr & Hin).
    by exists m'.
Qed.

Lemma group_codegen_regions_witness :
  group_lowered [DecrementNode] entry_state 0
    {| bb_name := "entry"; bb_parent := "main"; bb_insts := prologue_code |}
    {| alloca_id := 0; alloca_ty := Int64Ty |}
    {| alloca_id := 2; alloca_ty := ArrayTy Int8Ty TAPE_SIZE |}.
Proof. apply (proj1 group_codegen_regions); reflexivity. Defined.

(** C2. The input [++>+++++[<+>-]<.] parses into Increment, Increment,
    MoveRight, five Increments, a group of MoveLeft, Increment, MoveRight,
    Decrement, then MoveLeft and Output; running the generated code calls
    [putchar] once, with 7, and returns, whatever the input is. *)
Theorem seven_scenario :
  parse_string "++>+++++[<+>-]<." =
    Some (ProgramNode
            [IncrementNode; IncrementNode; MoveRightNode;
             IncrementNode; IncrementNode; IncrementNode; IncrementNode; IncrementNode;
             ConditionalGroupNode [MoveLeftNode; IncrementNode; MoveRightNode; DecrementNode];
             MoveLeftNode; PutCharNode]) /\
  (forall input,
     returned_trace
       (execute
          (ProgramNode
             [IncrementNode; IncrementNode; MoveRightNode;
              IncrementNode; IncrementNode; IncrementNode; IncrementNode; IncrementNode;
              ConditionalGroupNode [MoveLeftNode; IncrementNode; MoveRightNode; DecrementNode];
              MoveLeftNode; PutCharNode])
          input 162)
     = Some [EvPutchar 7]).
Proof. split; [reflexivity|]. intros input. vm_compute. reflexivity. Qed.

(** C3. The parser never rejects a stream: it always returns a program.
    End of stream closes every open group (the stream followed by any
    number of [']'] parses the same, and the children read so far still
    become a group), and a [']'] at the top level ends the program, so
    that what follows it is not in the tree. *)
Theorem parser_never_rejects :
  (forall s, exists children, parse s = Some (ProgramNode children)) /\
  (forall s k, parse (s ++ repeat "]"%char k) = parse s) /\
  (forall outer inner,
     instructions outer = true -> instructions inner = true ->
     parse (debug_print_children outer ++ "["%char :: debug_print_children inner)
     = Some (ProgramNode (outer ++ [ConditionalGroupNode inner]))) /\
  (forall children rest,
     instructions children = true ->
     parse (debug_print_children children ++ "]"%char :: rest)
     = Some (ProgramNode children)).
Proof.
  split; [|split; [|split]].
  - intros s. destruct (parse_total s) as (ch & _ & _ & H). by exists ch.
  - apply parse_closing_brackets.
  - intros outer inner Ho Hi.
    rewrite <- (parse_closing_brackets _ 1). simpl repeat.
    rewrite <- (parse_debug_print_children (outer ++ [ConditionalGroupNode inner])).
    + f_equal. unfold debug_print_children. rewrite flat_map_app. simpl.
      by rewrite app_nil_r, <- !app_assoc.
    + rewrite instructions_app, Ho. simpl. by rewrite andb_true_r.
  - intros children rest Hc.
    destruct (parse_print_children children ("]"%char :: rest) [] (children, rest) 2%nat
                Hc eq_refl) as (f & Hf).
    by eapply parse_intro.
Qed.

Lemma parser_never_rejects_witness :
  parse (debug_print_children [IncrementNode] ++
         "["%char :: debug_print_children [DecrementNode; ConditionalGroupNode []])
  = Some (ProgramNode
            [IncrementNode;
             ConditionalGroupNode [DecrementNode; ConditionalGroupNode []]]) /\
  parse (debug_print_children [IncrementNode] ++ "]"%char :: ["-"%char])
  = Some (ProgramNode [IncrementNode]).
Proof.
  split.
  - apply (proj1 (proj2 (proj2 parser_never_rejects))
             [IncrementNode] [DecrementNode; ConditionalGroupNode []]); reflexivity.
  - apply (proj2 (proj2 (proj2 parser_never_rejects)) [IncrementNode] ["-"%char]).
    reflexivity.
Defined.

(** C6. Parsing the debug print of a parsed program gives the same tree
    again, for any input. *)
Theorem debug_print_roundtrip (s : stream) (prog : Node) :
  parse s = Some prog -> parse (debug_print prog) = Some prog.
Proof.
  intros (children & rest & Hc & ->)%parse_elim.
  apply (parse_debug_print_children children).
  by apply (proj2 (proj2 (parse_builds_instructions _)) _ _ _ _ Hc).
Qed.

Lemma debug_print_roundtrip_witness :
  parse (debug_print (ProgramNode [IncrementNode; ConditionalGroupNode [DecrementNode]]))
  = Some (ProgramNode [IncrementNode; ConditionalGroupNode [DecrementNode]]).
Proof.
  apply (debug_print_roundtrip (list_ascii_of_string "a+ [x-")). reflexivity.
Defined.

(** C7. Characters outside [+-<>.,[]] inserted anywhere in the input do not
    change the tree. *)
Theorem comments_are_transparent (s s' : stream) :
  inserted s s' -> parse s' = parse s.
Proof.
  intros H. rewrite <- (parse_filter_commands s'), <- (parse_filter_commands s).
  by rewrite (inserted_filter _ _ H).
Qed.

Lemma comments_are_transparent_witness :
  parse (list_ascii_of_string "a+ [b]") = parse (list_ascii_of_string "+[]").
Proof.
  apply comments_are_transparent. simpl.
  apply inserted_filler; [reflexivity|]. apply inserted_keep.
  apply inserted_filler; [reflexivity|]. apply inserted_keep.
  apply inserted_filler; [reflexivity|]. apply inserted_keep.
  apply inserted_nil.
Defined.

(** C4. For every program, code generation first declares [main], with no
    parameters and no result, and emits into its entry block the alloca of
    the i64 pointer with a store of 0 and the alloca of [TAPE_SIZE] = 16384
    i8 cells with a store of the all-zero array; from that state it
    compiles every child, one after the other, each in the state the one
    before it left, and it ends with [ret void].  The module has one block
    and those of the groups; for a program without groups the one block is
    the four instructions, the code of the children in their order, and
    [ret void].  Executed, the first four instructions leave the pointer
    at 0 and a tape of 16384 zero cells. *)
Theorem program_codegen (children : list Node) :
  exists st_c st' last bbl code,
    compile (ProgramNode children) = Some st' /\
    bs_functions st' !! O =
      Some ("main", {| ft_ret := VoidTy; ft_params := []; ft_vararg := false |}) /\
    program_prologue llvm_init = Some (tt, entry_state) /\
    bs_blocks st' !! O =
      Some {| bb_name := "entry"; bb_parent := "main";
              bb_insts :=
                [Alloca 0 Int64Ty "position";
                 Store (ConstantInt Int64Ty 0) (Inst 0%nat);
                 Alloca 2 (ArrayTy Int8Ty 16384) "tape";
                 Store (ConstantAggregateZero (ArrayTy Int8Ty 16384)) (Inst 2%nat)]
                ++ code |} /\
    compiled_in_order children entry_state st_c /\
    length (bs_blocks st') = (1 + list_sum (map blocks_of children))%nat /\
    (forallb is_leaf children = true ->
     bs_blocks st' =
       [{| bb_name := "entry"; bb_parent := "main";
           bb_insts :=
             [Alloca 0 Int64Ty "position";
              Store (ConstantInt Int64Ty 0) (Inst 0%nat);
              Alloca 2 (ArrayTy Int8Ty 16384) "tape";
              Store (ConstantAggregateZero (ArrayTy Int8Ty 16384)) (Inst 2%nat)]
             ++ leaves_code children 4
                  {| alloca_id := 0; alloca_ty := Int64Ty |}
                  {| alloca_id := 2; alloca_ty := ArrayTy Int8Ty 16384 |}
             ++ [Ret None] |}]) /\
    bs_insert st_c = Some last /\ bs_blocks st_c !! last = Some bbl /\
    st' = insert_inst (Ret None) st_c /\
    bs_blocks st' !! last = Some (append_insts [Ret None] bbl) /\
    TAPE_SIZE = 16384 /\
    (forall input,
       run (bs_blocks st') 4 (start input) = Running (entry_machine input) /\
       m_mem (entry_machine input) =
         [{| mb_elt := Int64Ty; mb_cells := [Some 0] |};
          {| mb_elt := Int8Ty; mb_cells := replicate (Z.to_nat 16384) (Some 0) |}] /\
       view entry_state (entry_machine input) = Some (0, blank_tape)).
Proof.
  assert (Hready : ready entry_state = true) by reflexivity.
  destruct (for_each_codegen_ok children entry_state Hready) as (st_c & Hfe & Hf & Hrc & _).
  pose proof Hrc as (last & bbl & _ & _ & Hic & Hbc & _)%ready_spec.
  pose proof (frame_trans _ _ _ Hf (frame_insert_insts [Ret None] st_c)) as Hf'.
  change (insert_insts [Ret None] st_c) with (insert_inst (Ret None) st_c) in Hf'.
  destruct Hf' as (_ & _ & Hblk & _ & Hfun).
  destruct (Hblk O _ eq_refl) as (code & Hentry & _).
  exists st_c, (insert_inst (Ret None) st_c), last, bbl, code.
  split.
  { unfold compile. rewrite codegen_ProgramNode.
    change (program_entry_state llvm_init) with entry_state. by rewrite Hfe. }
  split.
  { exact (prefix_lookup_Some _ _ O _
             (eq_refl : bs_functions entry_state !! O = Some ("main", main_type)) Hfun). }
  split; [reflexivity|]. split; [exact Hentry|].
  split; [by apply for_each_compiled|].
  assert (Hlen : length (bs_blocks (insert_inst (Ret None) st_c)) =
                 (1 + list_sum (map blocks_of children))%nat).
  { rewrite insert_inst_as_insts, insert_insts_length.
    rewrite (for_each_blocks children) with (st := entry_state); [done| |done|done].
    clear. induction children; constructor; auto using codegen_blocks. }
  split; [exact Hlen|].
  split.
  { intros Hl.
    destruct (for_each_leaves children
                {| alloca_id := 0; alloca_ty := Int64Ty |}
                {| alloca_id := 2; alloca_ty := ArrayTy Int8Ty TAPE_SIZE |}
                Hl entry_state st_c eq_refl eq_refl eq_refl Hfe) as (Hblocks & Hins & _).
    rewrite insert_insts_insert in Hins.
    apply list_eq. intros [|j].
    - rewrite insert_inst_as_insts, insert_insts_lookup, Hins, bool_decide_eq_true_2 by done.
      rewrite Hblocks, insert_insts_lookup, bool_decide_eq_true_2 by done.
      cbn [entry_state bs_blocks lookup list_lookup fmap option_fmap option_map append_insts
           bb_name bb_parent bb_insts prologue_code].
      unfold append_insts. cbn [bb_name bb_parent bb_insts].
      by rewrite <- app_assoc.
    - rewrite lookup_ge_None_2; [done|]. rewrite Hlen.
      assert (Hz : forall l, forallb is_leaf l = true -> list_sum (map blocks_of l) = O).
      { clear. induction l as [|n l IH]; [done|]. simpl. intros [Hn Hl]%andb_true_iff.
        rewrite (IH Hl). by destruct n. }
      rewrite (Hz _ Hl). lia. }
  split; [exact Hic|]. split; [exact Hbc|]. split; [reflexivity|].
  split.
  { rewrite insert_inst_as_insts, insert_insts_lookup, Hic, bool_decide_eq_true_2, Hbc by done.
    reflexivity. }
  split; [reflexivity|].
  intros input. split; [|split; [reflexivity|apply entry_view]].
  apply (run_extends (bs_blocks entry_state)); [|apply entry_machine_prologue|done].
  intros j bb Hj. destruct (Hblk j bb Hj) as (code' & Hj' & _).
  eexists. split; [exact Hj'|]. by apply prefix_app_r.
Qed.

(** C5. Arithmetic on a cell wraps modulo 256: an Increment turns [c] into
    [(c + 1) mod 256] and a Decrement into [(c - 1) mod 256]; 256
    Increments in a row on a cell that holds 0 leave the tape as it was,
    and a Decrement on a cell that holds 0 leaves 255 there. *)
Theorem cell_arithmetic_wraps :
  (forall st m p cells c,
     view st m = Some (p, cells) -> at_cursor st m = true -> cell_at p cells = Some c ->
     (exists st' m',
        node_runs IncrementNode st m 5 st' m' /\
        view st' m' = Some (p, <[Z.to_nat p := Some ((c + 1) mod 256)]> cells)) /\
     (exists st' m',
        node_runs DecrementNode st m 5 st' m' /\
        view st' m' = Some (p, <[Z.to_nat p := Some ((c - 1) mod 256)]> cells))) /\
  (forall st m p cells,
     view st m = Some (p, cells) -> at_cursor st m = true -> cell_at p cells = Some 0 ->
     (exists st' m',
        for_each codegen (replicate 256 IncrementNode) st = Some (tt, st') /\
        run (bs_blocks st') (5 * 256) m = Running m' /\
        view st' m' = Some (p, cells) /\ cell_at p cells = Some 0) /\
     (exists st' m' cells',
        node_runs DecrementNode st m 5 st' m' /\
        view st' m' = Some (p, cells') /\ cell_at p cells' = Some 255)).
Proof.
  split.
  - intros st m p cells c Hv Hcur Hc. split.
    + destruct (run_IncrementNode st m p cells Hv Hcur c Hc) as (st' & m' & Hn & Hv' & _).
      by exists st', m'.
    + destruct (run_DecrementNode st m p cells Hv Hcur c Hc) as (st' & m' & Hn & Hv' & _).
      by exists st', m'.
  - intros st m p cells Hv Hcur Hc. split.
    + destruct (run_increments 256 st m p cells 0 Hv Hcur Hc ltac:(lia))
        as (st' & m' & Hfe & Hrun & Hv' & _).
      exists st', m'. split; [exact Hfe|]. split; [exact Hrun|]. split; [|exact Hc].
      rewrite Hv'. change ((0 + Z.of_nat 256) mod 256) with 0.
      apply cell_at_spec in Hc as [_ Hc]. by rewrite list_insert_id.
    + destruct (run_DecrementNode st m p cells Hv Hcur 0 Hc) as (st' & m' & Hn & Hv' & _).
      eexists st', m', _. split; [exact Hn|]. split; [exact Hv'|].
      by apply (cell_at_insert _ _ 0).
Qed.

Lemma cell_arithmetic_wraps_witness :
  (exists st' m',
     for_each codegen (replicate 256 IncrementNode) entry_state = Some (tt, st') /\
     run (bs_blocks st') (5 * 256) (entry_machine []) = Running m' /\
     view st' m' = Some (0, blank_tape) /\ cell_at 0 blank_tape = Some 0) /\
  (exists st' m' cells',
     node_runs DecrementNode entry_state (entry_machine []) 5 st' m' /\
     view st' m' = Some (0, cells') /\ cell_at 0 cells' = Some 255).
Proof.
  apply (proj2 cell_arithmetic_wraps entry_state (entry_machine []) 0 blank_tape);
    vm_compute; reflexivity.
Defined.

(** C8. MoveLeft and MoveRight subtract 1 from and add 1 to the 64-bit
    pointer and check nothing: at pointer 0 MoveLeft gives -1, at pointer
    [TAPE_SIZE - 1] MoveRight gives [TAPE_SIZE], and the code of any node
    that touches the current cell then accesses the tape allocation outside
    its bounds. *)
Theorem pointer_moves_unchecked :
  (forall st m p cells,
     view st m = Some (p, cells) -> at_cursor st m = true ->
     (- 2 ^ 63 < p ->
      exists st' m',
        node_runs MoveLeftNode st m 3 st' m' /\ view st' m' = Some (p - 1, cells)) /\
     (p < 2 ^ 63 - 1 ->
      exists st' m',
        node_runs MoveRightNode st m 3 st' m' /\ view st' m' = Some (p + 1, cells))) /\
  (forall st m cells,
     view st m = Some (0, cells) -> at_cursor st m = true ->
     exists st' m',
       node_runs MoveLeftNode st m 3 st' m' /\ view st' m' = Some (-1, cells) /\
       forall n, accesses_cell n = true ->
         exists st'' steps,
           codegen n st' = Some (tt, st'') /\
           run (bs_blocks st'') steps m' = Faulted OutOfBounds) /\
  (forall st m cells,
     view st m = Some (TAPE_SIZE - 1, cells) -> at_cursor st m = true ->
     exists st' m',
       node_runs MoveRightNode st m 3 st' m' /\ view st' m' = Some (TAPE_SIZE, cells) /\
       forall n, accesses_cell n = true ->
         exists st'' steps,
           codegen n st' = Some (tt, st'') /\
           run (bs_blocks st'') steps m' = Faulted OutOfBounds).
Proof.
  assert (Hleft : forall st m p cells,
            view st m = Some (p, cells) -> at_cursor st m = true -> - 2 ^ 63 < p ->
            exists st' m',
              node_runs MoveLeftNode st m 3 st' m' /\ view st' m' = Some (p - 1, cells)).
  { intros st m p cells Hv Hcur Hp. pose proof (view_range _ _ _ _ Hv) as Hr.
    destruct (run_MoveLeftNode st m p cells Hv Hcur) as (st' & m' & Hn & Hv' & _).
    exists st', m'. split; [exact Hn|]. rewrite Hv', signed_wrap; [done|lia]. }
  assert (Hright : forall st m p cells,
            view st m = Some (p, cells) -> at_cursor st m = true -> p < 2 ^ 63 - 1 ->
            exists st' m',
              node_runs MoveRightNode st m 3 st' m' /\ view st' m' = Some (p + 1, cells)).
  { intros st m p cells Hv Hcur Hp. pose proof (view_range _ _ _ _ Hv) as Hr.
    destruct (run_MoveRightNode st m p cells Hv Hcur) as (st' & m' & Hn & Hv' & _).
    exists st', m'. split; [exact Hn|]. rewrite Hv', signed_wrap; [done|lia]. }
  split; [|split].
  - intros st m p cells Hv Hcur. split; eauto.
  - intros st m cells Hv Hcur.
    destruct (Hleft st m 0 cells Hv Hcur ltac:(lia)) as (st' & m' & Hn & Hv').
    exists st', m'. split; [exact Hn|]. split; [exact Hv'|].
    intros n Hacc. apply (run_out_of_bounds n st' m' (-1) cells Hacc Hv'); [apply Hn|].
    unfold TAPE_SIZE. lia.
  - intros st m cells Hv Hcur.
    destruct (Hright st m (TAPE_SIZE - 1) cells Hv Hcur ltac:(unfold TAPE_SIZE; lia))
      as (st' & m' & Hn & Hv').
    replace (TAPE_SIZE - 1 + 1) with TAPE_SIZE in Hv' by lia.
    exists st', m'. split; [exact Hn|]. split; [exact Hv'|].
    intros n Hacc. apply (run_out_of_bounds n st' m' TAPE_SIZE cells Hacc Hv'); [apply Hn|].
    lia.
Qed.

Lemma pointer_moves_unchecked_witness :
  exists st' m',
    node_runs MoveLeftNode entry_state (entry_machine []) 3 st' m' /\
    view st' m' = Some (-1, blank_tape) /\
    forall n, accesses_cell n = true ->
      exists st'' steps,
        codegen n st' = Some (tt, st'') /\
        run (bs_blocks st'') steps m' = Faulted OutOfBounds.
Proof.
  apply (proj1 (proj2 pointer_moves_unchecked) entry_state (entry_machine []) blank_tape);
    vm_compute; reflexivity.
Defined.

(** C9. The program [,.] calls [getchar] once, stores its result cut to a
    byte in cell 0, calls [putchar] once with that byte, and returns; the
    pointer is still 0 and every other cell still 0. *)
Theorem io_pass_through :
  parse_string ",." = Some (ProgramNode [GetCharNode; PutCharNode]) /\
  (forall input,
     exists st' m',
       compile (ProgramNode [GetCharNode; PutCharNode]) = Some st' /\
       run (bs_blocks st') 14 (start input) = Returned m' /\
       m_trace m' = [EvGetchar (getchar_result input);
                     EvPutchar (getchar_result input mod 256)] /\
       view st' m' =
         Some (0, <[O := Some (getchar_result input mod 256)]> blank_tape) /\
       m_input m' = tail input).
Proof.
  split; [reflexivity|]. intros input.
  pose proof (entry_view input) as Hv0.
  assert (Hcur0 : at_cursor entry_state (entry_machine input) = true) by reflexivity.
  destruct (run_GetCharNode _ _ _ _ Hv0 Hcur0 ltac:(unfold TAPE_SIZE; lia))
    as (st1 & m1 & (Hcg1 & Hrun1 & Hcur1) & Hv1 & Htr1 & Hin1).
  change (m_input (entry_machine input)) with input in *.
  change (m_trace (entry_machine input)) with (@nil Event) in *.
  change (replicate (Z.to_nat TAPE_SIZE) (Some 0)) with blank_tape in *.
  destruct (run_PutCharNode _ _ _ _ Hv1 Hcur1 _ (cell_at_insert _ _ _ _ cell_at_blank_tape))
    as (st2 & m2 & (Hcg2 & Hrun2 & Hcur2) & Hv2 & Htr2 & Hin2).
  assert (Hr0 : ready entry_state = true) by reflexivity.
  pose proof (view_cursor_ready _ _ _ _ Hv1 Hcur1) as Hr1.
  pose proof (codegen_extends _ _ _ Hr0 Hcg1) as He1.
  pose proof (codegen_extends _ _ _ Hr1 Hcg2) as He2.
  pose proof (frame_extends _ _ (frame_insert_insts [Ret None] st2)) as He3.
  change (insert_insts [Ret None] st2) with (insert_inst (Ret None) st2) in He3.
  exists (insert_inst (Ret None) st2), m2.
  split.
  { unfold compile. rewrite codegen_ProgramNode.
    change (program_entry_state llvm_init) with entry_state.
    cbn [for_each]. unfold bind. rewrite Hcg1, Hcg2. reflexivity. }
  split.
  { change 14%nat with (4 + (5 + (4 + 1)))%nat. rewrite run_plus.
    rewrite (run_extends _ _ _ _ _ (extends_trans _ _ _ He1 (extends_trans _ _ _ He2 He3))
               (entry_machine_prologue input)) by done.
    cbv beta iota. rewrite run_plus.
    rewrite (run_extends _ _ _ _ _ (extends_trans _ _ _ He2 He3) Hrun1) by done.
    cbv beta iota. rewrite run_plus.
    rewrite (run_extends _ _ _ _ _ He3 Hrun2) by done.
    cbv beta iota. by apply run_ret. }
  split. { rewrite Htr2, Htr1, wrap_8. reflexivity. }
  split; [|congruence].
  rewrite insert_inst_as_insts. apply view_insert_insts. by rewrite Hv2, wrap_8.
Qed.

(** C10. Input stores the value [getchar] returned, reduced modulo 256, in
    the current cell; when [getchar] returns -1 for end of input, the cell
    becomes 255. *)
Theorem input_is_truncated :
  (forall st m p cells v rest,
     view st m = Some (p, cells) -> at_cursor st m = true -> 0 <= p < TAPE_SIZE ->
     m_input m = v :: rest ->
     exists st' m',
       node_runs GetCharNode st m 5 st' m' /\
       view st' m' = Some (p, <[Z.to_nat p := Some (v mod 256)]> cells) /\
       m_trace m' = m_trace m ++ [EvGetchar (v mod 2 ^ 32)] /\
       m_input m' = rest) /\
  (forall st m p cells,
     view st m = Some (p, cells) -> at_cursor st m = true -> 0 <= p < TAPE_SIZE ->
     (m_input m = [] \/ exists rest, m_input m = -1 :: rest) ->
     exists st' m',
       node_runs GetCharNode st m 5 st' m' /\
       view st' m' = Some (p, <[Z.to_nat p := Some 255]> cells) /\
       m_trace m' = m_trace m ++ [EvGetchar (2 ^ 32 - 1)]).
Proof.
  split.
  - intros st m p cells v rest Hv Hcur Hp Hin.
    destruct (run_GetCharNode st m p cells Hv Hcur Hp) as (st' & m' & Hn & Hv' & Htr & Hin').
    rewrite Hin in *. unfold getchar_result in *. rewrite wrap_8_32 in Hv'.
    by exists st', m'.
  - intros st m p cells Hv Hcur Hp Hin.
    destruct (run_GetCharNode st m p cells Hv Hcur Hp) as (st' & m' & Hn & Hv' & Htr & Hin').
    exists st', m'. split; [exact Hn|].
    destruct Hin as [Hin|[rest Hin]]; rewrite Hin in *; by split.
Qed.

Lemma input_is_truncated_witness :
  exists st' m',
    node_runs GetCharNode entry_state (entry_machine [321]) 5 st' m' /\
    view st' m' = Some (0, <[Z.to_nat 0 := Some (321 mod 256)]> blank_tape) /\
    m_trace m' = m_trace (entry_machine [321]) ++ [EvGetchar (321 mod 2 ^ 32)] /\
    m_input m' = [].
Proof.
  apply (proj1 input_is_truncated entry_state (entry_machine [321]) 0 blank_tape 321 []);
    (vm_compute; reflexivity) || (unfold TAPE_SIZE; lia).
Defined.

(* ===================================================================== *)
(** ** Further properties *)
(* ===================================================================== *)

(** X1. Whatever the file holds, the parser gives a root whose descendants
    are instructions: a root never occurs below the root. *)
Theorem parse_builds_only_instructions (s : stream) :
  exists children,
    parse s = Some (ProgramNode children) /\ instructions children = true.
Proof.
  destruct (parse_total s) as (ch & rest & Hc & Hp). exists ch. split; [done|].
  by apply (proj2 (proj2 (parse_builds_instructions _)) _ _ _ _ Hc).
Qed.

(** X2. Parsing goes left to right: the text printed from instructions [l],
    followed by any text [s], parses into [l] followed by what [s] alone
    parses into. *)
Theorem parse_after_printed_prefix (l : list Node) (s : stream) :
  instructions l = true ->
  exists children,
    parse s = Some (ProgramNode children) /\
    parse (debug_print_children l ++ s) = Some (ProgramNode (l ++ children)).
Proof.
  intros Hl. destruct (parse_total s) as (ch & rest & Hc & Hp). exists ch. split; [done|].
  pose proof (parse_children_acc _ _ _ l _ _ Hc) as Hacc. rewrite app_nil_r in Hacc.
  destruct (parse_print_children l s [] _ _ Hl Hacc) as (f & Hf).
  by eapply parse_intro.
Qed.

Lemma parse_after_printed_prefix_witness :
  exists children,
    parse (list_ascii_of_string "x>]+") = Some (ProgramNode children) /\
    parse (debug_print_children [IncrementNode; ConditionalGroupNode [DecrementNode]]
           ++ list_ascii_of_string "x>]+")
    = Some (ProgramNode ([IncrementNode; ConditionalGroupNode [DecrementNode]] ++ children)).
Proof. apply parse_after_printed_prefix. reflexivity. Defined.

(** X3. [ProgramNode::try_parse] stops reading at the end of the stream,
    whatever groups are still open, or right after a closing bracket that
    closes no group: before it every closing bracket closes a group and
    every group that is opened is closed.  What follows such a bracket is
    never read. *)
Theorem program_parse_stops (fuel : nat) (s : stream) (root : Node) (rest : stream) :
  ProgramNode_try_parse fuel s = Some (root, rest) ->
  (rest = [] /\ is_Some (open_groups 0 s)) \/
  (exists pre, s = pre ++ "]"%char :: rest /\ open_groups 0 pre = Some O).
Proof.
  unfold ProgramNode_try_parse.
  destruct (parse_children fuel s []) as [[ch r]|] eqn:E; [|discriminate].
  intros [= <- <-]. apply (proj2 (proj2 (parse_scope _)) _ _ _ _ E).
Qed.

Lemma program_parse_stops_witness :
  (list_ascii_of_string "-]" = [] /\
   is_Some (open_groups 0 (list_ascii_of_string "[+]+]-]"))) \/
  (exists pre,
     list_ascii_of_string "[+]+]-]" = pre ++ "]"%char :: list_ascii_of_string "-]" /\
     open_groups 0 pre = Some O).
Proof.
  apply (program_parse_stops 12 (list_ascii_of_string "[+]+]-]")
           (ProgramNode [ConditionalGroupNode [IncrementNode]; IncrementNode])).
  reflexivity.
Defined.

(** X4. Different lists of instructions print differently. *)
Theorem debug_print_injective (l1 l2 : list Node) :
  instructions l1 = true -> instructions l2 = true ->
  debug_print_children l1 = debug_print_children l2 -> l1 = l2.
Proof.
  intros H1 H2 Heq.
  pose proof (parse_debug_print_children l1 H1) as P1.
  pose proof (parse_debug_print_children l2 H2) as P2.
  rewrite Heq in P1. congruence.
Qed.

Lemma debug_print_injective_witness :
  [ConditionalGroupNode [IncrementNode]; PutCharNode]
  = [ConditionalGroupNode [IncrementNode]; PutCharNode].
Proof. apply debug_print_injective; reflexivity. Defined.

(** X5. A node without children compiles exactly when the builder has an
    insertion block and [NamedValues] has the allocas the node
    dereferences: ["position"] for all six, and ["tape"] as well for all
    but the two moves.  Each of the six loads or stores, and for these the
    builder dereferences its insertion block. *)
Theorem codegen_leaf_precondition (n : Node) (st : BuilderState) :
  is_leaf n = true ->
  (is_Some (codegen n st) <->
   has_block st = true /\
   is_Some (bs_named st !! "position") /\
   (reads_tape n = true -> is_Some (bs_named st !! "tape"))).
Proof.
  intros Hl. split.
  - intros Hs. destruct (has_block st) eqn:Hhb.
    2: { rewrite codegen_leaf_no_block in Hs by done. by destruct Hs. }
    split; [done|]. destruct (bs_named st !! "position") as [pa|] eqn:Hp.
    + split; [done|]. intros Hrt.
      destruct (bs_named st !! "tape") as [ta|] eqn:Ht; [done|].
      rewrite codegen_leaf_None in Hs by auto. by destruct Hs.
    + rewrite codegen_leaf_None in Hs by auto. by destruct Hs.
  - intros (Hhb & [pa Hp] & Htape). destruct (reads_tape n) eqn:Hrt.
    + destruct (Htape eq_refl) as [ta Ht].
      by rewrite (codegen_leaf n st pa ta Hl Hhb Hp Ht).
    + destruct n; try discriminate.
      * by rewrite (codegen_MoveLeftNode st pa Hhb Hp).
      * by rewrite (codegen_MoveRightNode st pa Hhb Hp).
Qed.

Lemma codegen_leaf_precondition_witness :
  is_Some (codegen MoveLeftNode entry_state) <->
  has_block entry_state = true /\
  is_Some (bs_named entry_state !! "position") /\
  (reads_tape MoveLeftNode = true -> is_Some (bs_named entry_state !! "tape")).
Proof. apply codegen_leaf_precondition. reflexivity. Defined.

(** X6. A group compiles exactly when the builder has an insertion block
    and [NamedValues] has both allocas; its children, whatever they are,
    never make it fail. *)
Theorem codegen_group_precondition (children : list Node) (st : BuilderState) :
  is_Some (codegen (ConditionalGroupNode children) st) <-> ready st = true.
Proof.
  split; [apply codegen_group_ready|].
  intros Hr. destruct (codegen_ok (ConditionalGroupNode children) st Hr) as (st' & -> & _).
  done.
Qed.

(** X7. On the state that [llvm_init] leaves, code generation succeeds for
    a root and for no other node: an instruction compiled before the
    prologue of [main] dereferences a null pointer. *)
Theorem compile_needs_root (n : Node) :
  is_Some (compile n) <-> exists children, n = ProgramNode children.
Proof.
  unfold compile. rewrite fmap_is_Some. split.
  - intros Hs. destruct n as [| | | | | |children|children]; [..|by exists children].
    1-6: rewrite codegen_leaf_llvm_init in Hs by done; by destruct Hs.
    by apply codegen_group_ready in Hs.
  - intros [children ->]. destruct (compile_program children) as (st_c & _ & Hc & _).
    unfold compile in Hc.
    by destruct (codegen (ProgramNode children) llvm_init) as [x|]; [exists x|].
Qed.

(** X8. In a state with an insertion block and both allocas, code
    generation of any node succeeds, leaves such a state, and only adds:
    blocks and functions are appended, of the blocks that exist only the
    insertion block changes, by instructions added at its end, and the
    numbering of instructions goes on. *)
Theorem codegen_appends (n : Node) (st : BuilderState) :
  ready st = true ->
  exists st', codegen n st = Some (tt, st') /\ frame st st' /\ ready st' = true.
Proof.
  intros Hr. destruct (codegen_ok n st Hr) as (st' & Hc & Hf & Hr' & _). by exists st'.
Qed.

Lemma codegen_appends_witness :
  exists st',
    codegen (ConditionalGroupNode [GetCharNode]) entry_state = Some (tt, st') /\
    frame entry_state st' /\ ready st' = true.
Proof. apply codegen_appends. reflexivity. Defined.

(** X9. The module compiled from a root whose descendants are instructions
    is well formed: every block belongs to [main], has exactly one
    terminator, its last instruction, and every branch goes to a block
    that exists. *)
Theorem compiled_module_wf (children : list Node) :
  instructions children = true ->
  exists st', compile (ProgramNode children) = Some st' /\ module_wf st' = true.
Proof.
  intros Hc. destruct (compile_program children) as (st_c & _ & Hcomp & _).
  eexists. split; [exact Hcomp|]. by apply (compile_module_wf children).
Qed.

Lemma compiled_module_wf_witness :
  exists st',
    compile (ProgramNode [ConditionalGroupNode [DecrementNode; ConditionalGroupNode []];
                          PutCharNode]) = Some st' /\
    module_wf st' = true.
Proof. apply compiled_module_wf. reflexivity. Defined.

(** X10. The functions of the compiled module: [main], then [putchar] if
    the program has an Output and [getchar] if it has an Input, each
    once however often it is used, with the types the generator gives. *)
Theorem compiled_functions (children : list Node) :
  instructions children = true ->
  exists st',
    compile (ProgramNode children) = Some st' /\
    NoDup (fst <$> bs_functions st') /\
    forall x, x ∈ bs_functions st' <->
      x = ("main", main_type) \/
      (x = ("putchar", putchar_type) /\ existsb uses_putchar children = true) \/
      (x = ("getchar", getchar_type) /\ existsb uses_getchar children = true).
Proof.
  intros Hc. destruct (compile_program children) as (st_c & Hfe & Hcomp & _).
  eexists. split; [exact Hcomp|].
  destruct (for_each_codegen_functions children Hc entry_state st_c eq_refl Hfe
              functions_inv_entry_state) as ((Hnd & _) & Hin).
  split; [exact Hnd|]. intros x.
  change (bs_functions (insert_inst (Ret None) st_c)) with (bs_functions st_c).
  rewrite Hin. cbn [entry_state bs_functions]. by rewrite list_elem_of_singleton.
Qed.

Lemma compiled_functions_witness :
  exists st',
    compile (ProgramNode [PutCharNode; ConditionalGroupNode [PutCharNode]]) = Some st' /\
    NoDup (fst <$> bs_functions st') /\
    forall x, x ∈ bs_functions st' <->
      x = ("main", main_type) \/
      (x = ("putchar", putchar_type) /\
       existsb uses_putchar [PutCharNode; ConditionalGroupNode [PutCharNode]] = true) \/
      (x = ("getchar", getchar_type) /\
       existsb uses_getchar [PutCharNode; ConditionalGroupNode [PutCharNode]] = true).
Proof. apply compiled_functions. reflexivity. Defined.

(** X11. [main] fails only when the file cannot be opened.  For every
    contents of the file it reaches the optimizer and the printer with a
    well-formed module: the messages about a failed parse and a missing
    [main] function are never printed, and no null pointer is
    dereferenced during code generation. *)
Theorem main_emits :
  main None = Exit (-1) "Failed to open input file" /\
  forall in_, exists st, main (Some in_) = Emitted st /\ module_wf st = true.
Proof.
  split; [reflexivity|]. intros in_. unfold main.
  destruct (parse_total in_) as (children & rest & Hpc & ->).
  assert (Hc : instructions children = true)
    by by apply (proj2 (proj2 (parse_builds_instructions _)) _ _ _ _ Hpc).
  destruct (compile_program children) as (st_c & _ & Hcomp & (_ & _ & _ & _ & Hpre) & _).
  rewrite Hcomp. eexists. rewrite bool_decide_eq_true_2.
  - split; [reflexivity|]. by apply (compile_module_wf children).
  - change (bs_functions (insert_inst (Ret None) st_c)) with (bs_functions st_c).
    destruct Hpre as [fs ->]. cbn [entry_state bs_functions].
    rewrite fmap_app. apply elem_of_app. left. by apply list_elem_of_singleton.
Qed.

(** X12. The generated code computes what the program means.  When the
    instructions, taken as: [+] and [-] change the current cell modulo
    256, [<] and [>] move the position, [.] calls [putchar] with the cell,
    [,] stores the result of [getchar] cut to a byte, and a group repeats
    its children while the current cell is not zero, end in a state [s'],
    then the compiled [main] returns, having made the same library calls
    and used the same input, with the same position and the same cells. *)
Theorem compiled_code_agrees (children : list Node) (input : list Z) (fuel : nat)
    (s' : BFState) :
  instructions children = true ->
  bf_run fuel children (bf_start input) = BFDone s' ->
  exists st k m',
    compile (ProgramNode children) = Some st /\
    run (bs_blocks st) k (start input) = Returned m' /\
    m_trace m' = bf_trace s' /\ m_input m' = bf_input s' /\
    view st m' = Some (bf_ptr s', Some <$> bf_tape s').
Proof.
  intros Hc Hrun. destruct (program_agrees children input fuel Hc) as (st_c & Hcomp & Hag).
  rewrite Hrun in Hag. destruct Hag as (k & m' & Hk & Hv & _ & Hin & Htr).
  exists (insert_inst (Ret None) st_c), k, m'.
  split; [done|]. split; [done|]. split; [done|]. split; [done|].
  rewrite insert_inst_as_insts. by apply view_insert_insts.
Qed.

Lemma compiled_code_agrees_witness :
  exists st k m',
    compile (ProgramNode [GetCharNode; ConditionalGroupNode [PutCharNode; DecrementNode]])
    = Some st /\
    run (bs_blocks st) k (start [2]) = Returned m' /\
    m_trace m' = [EvGetchar 2; EvPutchar 2; EvPutchar 1] /\ m_input m' = [] /\
    view st m' = Some (0, Some <$> replicate (Z.to_nat TAPE_SIZE) 0).
Proof.
  apply (compiled_code_agrees
           [GetCharNode; ConditionalGroupNode [PutCharNode; DecrementNode]] [2] 3
           {| bf_ptr := 0; bf_tape := replicate (Z.to_nat TAPE_SIZE) 0;
              bf_input := []; bf_trace := [EvGetchar 2; EvPutchar 2; EvPutchar 1] |});
    reflexivity.
Defined.

(** X13. And when they end with an access outside the tape (the position
    is not in [0, TAPE_SIZE) when the current cell is read or written),
    the compiled [main] runs into the same access: nothing in the
    generated code checks the position or wraps it around. *)
Theorem compiled_code_out_of_bounds (children : list Node) (input : list Z) (fuel : nat) :
  instructions children = true ->
  bf_run fuel children (bf_start input) = BFOutOfBounds ->
  exists st k,
    compile (ProgramNode children) = Some st /\
    run (bs_blocks st) k (start input) = Faulted OutOfBounds.
Proof.
  intros Hc Hrun. destruct (program_agrees children input fuel Hc) as (st_c & Hcomp & Hag).
  rewrite Hrun in Hag. destruct Hag as (k & Hk). by exists (insert_inst (Ret None) st_c), k.
Qed.

Lemma compiled_code_out_of_bounds_witness :
  exists st k,
    compile (ProgramNode [IncrementNode; ConditionalGroupNode [MoveLeftNode]]) = Some st /\
    run (bs_blocks st) k (start []) = Faulted OutOfBounds.
Proof.
  apply (compiled_code_out_of_bounds
           [IncrementNode; ConditionalGroupNode [MoveLeftNode]] [] 2);
    reflexivity.
Defined.
